(** * The job queue of restinpieces-sqlite-crawshaw

    A shallow embedding of [crawshaw/queue.go]: the five queue operations
    [InsertJob], [MarkCompleted], [MarkFailed], [Claim] and
    [MarkRecurrentCompleted], each of which hands one or more SQL statements
    to SQLite through [sqlitex.Exec].

    The development has three layers, bottom up:
    - the [job_queue] table and the meaning of each SQL statement of
      [queue.go] as a function on the table;
    - the connection: [Exec], the transaction state, the clock the
      statements read and the failures the engine may report;
    - the Go functions, written statement for statement as in the source. *)

From Stdlib Require Import ZArith NArith Arith List String Ascii Bool Lia DecimalString.
Import ListNotations.

Local Open Scope list_scope.
Local Open Scope string_scope.
Local Open Scope Z_scope.

(** ** Go errors *)

(** The [error] values that travel through [queue.go]:
    - [SqliteError]: what [sqlitex.Exec] returns when the engine rejects a
      statement, with the engine's (extended) result code;
    - [ForeignError]: an error of the host library or of the Go standard
      library ([db.TimeParse], [time.ParseDuration]);
    - [ErrorString]: [fmt.Errorf] without a wrapped cause;
    - [Wrapped]: [fmt.Errorf("<prefix>: %w", err)]. *)
Inductive error : Type :=
| SqliteError (code : Z) (msg : string)
| ForeignError (msg : string)
| ErrorString (msg : string)
| Wrapped (prefix : string) (cause : error).

Fixpoint error_eqb (a b : error) : bool :=
  match a, b with
  | SqliteError c m, SqliteError c' m' => (c =? c')%Z && (m =? m')%string
  | ForeignError m, ForeignError m' => (m =? m')%string
  | ErrorString m, ErrorString m' => (m =? m')%string
  | Wrapped p c, Wrapped p' c' => (p =? p')%string && error_eqb c c'
  | _, _ => false
  end.

(** [errors.Unwrap]. *)
Definition Unwrap (e : error) : option error :=
  match e with
  | Wrapped _ c => Some c
  | _ => None
  end.

(** [errors.Is]: [target] is [e] or one of the causes [e] wraps. *)
Fixpoint errors_Is (e target : error) : bool :=
  error_eqb e target ||
  match e with
  | Wrapped _ c => errors_Is c target
  | _ => false
  end.

(** SQLite result codes used by the examples below. *)
Definition SQLITE_ERROR : Z := 1.
Definition SQLITE_BUSY : Z := 5.
Definition SQLITE_CONSTRAINT_CHECK : Z := 275.
Definition SQLITE_CONSTRAINT_UNIQUE : Z := 2067.

(** Modelled from the spec: the [DuplicateJobError] of the error taxonomy,
    which the repository's test [TestInsertQueueJobDuplicate] names
    [db.ErrConstraintUnique]; the value is declared in the host library
    [github.com/caasmo/restinpieces/db], outside this repository. *)
Definition ErrConstraintUnique : error := ForeignError "unique constraint violation".

(** ** The clock *)

(** Every statement that writes or compares a timestamp evaluates
    [strftime('%Y-%m-%dT%H:%M:%SZ', 'now')].  [clock] is the reading of the
    engine's clock (UTC) and [strftime] the text the expression yields. *)
Record clock : Type := mkClock {
  year : nat; month : nat; day : nat;
  hour : nat; minute : nat; second : nat
}.

Definition digit (n : nat) : ascii := ascii_of_nat (48 + n mod 10).

Definition pad2 (n : nat) : string :=
  String (digit (n / 10)) (String (digit n) "").

Definition pad4 (n : nat) : string :=
  String (digit (n / 1000)) (String (digit (n / 100)) (pad2 n)).

Definition strftime (c : clock) : string :=
  pad4 (year c) ++ "-" ++ pad2 (month c) ++ "-" ++ pad2 (day c) ++ "T" ++
  pad2 (hour c) ++ ":" ++ pad2 (minute c) ++ ":" ++ pad2 (second c) ++ "Z".




(** ** The [job_queue] table *)

(** One row, with the sixteen columns the statements of [queue.go] name.
    Text columns are [string]s (the empty string stands for "unset").
    Integer columns are integers; the one arithmetic the statements do on
    them, [attempts + 1], is exact in SQLite below the 64-bit boundary, and
    is taken as exact. *)
Record row : Type := mkRow {
  id : Z;
  job_type : string;
  payload : string;
  payload_extra : string;
  status : string;
  attempts : Z;
  max_attempts : Z;
  recurrent : Z;
  interval : string;
  created_at : string;
  updated_at : string;
  scheduled_for : string;
  locked_by : string;
  locked_at : string;
  completed_at : string;
  last_error : string
}.

(** The table in rowid order, which for [job_queue] is the order of [id]. *)
Definition table : Type := list row.

(** The four status texts the statements write or test. *)
Definition StatusPending : string := "pending".
Definition StatusProcessing : string := "processing".
Definition StatusCompleted : string := "completed".
Definition StatusFailed : string := "failed".

(** *** [UPDATE ... SET status = 'completed', ... WHERE id = ?] *)

(** The assignments of the completion statement ([MarkCompleted] and the
    first statement of [MarkRecurrentCompleted]). *)
Definition set_completed (now : string) (r : row) : row :=
  {| id := id r; job_type := job_type r; payload := payload r;
     payload_extra := payload_extra r;
     status := StatusCompleted;
     attempts := attempts r; max_attempts := max_attempts r;
     recurrent := recurrent r; interval := interval r;
     created_at := created_at r;
     updated_at := now;
     scheduled_for := scheduled_for r; locked_by := locked_by r;
     locked_at := "";
     completed_at := now;
     last_error := "" |}.

(** The assignments of the failure statement ([MarkFailed]). *)
Definition set_failed (now errMsg : string) (r : row) : row :=
  {| id := id r; job_type := job_type r; payload := payload r;
     payload_extra := payload_extra r;
     status := StatusFailed;
     attempts := attempts r; max_attempts := max_attempts r;
     recurrent := recurrent r; interval := interval r;
     created_at := created_at r;
     updated_at := now;
     scheduled_for := scheduled_for r; locked_by := locked_by r;
     locked_at := "";
     completed_at := completed_at r;
     last_error := errMsg |}.

(** The assignments of the claim statement ([Claim]). *)
Definition set_claimed (now : string) (r : row) : row :=
  {| id := id r; job_type := job_type r; payload := payload r;
     payload_extra := payload_extra r;
     status := StatusProcessing;
     attempts := attempts r + 1; max_attempts := max_attempts r;
     recurrent := recurrent r; interval := interval r;
     created_at := created_at r; updated_at := updated_at r;
     scheduled_for := scheduled_for r; locked_by := locked_by r;
     locked_at := now;
     completed_at := completed_at r; last_error := last_error r |}.

(** [UPDATE job_queue SET <f> WHERE id = ?]: every row whose [id] is the
    bound value is rewritten, the others are kept. *)
Definition update_where_id (f : row -> row) (jobID : Z) (t : table) : table :=
  map (fun r => if (id r =? jobID)%Z then f r else r) t.

(** *** The claim statement *)

(** [status IN ('pending', 'failed') AND scheduled_for <= strftime(..., 'now')].
    The comparison is SQLite's comparison of two TEXT values, byte by byte,
    a proper prefix sorting first: [String.leb]. *)
Definition eligible (now : string) (r : row) : bool :=
  ((status r =? StatusPending)%string || (status r =? StatusFailed)%string)
  && (scheduled_for r <=? now)%string.

(** [ORDER BY id ASC]. *)
Fixpoint insert_asc (x : Z) (l : list Z) : list Z :=
  match l with
  | [] => [x]
  | y :: l' => if (x <=? y)%Z then x :: l else y :: insert_asc x l'
  end.

Definition order_by_asc (l : list Z) : list Z := fold_right insert_asc [] l.

(** [LIMIT ?]: a negative bound places no upper bound on the number of
    rows, as SQLite defines it. *)
Definition sql_limit {A : Type} (limit : Z) (l : list A) : list A :=
  if (limit <? 0)%Z then l else firstn (Z.to_nat limit) l.

(** The number of rows of [l] that [LIMIT ?] lets through. *)
Definition limit_count {A : Type} (limit : Z) (l : list A) : nat :=
  if (limit <? 0)%Z then List.length l else Z.to_nat limit.

(** The subquery [SELECT id FROM job_queue WHERE ... ORDER BY id ASC LIMIT ?]. *)
Definition select_claimable (now : string) (limit : Z) (t : table) : list Z :=
  sql_limit limit (order_by_asc (map id (filter (eligible now) t))).

(** [id IN (...)]. *)
Definition id_in (ids : list Z) (r : row) : bool :=
  existsb (Z.eqb (id r)) ids.

(** [UPDATE job_queue SET ... WHERE id IN (SELECT ...) RETURNING ...]: the
    new table, and the rows the statement returns, each as it is after the
    update, in the order the update visits the table. *)
Definition update_claim (now : string) (limit : Z) (t : table) : table * list row :=
  let ids := select_claimable now limit t in
  (map (fun r => if id_in ids r then set_claimed now r else r) t,
   map (set_claimed now) (filter (id_in ids) t)).

(** *** The schema *)

(** The schema of [job_queue] ([migrations.JobQueueSchema]) belongs to the
    host library and is not among this repository's sources.  What the
    statements of [queue.go] need from it is taken as a parameter:
    - [check_insert t r]: the constraint (CHECK, UNIQUE, NOT NULL) that
      inserting [r] into [t] violates, if any, as the engine's result code
      and message;
    - [defaults now]: the default values of the columns, evaluated when the
      clock reads [now]; an INSERT takes from it the columns it does not
      list. *)
Record schema : Type := mkSchema {
  check_insert : table -> row -> option (Z * string);
  defaults : string -> row
}.

(** The rowid SQLite gives a new row: 1 in an empty table, otherwise one
    more than the largest in use. *)
Definition next_rowid (t : table) : Z :=
  match t with
  | [] => 1
  | r :: t' => 1 + fold_right (fun r' m => Z.max (id r') m) (id r) t'
  end.

(** The SQL statements of [queue.go], each with its bound parameters in the
    order of the [?] placeholders. *)
Inductive stmt : Type :=
| BeginImmediate
| Commit
| Rollback
| InsertJobQueue (jobType pay payExtra : string) (att maxAtt : Z)
                 (recur : bool) (intervalStr scheduledForStr : string)
| UpdateCompleted (jobID : Z)
| UpdateFailed (errMsg : string) (jobID : Z)
| UpdateClaim (limit : Z).

(** The row of
    [INSERT INTO job_queue (job_type, payload, payload_extra, attempts,
    max_attempts, recurrent, interval, scheduled_for) VALUES (?, ...)]:
    the eight listed columns take the bound values (a Go [bool] is bound as
    0 or 1), [id] the next rowid, the other seven the schema's defaults. *)
Definition inserted_row (S : schema) (now : string) (t : table)
    (jobType pay payExtra : string) (att maxAtt : Z)
    (recur : bool) (intervalStr scheduledForStr : string) : row :=
  let d := defaults S now in
  {| id := next_rowid t;
     job_type := jobType; payload := pay; payload_extra := payExtra;
     status := status d;
     attempts := att; max_attempts := maxAtt;
     recurrent := if recur then 1 else 0;
     interval := intervalStr;
     created_at := created_at d; updated_at := updated_at d;
     scheduled_for := scheduledForStr;
     locked_by := locked_by d; locked_at := locked_at d;
     completed_at := completed_at d; last_error := last_error d |}.

(** One data statement against the table: the engine's constraint error, or
    the new table and the rows of the RETURNING clause.  A statement that
    fails changes nothing. *)
Definition run_dml (S : schema) (now : string) (q : stmt) (t : table)
    : (Z * string) + (table * list row) :=
  match q with
  | InsertJobQueue jt p pe a ma rc iv sf =>
      let r := inserted_row S now t jt p pe a ma rc iv sf in
      match check_insert S t r with
      | Some e => inl e
      | None => inr ((t ++ [r])%list, [])
      end
  | UpdateCompleted jobID => inr (update_where_id (set_completed now) jobID t, [])
  | UpdateFailed errMsg jobID => inr (update_where_id (set_failed now errMsg) jobID t, [])
  | UpdateClaim limit => inr (update_claim now limit t)
  | BeginImmediate | Commit | Rollback => inr (t, [])
  end.

(** ** The connection *)

(** What the environment does to one statement: the clock reading the
    statement sees, and the failure the engine reports for it, if any
    (I/O error, busy database, interrupt), as result code and message. *)
Record event : Type := mkEvent {
  now : clock;
  fault : option (Z * string)
}.

(** The store as one connection of the pool sees it.
    - [tbl]: the table, including the changes of an open transaction;
    - [txn]: the table as it was at BEGIN while a transaction is open;
    - [pool_open]: [d.pool.Get(nil)] hands out a connection (it returns
      [nil] once the pool is closed);
    - [script], [pc]: the environment, one [event] per statement, and the
      number of statements executed so far;
    - [log]: the statements handed to the engine so far, oldest first. *)
Record world : Type := mkWorld {
  tbl : table;
  txn : option table;
  pool_open : bool;
  script : nat -> event;
  pc : nat;
  log : list stmt
}.

(** The table as committed: what survives if the open transaction, if any,
    is never committed, and what other connections see. *)
Definition committed (w : world) : table :=
  match txn w with
  | Some snapshot => snapshot
  | None => tbl w
  end.

(** The event of the next statement, and the timestamp it reads. *)
Definition next_event (w : world) : event := script w (pc w).
Definition now_text (w : world) : string := strftime (now (next_event w)).

(** The statement is handed to the engine: logged, and the script moves on. *)
Definition submitted (q : stmt) (w : world) : world :=
  {| tbl := tbl w; txn := txn w; pool_open := pool_open w;
     script := script w; pc := S (pc w); log := log w ++ [q] |}.

Definition with_tbl (t : table) (w : world) : world :=
  {| tbl := t; txn := txn w; pool_open := pool_open w;
     script := script w; pc := pc w; log := log w |}.

Definition with_txn (x : option table) (w : world) : world :=
  {| tbl := tbl w; txn := x; pool_open := pool_open w;
     script := script w; pc := pc w; log := log w |}.

Definition sqlite_error (e : Z * string) : error := SqliteError (fst e) (snd e).

Definition err_nested_txn : Z * string :=
  (SQLITE_ERROR, "cannot start a transaction within a transaction").
Definition err_no_txn_commit : Z * string :=
  (SQLITE_ERROR, "cannot commit - no transaction is active").
Definition err_no_txn_rollback : Z * string :=
  (SQLITE_ERROR, "cannot rollback - no transaction is active").

(** The engine runs one statement on the connection.  A statement the
    engine fails has no effect; outside a transaction a data statement
    commits on its own. *)
Definition engine_step (S : schema) (q : stmt) (w : world)
    : world * (error + list row) :=
  let w0 := submitted q w in
  match fault (next_event w) with
  | Some e => (w0, inl (sqlite_error e))
  | None =>
      match q with
      | BeginImmediate =>
          match txn w with
          | Some _ => (w0, inl (sqlite_error err_nested_txn))
          | None => (with_txn (Some (tbl w)) w0, inr [])
          end
      | Commit =>
          match txn w with
          | Some _ => (with_txn None w0, inr [])
          | None => (w0, inl (sqlite_error err_no_txn_commit))
          end
      | Rollback =>
          match txn w with
          | Some snapshot => (with_txn None (with_tbl snapshot w0), inr [])
          | None => (w0, inl (sqlite_error err_no_txn_rollback))
          end
      | _ =>
          match run_dml S (now_text w) q (tbl w) with
          | inl e => (w0, inl (sqlite_error e))
          | inr (t', rows) => (with_tbl t' w0, inr rows)
          end
      end
  end.

(** [sqlitex.Exec(conn, query, nil, args...)]: no result function. *)
Definition Exec (S : schema) (q : stmt) (w : world) : world * option error :=
  let (w', r) := engine_step S q w in
  match r with
  | inl e => (w', Some e)
  | inr _ => (w', None)
  end.

(** The loop of [sqlitex.Exec] over the result rows: [resultFn] is called
    on each row and threads the variables it closes over; its first error
    ends the loop and is returned as it is. *)
Fixpoint each_row {A : Type} (resultFn : row -> A -> error + A)
    (rows : list row) (acc : A) : A * option error :=
  match rows with
  | [] => (acc, None)
  | r :: rest =>
      match resultFn r acc with
      | inl e => (acc, Some e)
      | inr acc' => each_row resultFn rest acc'
      end
  end.

(** [sqlitex.Exec(conn, query, resultFn, args...)].  The statement has made
    all its changes before its first row is returned, so an error of
    [resultFn] leaves them in place. *)
Definition ExecRows {A : Type} (S : schema) (q : stmt)
    (resultFn : row -> A -> error + A) (acc : A) (w : world)
    : world * (A * option error) :=
  let (w', r) := engine_step S q w in
  match r with
  | inl e => (w', (acc, Some e))
  | inr rows => (w', each_row resultFn rows acc)
  end.

(** ** The Go functions of [queue.go] *)

(** The types and functions [queue.go] imports from the host library
    ([db.TimeFormat], [db.TimeParse]) and from Go's [time] package; the
    queue only passes their values through. *)
Record GoDeps : Type := mkGoDeps {
  Time : Type;
  Duration : Type;
  zeroTime : Time;                                (* var t time.Time *)
  zeroDuration : Duration;                        (* var d time.Duration *)
  IsZero : Time -> bool;                          (* time.Time.IsZero *)
  TimeFormat : Time -> string;                    (* db.TimeFormat *)
  TimeParse : string -> error + Time;             (* db.TimeParse *)
  DurationString : Duration -> string;            (* time.Duration.String *)
  ParseDuration : string -> error + Duration      (* time.ParseDuration *)
}.

(** How a Go call ends: it returns, or it panics (the nil dereference of
    [sqlitex.Exec] on a nil connection). *)
Inductive outcome (A : Type) : Type :=
| Returns (a : A)
| Panics.
Arguments Returns {A} a.
Arguments Panics {A}.

(** [fmt.Sprintf("%d", n)]. *)
Definition itoa (n : Z) : string := DecimalString.NilZero.string_of_int (Z.to_int n).

(** The 64-bit signed integers: Go's [int64], Go's [int] on a 64-bit
    platform, and SQLite's INTEGER. *)
Definition int64_min : Z := - 2 ^ 63.
Definition int64_max : Z := 2 ^ 63 - 1.

(** A value of Go's [int]. *)
Definition go_int (z : Z) : Prop := int64_min <= z <= int64_max.

(** [stmt.GetInt64(col)]: the column as a 64-bit integer.  A sum that left
    the 64-bit range is kept by SQLite as a REAL, which is read as the
    nearest bound of the range. *)
Definition column_int64 (z : Z) : Z := Z.max int64_min (Z.min int64_max z).

Section Queue.

Variable G : GoDeps.
Variable S : schema.

(** [db.Job].  [Attempts] and [MaxAttempts] are Go [int]s: of the
    integers, those that satisfy [go_int]. *)
Record Job : Type := mkJob {
  ID : Z;
  JobType : string;
  Payload : string;
  PayloadExtra : string;
  Status : string;
  Attempts : Z;
  MaxAttempts : Z;
  CreatedAt : Time G;
  UpdatedAt : Time G;
  ScheduledFor : Time G;
  LockedBy : string;
  LockedAt : Time G;
  CompletedAt : Time G;
  LastError : string;
  Recurrent : bool;
  Interval : Duration G
}.

(** The INSERT of [InsertJob] and [MarkRecurrentCompleted] with its eight
    bound values; [scheduled_for] is bound to the empty string for the zero
    time. *)
Definition insert_stmt (job : Job) : stmt :=
  let scheduledForStr :=
    if IsZero G (ScheduledFor job) then "" else TimeFormat G (ScheduledFor job) in
  InsertJobQueue (JobType job) (Payload job) (PayloadExtra job)
                 (Attempts job) (MaxAttempts job) (Recurrent job)
                 (DurationString G (Interval job)) scheduledForStr.

(** The row that statement adds to [t] when the clock reads [now]. *)
Definition job_row (now : string) (t : table) (job : Job) : row :=
  inserted_row S now t (JobType job) (Payload job) (PayloadExtra job)
    (Attempts job) (MaxAttempts job) (Recurrent job)
    (DurationString G (Interval job))
    (if IsZero G (ScheduledFor job) then "" else TimeFormat G (ScheduledFor job)).

Definition InsertJob (job : Job) (w : world) : world * outcome (option error) :=
  if pool_open w then
    let (w1, err) := Exec S (insert_stmt job) w in
    match err with
    | Some e => (w1, Returns (Some (Wrapped "queue insert failed" e)))
    | None => (w1, Returns None)
    end
  else (w, Panics).

Definition MarkCompleted (jobID : Z) (w : world) : world * outcome (option error) :=
  if pool_open w then
    let (w1, err) := Exec S (UpdateCompleted jobID) w in
    match err with
    | Some e => (w1, Returns (Some (Wrapped "failed to mark job as completed" e)))
    | None => (w1, Returns None)
    end
  else (w, Panics).

Definition MarkFailed (jobID : Z) (errMsg : string) (w : world)
    : world * outcome (option error) :=
  if pool_open w then
    let (w1, err) := Exec S (UpdateFailed errMsg jobID) w in
    match err with
    | Some e => (w1, Returns (Some (Wrapped "failed to mark job as failed" e)))
    | None => (w1, Returns None)
    end
  else (w, Panics).

(** A text column that is parsed only when it is not empty. *)
Definition parse_unless_empty {A : Type} (parse : string -> error + A)
    (zero : A) (prefix text : string) : error + A :=
  if (text =? "")%string then inr zero
  else match parse text with
       | inl e => inl (Wrapped prefix e)
       | inr v => inr v
       end.

(** The body of the result function of [Claim]: one returned row becomes a
    [db.Job], the time and duration columns parsed in the order of the
    source.  [attempts] and [max_attempts] are read by
    [int(stmt.GetInt64(...))]; [id] is the rowid, which is a 64-bit integer
    as it is, and [recurrent] is only compared with 0. *)
Definition scan_job (r : row) : error + Job :=
  match TimeParse G (created_at r) with
  | inl e => inl (Wrapped "error parsing created_at time" e)
  | inr createdAt =>
  match TimeParse G (updated_at r) with
  | inl e => inl (Wrapped "error parsing updated_at time" e)
  | inr updatedAt =>
  match parse_unless_empty (TimeParse G) (zeroTime G)
          "error parsing scheduled_for time" (scheduled_for r) with
  | inl e => inl e
  | inr scheduledFor =>
  match parse_unless_empty (TimeParse G) (zeroTime G)
          "error parsing locked_at time" (locked_at r) with
  | inl e => inl e
  | inr lockedAt =>
  match parse_unless_empty (TimeParse G) (zeroTime G)
          "error parsing completed_at time" (completed_at r) with
  | inl e => inl e
  | inr completedAt =>
  match parse_unless_empty (ParseDuration G) (zeroDuration G)
          ("error parsing interval duration '" ++ interval r ++ "'")
          (interval r) with
  | inl e => inl e
  | inr interval' =>
      inr {| ID := id r;
             JobType := job_type r;
             Payload := payload r;
             PayloadExtra := payload_extra r;
             Status := status r;
             Attempts := column_int64 (attempts r);
             MaxAttempts := column_int64 (max_attempts r);
             CreatedAt := createdAt;
             UpdatedAt := updatedAt;
             ScheduledFor := scheduledFor;
             LockedBy := locked_by r;
             LockedAt := lockedAt;
             CompletedAt := completedAt;
             LastError := last_error r;
             Recurrent := negb (recurrent r =? 0)%Z;
             Interval := interval' |}
  end end end end end end.

(** A Go slice: [None] is the nil slice. *)
Definition slice (A : Type) : Type := option (list A).

Definition append {A : Type} (s : slice A) (x : A) : slice A :=
  match s with
  | None => Some [x]
  | Some l => Some (l ++ [x])%list
  end.

(** The elements of a slice. *)
Definition elems {A : Type} (s : slice A) : list A :=
  match s with
  | None => []
  | Some l => l
  end.

(** The result function of [Claim]: [jobs = append(jobs, job)]. *)
Definition claim_resultFn (r : row) (jobs : slice Job) : error + slice Job :=
  match scan_job r with
  | inl e => inl e
  | inr job => inr (append jobs job)
  end.

(** [Claim] returns the pair [([]*db.Job, error)]. *)
Definition Claim (limit : Z) (w : world) : world * outcome (slice Job * option error) :=
  if pool_open w then
    let '(w1, (jobs, err)) := ExecRows S (UpdateClaim limit) claim_resultFn None w in
    match err with
    | Some e => (w1, Returns (None, Some (Wrapped "failed to claim jobs" e)))
    | None =>
        match jobs with
        | None => (w1, Returns (Some [], None))
        | Some _ => (w1, Returns (jobs, None))
        end
    end
  else (w, Panics).

Definition MarkRecurrentCompleted (completedJobID : Z) (newJob : Job) (w : world)
    : world * outcome (option error) :=
  if negb (pool_open w) then
    (w, Returns (Some (ErrorString
      "failed to get connection for mark recurrent completed: connection is nil")))
  else
    let (w1, err) := Exec S BeginImmediate w in
    match err with
    | Some e =>
        (w1, Returns (Some (Wrapped
          "failed to begin transaction for mark recurrent completed" e)))
    | None =>
    let (w2, err) := Exec S (UpdateCompleted completedJobID) w1 in
    match err with
    | Some e =>
        let (w3, _) := Exec S Rollback w2 in
        (w3, Returns (Some (Wrapped
          ("failed to mark job " ++ itoa completedJobID ++ " completed in transaction") e)))
    | None =>
    let (w3, err) := Exec S (insert_stmt newJob) w2 in
    match err with
    | Some e =>
        let (w4, _) := Exec S Rollback w3 in
        (w4, Returns (Some (Wrapped "failed to re-insert job in transaction" e)))
    | None =>
    let (w4, err) := Exec S Commit w3 in
    match err with
    | Some e =>
        (w4, Returns (Some (Wrapped
          "failed to commit transaction for mark recurrent completed" e)))
    | None => (w4, Returns None)
    end end end end.

End Queue.

Arguments ID {G} j.
Arguments JobType {G} j.
Arguments Payload {G} j.
Arguments PayloadExtra {G} j.
Arguments Status {G} j.
Arguments Attempts {G} j.
Arguments MaxAttempts {G} j.
Arguments CreatedAt {G} j.
Arguments UpdatedAt {G} j.
Arguments ScheduledFor {G} j.
Arguments LockedBy {G} j.
Arguments LockedAt {G} j.
Arguments CompletedAt {G} j.
Arguments LastError {G} j.
Arguments Recurrent {G} j.
Arguments Interval {G} j.

(** ** Well-formed tables, operations, races *)

(** [id] is the table's primary key and its rowid: the rows of a table are
    in strictly ascending order of [id]. *)
Fixpoint ascending_from (lo : Z) (l : list Z) : bool :=
  match l with
  | [] => true
  | x :: l' => (lo <? x)%Z && ascending_from x l'
  end.

Definition strictly_ascending (l : list Z) : bool :=
  match l with
  | [] => true
  | x :: l' => ascending_from x l'
  end.

Definition wf_table (t : table) : Prop := strictly_ascending (map id t) = true.

(** The result function of [Claim] turns row [r] into job [j]. *)
Definition scanned {G : GoDeps} (r : row) (j : Job G) : Prop := scan_job G r = inr j.

(** Row [r'] is row [r] completed at [now], column by column: the five
    columns the completion statement assigns, and the eleven it does not
    name. *)
Definition completed_from (now : string) (r r' : row) : Prop :=
  status r' = StatusCompleted /\ completed_at r' = now /\ updated_at r' = now
  /\ locked_at r' = "" /\ last_error r' = ""
  /\ id r' = id r /\ job_type r' = job_type r /\ payload r' = payload r
  /\ payload_extra r' = payload_extra r /\ attempts r' = attempts r
  /\ max_attempts r' = max_attempts r /\ recurrent r' = recurrent r
  /\ interval r' = interval r /\ created_at r' = created_at r
  /\ scheduled_for r' = scheduled_for r /\ locked_by r' = locked_by r.

(** Table [t'] is table [t] with the rows of id [jobID] completed at [now]
    and every other row as it was. *)
Definition completion_of (now : string) (jobID : Z) (t t' : table) : Prop :=
  Forall2 (fun r r' => if (id r =? jobID)%Z then completed_from now r r' else r' = r)
          t t'.

(** Row [r] is the successor of [job] added to [t]: it has the next rowid
    and the eight values the INSERT binds. *)
Definition successor_of {G : GoDeps} (job : Job G) (t : table) (r : row) : Prop :=
  id r = next_rowid t
  /\ job_type r = JobType job /\ payload r = Payload job
  /\ payload_extra r = PayloadExtra job
  /\ attempts r = Attempts job /\ max_attempts r = MaxAttempts job
  /\ recurrent r = (if Recurrent job then 1 else 0)
  /\ interval r = DurationString G (Interval job)
  /\ scheduled_for r = (if IsZero G (ScheduledFor job) then ""
                        else TimeFormat G (ScheduledFor job)).

(** The calls a worker loop can make on the queue. *)
Inductive op (G : GoDeps) : Type :=
| OpInsertJob (job : Job G)
| OpMarkCompleted (jobID : Z)
| OpMarkFailed (jobID : Z) (errMsg : string)
| OpClaim (limit : Z)
| OpMarkRecurrentCompleted (completedJobID : Z) (newJob : Job G).

Definition run_op (G : GoDeps) (S : schema) (o : op G) (w : world) : world :=
  match o with
  | OpInsertJob _ job => fst (InsertJob G S job w)
  | OpMarkCompleted _ jobID => fst (MarkCompleted S jobID w)
  | OpMarkFailed _ jobID errMsg => fst (MarkFailed S jobID errMsg w)
  | OpClaim _ limit => fst (Claim G S limit w)
  | OpMarkRecurrentCompleted _ jobID newJob => fst (MarkRecurrentCompleted G S jobID newJob w)
  end.

Definition is_claim {G : GoDeps} (o : op G) : bool :=
  match o with
  | OpClaim _ _ => true
  | _ => false
  end.

(** The [attempts] counter of every row, by [id]. *)
Definition attempts_of (t : table) : list (Z * Z) :=
  map (fun r => (id r, attempts r)) t.

(** From [t] to [t'] every row is still there, in place and under its [id],
    with an [attempts] counter that is not smaller. *)
Definition never_decreased (t t' : table) : Prop :=
  exists kept extra,
    t' = (kept ++ extra)%list /\
    Forall2 (fun r r' => id r' = id r /\ attempts r <= attempts r') t kept.

(** The table a call leaves behind is the table it found, possibly with one
    of the statements of [queue.go] applied, possibly with one row added. *)
Inductive reshaped (t : table) : table -> Prop :=
| reshaped_same : reshaped t t
| reshaped_completed : forall now jobID,
    reshaped t (update_where_id (set_completed now) jobID t)
| reshaped_failed : forall now errMsg jobID,
    reshaped t (update_where_id (set_failed now errMsg) jobID t)
| reshaped_added : forall t' r,
    reshaped t t' -> id r = next_rowid t' -> reshaped t (t' ++ [r])%list.

(** The columns the failure statement does not assign. *)
Definition untouched_by_failure (r : row) :=
  (id r, job_type r, payload r, payload_extra r, attempts r, max_attempts r,
   recurrent r, interval r, created_at r, scheduled_for r, locked_by r,
   completed_at r).

(** Two callers claim concurrently, with limits [L1] and [L2].  Each claim
    is one statement, which the engine runs as a whole under its write
    lock, so the two statements take effect one after the other, in either
    order; [jobs1] is what the caller with [L1] receives, [jobs2] what the
    caller with [L2] receives. *)
Inductive claim_race (G : GoDeps) (S : schema) (w : world) (L1 L2 : Z)
    : list (Job G) -> list (Job G) -> world -> Prop :=
| race_first_second : forall w1 w2 jobs1 jobs2,
    Claim G S L1 w = (w1, Returns (Some jobs1, None)) ->
    Claim G S L2 w1 = (w2, Returns (Some jobs2, None)) ->
    claim_race G S w L1 L2 jobs1 jobs2 w2
| race_second_first : forall w1 w2 jobs1 jobs2,
    Claim G S L2 w = (w1, Returns (Some jobs2, None)) ->
    Claim G S L1 w1 = (w2, Returns (Some jobs1, None)) ->
    claim_race G S w L1 L2 jobs1 jobs2 w2.

(** Both statements of a race read the same clock second. *)
Definition same_second (w : world) : Prop :=
  strftime (now (script w (Datatypes.S (pc w)))) = now_text w.

(** The rows a claim can take when the clock reads [now]. *)
Definition eligible_rows (now : string) (t : table) : list row :=
  filter (eligible now) t.

(** ** A concrete instance, for examples *)

Module Demo.

(** Times and durations kept as their text. *)
Definition deps : GoDeps :=
  {| Time := string; Duration := string;
     zeroTime := ""; zeroDuration := "0s";
     IsZero := fun t => (t =? "")%string;
     TimeFormat := fun t => t;
     TimeParse := fun s => inr s;
     DurationString := fun d => d;
     ParseDuration := fun s => inr s |}.

(** Modelled from the spec: the column defaults of the [job_queue] schema
    (section 6: [status] defaults to [pending], the empty string stands for
    an unset text column; section 4.1: [created_at] is the time of the
    insert). *)
Definition default_row (now : string) : row :=
  {| id := 0; job_type := ""; payload := ""; payload_extra := "";
     status := StatusPending; attempts := 0; max_attempts := 0;
     recurrent := 0; interval := "";
     created_at := now; updated_at := now;
     scheduled_for := ""; locked_by := ""; locked_at := "";
     completed_at := ""; last_error := "" |}.

(** A schema without constraints. *)
Definition plain : schema :=
  {| check_insert := fun _ _ => None; defaults := default_row |}.

(** A schema that checks [job_type] and [payload] to be non-empty and
    [payload] to be unique. *)
Definition strict : schema :=
  {| check_insert := fun t r =>
       if (job_type r =? "")%string || (payload r =? "")%string
       then Some (SQLITE_CONSTRAINT_CHECK, "CHECK constraint failed")
       else if existsb (fun r' => (payload r' =? payload r)%string) t
       then Some (SQLITE_CONSTRAINT_UNIQUE, "UNIQUE constraint failed: job_queue.payload")
       else None;
     defaults := default_row |}.

Definition noon : clock := mkClock 2025 4 15 12 0 0.

Definition quiet : nat -> event := fun _ => mkEvent noon None.

(** The script in which the engine fails statement [k] with [e]. *)
Definition failing_at (k : nat) (e : Z * string) : nat -> event :=
  fun n => mkEvent noon (if Nat.eqb n k then Some e else None).

(** The script in which the engine fails every statement from [k] on. *)
Definition failing_from (k : nat) (e : Z * string) : nat -> event :=
  fun n => mkEvent noon (if Nat.leb k n then Some e else None).

Definition world_of (t : table) (sc : nat -> event) : world :=
  {| tbl := t; txn := None; pool_open := true; script := sc; pc := 0; log := [] |}.

Definition job (jobType pay : string) : Job deps :=
  mkJob deps 0 jobType pay "" StatusPending 0 3 "" "" "" "" "" "" "" false "0s".

Definition email : Job deps := job "email" "{to:x}".

(** A job submitted with the greatest count a Go [int] holds. *)
Definition tireless : Job deps :=
  mkJob deps 0 "email" "{to:x}" "" StatusPending 9223372036854775807 3
        "" "" "" "" "" "" "" false "0s".

(** A stored row in a given status, scheduled at [sched]. *)
Definition stored (i : Z) (st sched lastErr : string) : row :=
  {| id := i; job_type := "email"; payload := "{to:x}"; payload_extra := "";
     status := st; attempts := 0; max_attempts := 3;
     recurrent := 0; interval := "0s";
     created_at := "2025-04-15T11:00:00Z"; updated_at := "2025-04-15T11:00:00Z";
     scheduled_for := sched; locked_by := ""; locked_at := "";
     completed_at := ""; last_error := lastErr |}.

Definition five_pending : table :=
  [stored 1 "pending" "" ""; stored 2 "pending" "" ""; stored 3 "pending" "" "";
   stored 4 "pending" "" ""; stored 5 "pending" "" ""].



(** The clock moves on by a second with every statement. *)
Definition ticking : nat -> event :=
  fun n => mkEvent (mkClock 2025 4 15 12 0 n) None.

(** One job that is due and one that falls due a second after noon. *)
Definition due_soon : table :=
  [stored 1 "pending" "" ""; stored 2 "pending" "2025-04-15T12:00:01Z" ""].

(** The jobs a call of [Claim] returned. *)
Definition claimed (r : world * outcome (slice (Job deps) * option error))
    : list (Job deps) :=
  match snd r with
  | Returns (Some jobs, None) => jobs
  | _ => []
  end.

(** The scenario of the spec: insert a job, claim it, fail it. *)
Definition inserted : world := fst (InsertJob deps plain email (world_of [] quiet)).
Definition first_claim := Claim deps plain 1 inserted.
Definition failed_once : world :=
  fst (MarkFailed plain 1 "smtp down" (fst first_claim)).
Definition second_claim := Claim deps plain 1 failed_once.

End Demo.

(** ** The sentences of the spec that the code does not meet *)

(** "Rejected before reaching storage": the call returns an error, no
    statement was handed to the engine and the table is as before. *)
Definition rejected_before_storage (w : world)
    (r : world * outcome (option error)) : Prop :=
  (exists e, snd r = Returns (Some e))
  /\ log (fst r) = log w /\ tbl (fst r) = tbl w.

(** "Fails with a [DuplicateJobError]": the call returns that value, bare or
    wrapped. *)
Definition fails_with_duplicate_error (r : world * outcome (option error)) : Prop :=
  exists e, snd r = Returns (Some e) /\ errors_Is e ErrConstraintUnique = true.

(** * The other tables of the store *)

(** The second half of [queue.go] keeps the [users] table, [acme.go] the
    [acme_certificates] table and [config.go] the [app_config] table.  None
    of their calls opens a transaction: each is one statement. *)

(** [ORDER BY key DESC LIMIT 1]: a row with the greatest key, the first
    such row of the table when several share it. *)
Fixpoint top_desc {R : Type} (key : R -> string) (l : list R) : option R :=
  match l with
  | [] => None
  | r :: l' =>
      match top_desc key l' with
      | None => Some r
      | Some m => if (key r <? key m)%string then Some m else Some r
      end
  end.

(** A Go [bool] bound to a statement, and an integer column read back as
    one. *)
Definition bind_bool (b : bool) : Z := if b then 1 else 0.
Definition column_bool (z : Z) : bool := negb (z =? 0).

(** The values of one column are pairwise distinct. *)
Fixpoint distinct (l : list string) : bool :=
  match l with
  | [] => true
  | x :: l' => negb (existsb (String.eqb x) l') && distinct l'
  end.

Module UsersTable.

(** One row of [users], with the ten columns the statements name. *)
Record row : Type := mkRow {
  id : string;
  name : string;
  password : string;
  verified : Z;
  oauth2 : Z;
  avatar : string;
  email : string;
  emailVisibility : Z;
  created : string;
  updated : string
}.

Definition table : Type := list row.

(** [WHERE email = ?] and [WHERE id = ?]. *)
Definition has_email (e : string) (r : row) : bool := (email r =? e)%string.
Definition has_id (i : string) (r : row) : bool := (id r =? i)%string.

(** [SELECT ... FROM users WHERE email = ? LIMIT 1], and by [id]. *)
Definition select_by_email (e : string) (t : table) : list row :=
  firstn 1 (filter (has_email e) t).
Definition select_by_id (i : string) (t : table) : list row :=
  firstn 1 (filter (has_id i) t).

(** [ON CONFLICT(email) DO UPDATE SET
      password = IIF(password = '', excluded.password, password),
      updated = strftime(..., 'now')]. *)
Definition keep_password (now : string) (old excluded : row) : row :=
  {| id := id old; name := name old;
     password := if (password old =? "")%string then password excluded
                 else password old;
     verified := verified old; oauth2 := oauth2 old; avatar := avatar old;
     email := email old; emailVisibility := emailVisibility old;
     created := created old;
     updated := now |}.

(** [ON CONFLICT(email) DO UPDATE SET oauth2 = true,
      updated = strftime(..., 'now')]. *)
Definition add_oauth2 (now : string) (old excluded : row) : row :=
  {| id := id old; name := name old; password := password old;
     verified := verified old;
     oauth2 := 1;
     avatar := avatar old; email := email old;
     emailVisibility := emailVisibility old; created := created old;
     updated := now |}.

(** [INSERT ... ON CONFLICT(email) DO UPDATE SET ... RETURNING ...]: where
    a row with the new row's email exists it is rewritten and returned,
    otherwise the new row is added and returned. *)
Definition upsert (on_conflict : row -> row -> row) (new : row) (t : table)
    : table * list row :=
  if existsb (has_email (email new)) t
  then (map (fun r => if has_email (email new) r then on_conflict r new else r) t,
        map (fun r => on_conflict r new) (filter (has_email (email new)) t))
  else ((t ++ [new])%list, [new]).

(** [UPDATE users SET verified = true, updated = ... WHERE id = ?]. *)
Definition set_verified (now : string) (r : row) : row :=
  {| id := id r; name := name r; password := password r;
     verified := 1;
     oauth2 := oauth2 r; avatar := avatar r; email := email r;
     emailVisibility := emailVisibility r; created := created r;
     updated := now |}.

(** [UPDATE users SET password = ?, updated = ... WHERE id = ?]. *)
Definition set_password (now newPassword : string) (r : row) : row :=
  {| id := id r; name := name r;
     password := newPassword;
     verified := verified r; oauth2 := oauth2 r; avatar := avatar r;
     email := email r; emailVisibility := emailVisibility r;
     created := created r;
     updated := now |}.

(** [UPDATE users SET email = ?, updated = ... WHERE id = ?]. *)
Definition set_email (now newEmail : string) (r : row) : row :=
  {| id := id r; name := name r; password := password r;
     verified := verified r; oauth2 := oauth2 r; avatar := avatar r;
     email := newEmail;
     emailVisibility := emailVisibility r; created := created r;
     updated := now |}.

Definition update_where_id (f : row -> row) (i : string) (t : table) : table :=
  map (fun r => if has_id i r then f r else r) t.

(** The uniqueness of [email] that [ON CONFLICT(email)] rests on. *)
Definition emails_distinct (t : table) : bool := distinct (map email t).

Definition err_unique_email : Z * string :=
  (SQLITE_CONSTRAINT_UNIQUE, "UNIQUE constraint failed: users.email").

(** The email update, which the uniqueness of [email] stops when the new
    email is another row's, or when the statement would give it to several
    rows. *)
Definition update_email (now newEmail i : string) (t : table)
    : (Z * string) + table :=
  let others := filter (fun r => negb (has_id i r)) t in
  let clash :=
    match filter (has_id i) t with
    | [] => false
    | [_] => existsb (has_email newEmail) others
    | _ :: _ :: _ => true
    end in
  if clash then inl err_unique_email
  else inr (update_where_id (set_email now newEmail) i t).

End UsersTable.

Module AcmeTable.

(** One row of [acme_certificates]. *)
Record row : Type := mkRow {
  id : Z;
  identifier : string;
  domains : string;
  certificate_chain : string;
  private_key : string;
  issued_at : string;
  expires_at : string;
  last_renewal_attempt_at : string;
  created_at : string;
  updated_at : string
}.

Definition table : Type := list row.

Definition has_identifier (i : string) (r : row) : bool :=
  (identifier r =? i)%string.

(** [ON CONFLICT(identifier) DO UPDATE SET domains = excluded.domains, ...,
      updated_at = strftime(..., 'now')]. *)
Definition replace_cert (now : string) (old excluded : row) : row :=
  {| id := id old; identifier := identifier old;
     domains := domains excluded;
     certificate_chain := certificate_chain excluded;
     private_key := private_key excluded;
     issued_at := issued_at excluded;
     expires_at := expires_at excluded;
     last_renewal_attempt_at := last_renewal_attempt_at old;
     created_at := created_at old;
     updated_at := now |}.

(** [INSERT ... ON CONFLICT(identifier) DO UPDATE SET ...]. *)
Definition upsert (now : string) (new : row) (t : table) : table :=
  if existsb (has_identifier (identifier new)) t
  then map (fun r => if has_identifier (identifier new) r
                     then replace_cert now r new else r) t
  else (t ++ [new])%list.

(** [SELECT ... FROM acme_certificates ORDER BY issued_at DESC LIMIT 1]. *)
Definition select_latest (t : table) : list row :=
  match top_desc issued_at t with
  | Some r => [r]
  | None => []
  end.

Definition identifiers_distinct (t : table) : bool := distinct (map identifier t).

End AcmeTable.

Module ConfigTable.

(** One row of [app_config]; [content] is a BLOB that may be NULL. *)
Record row : Type := mkRow {
  scope : string;
  content : option string;
  format : string;
  description : string;
  created_at : string
}.

Definition table : Type := list row.

Definition has_scope (s : string) (r : row) : bool := (scope r =? s)%string.

(** [SELECT content FROM app_config WHERE scope = ?
      ORDER BY created_at DESC LIMIT 1]. *)
Definition select_latest (s : string) (t : table) : list row :=
  match top_desc created_at (filter (has_scope s) t) with
  | Some r => [r]
  | None => []
  end.

End ConfigTable.

(** What the environment does to one statement on these tables: the clock
    reading and the failure as for the queue, the value the schema's default
    expressions draw for a new row (the default of [users.id] is not a
    function of the table), and the text [db.TimeFormat(time.Now())] yields
    in the Go code just before the statement. *)
Record happening : Type := mkHappening {
  seen : event;
  drawn : string;
  time_Now : string
}.

(** What the statements need from the schemas of the three tables, which
    belong to the host library:
    - the columns an INSERT does not list ([id], [created], [updated] of
      [users]; [id], [last_renewal_attempt_at], [created_at], [updated_at]
      of [acme_certificates]) come from the default rows;
    - the checks give the constraint, other than the uniqueness the
      ON CONFLICT clauses handle, that adding a row violates, if any, and
      [users_recheck] the one an updated row of [users] violates. *)
Record tables_schema : Type := mkTablesSchema {
  users_defaults : happening -> UsersTable.row;
  users_check : UsersTable.table -> UsersTable.row -> option (Z * string);
  users_recheck : UsersTable.row -> option (Z * string);
  certs_defaults : AcmeTable.table -> happening -> AcmeTable.row;
  certs_check : AcmeTable.table -> AcmeTable.row -> option (Z * string);
  config_check : ConfigTable.table -> ConfigTable.row -> option (Z * string)
}.

(** The three tables as the connection sees them, the pool, the
    environment and the number of statements executed so far. *)
Record database : Type := mkDatabase {
  users : UsersTable.table;
  acme_certificates : AcmeTable.table;
  app_config : ConfigTable.table;
  live : bool;
  happenings : nat -> happening;
  executed : nat
}.

Definition upcoming (d : database) : happening := happenings d (executed d).
Definition stamp (d : database) : string := strftime (now (seen (upcoming d))).

Definition ticked (d : database) : database :=
  {| users := users d; acme_certificates := acme_certificates d;
     app_config := app_config d; live := live d;
     happenings := happenings d; executed := Datatypes.S (executed d) |}.

Definition with_users (t : UsersTable.table) (d : database) : database :=
  {| users := t; acme_certificates := acme_certificates d;
     app_config := app_config d; live := live d;
     happenings := happenings d; executed := executed d |}.

Definition with_certs (t : AcmeTable.table) (d : database) : database :=
  {| users := users d; acme_certificates := t;
     app_config := app_config d; live := live d;
     happenings := happenings d; executed := executed d |}.

Definition with_config (t : ConfigTable.table) (d : database) : database :=
  {| users := users d; acme_certificates := acme_certificates d;
     app_config := t; live := live d;
     happenings := happenings d; executed := executed d |}.

(** The engine runs one statement: [run] is what the statement makes of the
    tables, or the constraint it violates.  A statement the engine fails
    has no effect. *)
Definition perform {R : Type}
    (run : database -> (Z * string) + (database * list R)) (d : database)
    : database * (error + list R) :=
  match fault (seen (upcoming d)) with
  | Some e => (ticked d, inl (sqlite_error e))
  | None =>
      match run d with
      | inl e => (ticked d, inl (sqlite_error e))
      | inr (d', rows) => (ticked d', inr rows)
      end
  end.

(** The loop of [sqlitex.Exec] over result rows of any table. *)
Fixpoint each {R A : Type} (resultFn : R -> A -> error + A)
    (rows : list R) (acc : A) : A * option error :=
  match rows with
  | [] => (acc, None)
  | r :: rest =>
      match resultFn r acc with
      | inl e => (acc, Some e)
      | inr acc' => each resultFn rest acc'
      end
  end.

(** [sqlitex.Exec] with a result function, and without. *)
Definition exec_rows {R A : Type}
    (run : database -> (Z * string) + (database * list R))
    (resultFn : R -> A -> error + A) (acc : A) (d : database)
    : database * (A * option error) :=
  let (d', r) := perform run d in
  match r with
  | inl e => (d', (acc, Some e))
  | inr rows => (d', each resultFn rows acc)
  end.

Definition exec_only
    (run : database -> (Z * string) + (database * list unit)) (d : database)
    : database * option error :=
  let (d', r) := perform run d in
  match r with
  | inl e => (d', Some e)
  | inr _ => (d', None)
  end.

(** What the calls need from the SQLite binding: the value [BindBytes]
    stores for a Go byte slice, NULL or a BLOB. *)
Record driver : Type := mkDriver {
  BindBytes : string -> option string
}.

Section Tables.

Variable G : GoDeps.
Variable TS : tables_schema.
Variable D : driver.

(** [db.User]. *)
Record User : Type := mkUser {
  UserID : string;
  Name : string;
  Password : string;
  Verified : bool;
  Oauth2 : bool;
  Avatar : string;
  Email : string;
  EmailVisibility : bool;
  Created : Time G;
  Updated : Time G
}.

(** [newUserFromStmt]. *)
Definition newUserFromStmt (r : UsersTable.row) : error + User :=
  match TimeParse G (UsersTable.created r) with
  | inl e => inl (Wrapped "error parsing created time" e)
  | inr created' =>
  match TimeParse G (UsersTable.updated r) with
  | inl e => inl (Wrapped "error parsing updated time" e)
  | inr updated' =>
      inr {| UserID := UsersTable.id r;
             Name := UsersTable.name r;
             Password := UsersTable.password r;
             Verified := column_bool (UsersTable.verified r);
             Oauth2 := column_bool (UsersTable.oauth2 r);
             Avatar := UsersTable.avatar r;
             Email := UsersTable.email r;
             EmailVisibility := column_bool (UsersTable.emailVisibility r);
             Created := created';
             Updated := updated' |}
  end end.

(** The result function of the four calls that return a user:
    [user, err = newUserFromStmt(stmt)]. *)
Definition user_resultFn (r : UsersTable.row) (user : option User)
    : error + option User :=
  match newUserFromStmt r with
  | inl e => inl e
  | inr u => inr (Some u)
  end.

(** A call that returns a [db.User] pointer and an error, and passes the
    error of [sqlitex.Exec] on as it is. *)
Definition returning_user
    (run : database -> (Z * string) + (database * list UsersTable.row))
    (d : database) : database * outcome (option User * option error) :=
  if live d then
    let '(d1, (user, err)) := exec_rows run user_resultFn None d in
    match err with
    | Some e => (d1, Returns (None, Some e))
    | None => (d1, Returns (user, None))
    end
  else (d, Panics).

Definition GetUserByEmail (email : string) (d : database)
    : database * outcome (option User * option error) :=
  returning_user
    (fun d0 => inr (d0, UsersTable.select_by_email email (users d0))) d.

Definition GetUserById (id' : string) (d : database)
    : database * outcome (option User * option error) :=
  returning_user
    (fun d0 => inr (d0, UsersTable.select_by_id id' (users d0))) d.

(** The row of [INSERT INTO users (name, password, verified, oauth2,
    avatar, email, emailVisibility) VALUES (?, ?, ?, ?, ?, ?, ?)]. *)
Definition user_row (d : database) (name' password' : string) (verified' oauth2' : bool)
    (avatar' email' : string) (emailVisibility' : bool) : UsersTable.row :=
  let dflt := users_defaults TS (upcoming d) in
  {| UsersTable.id := UsersTable.id dflt;
     UsersTable.name := name';
     UsersTable.password := password';
     UsersTable.verified := bind_bool verified';
     UsersTable.oauth2 := bind_bool oauth2';
     UsersTable.avatar := avatar';
     UsersTable.email := email';
     UsersTable.emailVisibility := bind_bool emailVisibility';
     UsersTable.created := UsersTable.created dflt;
     UsersTable.updated := UsersTable.updated dflt |}.

(** The upsert of a user row. *)
Definition upsert_user
    (on_conflict : string -> UsersTable.row -> UsersTable.row -> UsersTable.row)
    (new : database -> UsersTable.row) (d : database)
    : (Z * string) + (database * list UsersTable.row) :=
  match users_check TS (users d) (new d) with
  | Some e => inl e
  | None =>
      let (t', rows) := UsersTable.upsert (on_conflict (stamp d)) (new d) (users d) in
      inr (with_users t' d, rows)
  end.

Definition CreateUserWithPassword (user : User) (d : database)
    : database * outcome (option User * option error) :=
  returning_user
    (upsert_user UsersTable.keep_password
       (fun d0 => user_row d0 (Name user) (Password user) (Verified user) false
                    (Avatar user) (Email user) (EmailVisibility user))) d.

Definition CreateUserWithOauth2 (user : User) (d : database)
    : database * outcome (option User * option error) :=
  returning_user
    (upsert_user UsersTable.add_oauth2
       (fun d0 => user_row d0 (Name user) "" (Verified user) true
                    (Avatar user) (Email user) (EmailVisibility user))) d.

(** A call that returns [error], wrapped under [prefix]. *)
Definition returning_error (prefix : string)
    (run : database -> (Z * string) + (database * list unit))
    (d : database) : database * outcome (option error) :=
  if live d then
    let (d1, err) := exec_only run d in
    match err with
    | Some e => (d1, Returns (Some (Wrapped prefix e)))
    | None => (d1, Returns None)
    end
  else (d, Panics).

Definition VerifyEmail (userId : string) (d : database)
    : database * outcome (option error) :=
  returning_error "failed to verify email"
    (fun d0 =>
       inr (with_users
              (UsersTable.update_where_id (UsersTable.set_verified (stamp d0))
                 userId (users d0)) d0, [])) d.

(** An UPDATE of [users] with a value of the caller's: the schema checks
    the rows it rewrites. *)
Definition checked_rows (userId : string) (t : UsersTable.table) : option (Z * string) :=
  match filter (UsersTable.has_id userId) t with
  | [] => None
  | r :: _ => users_recheck TS r
  end.

Definition UpdatePassword (userId newPassword : string) (d : database)
    : database * outcome (option error) :=
  returning_error "failed to update password"
    (fun d0 =>
       let t' := UsersTable.update_where_id
                   (UsersTable.set_password (stamp d0) newPassword) userId (users d0) in
       match checked_rows userId t' with
       | Some e => inl e
       | None => inr (with_users t' d0, [])
       end) d.

Definition UpdateEmail (userId newEmail : string) (d : database)
    : database * outcome (option error) :=
  returning_error "failed to update email"
    (fun d0 =>
       match UsersTable.update_email (stamp d0) newEmail userId (users d0) with
       | inl e => inl e
       | inr t' =>
           match checked_rows userId t' with
           | Some e => inl e
           | None => inr (with_users t' d0, [])
           end
       end) d.

(** [db.AcmeCert]. *)
Record AcmeCert : Type := mkAcmeCert {
  CertID : Z;
  Identifier : string;
  Domains : string;
  CertificateChain : string;
  PrivateKey : string;
  IssuedAt : Time G;
  ExpiresAt : Time G;
  LastRenewalAttemptAt : Time G;
  CertCreatedAt : Time G;
  CertUpdatedAt : Time G
}.

(** The body of the result function of [Get]. *)
Definition scan_cert (r : AcmeTable.row) : error + AcmeCert :=
  match TimeParse G (AcmeTable.issued_at r) with
  | inl e => inl (Wrapped "acme: error parsing issued_at" e)
  | inr issuedAt =>
  match TimeParse G (AcmeTable.expires_at r) with
  | inl e => inl (Wrapped "acme: error parsing expires_at" e)
  | inr expiresAt =>
  match TimeParse G (AcmeTable.last_renewal_attempt_at r) with
  | inl e => inl (Wrapped "acme: error parsing last_renewal_attempt_at" e)
  | inr lastRenewalAttemptAt =>
  match TimeParse G (AcmeTable.created_at r) with
  | inl e => inl (Wrapped "acme: error parsing created_at" e)
  | inr createdAt =>
  match TimeParse G (AcmeTable.updated_at r) with
  | inl e => inl (Wrapped "acme: error parsing updated_at" e)
  | inr updatedAt =>
      inr {| CertID := AcmeTable.id r;
             Identifier := AcmeTable.identifier r;
             Domains := AcmeTable.domains r;
             CertificateChain := AcmeTable.certificate_chain r;
             PrivateKey := AcmeTable.private_key r;
             IssuedAt := issuedAt;
             ExpiresAt := expiresAt;
             LastRenewalAttemptAt := lastRenewalAttemptAt;
             CertCreatedAt := createdAt;
             CertUpdatedAt := updatedAt |}
  end end end end end.

Definition cert_resultFn (r : AcmeTable.row) (cert : option AcmeCert)
    : error + option AcmeCert :=
  match scan_cert r with
  | inl e => inl e
  | inr c => inr (Some c)
  end.

Definition Get (d : database) : database * outcome (option AcmeCert * option error) :=
  if live d then
    let '(d1, (cert, err)) :=
      exec_rows (fun d0 => inr (d0, AcmeTable.select_latest (acme_certificates d0)))
        cert_resultFn None d in
    match err with
    | Some e => (d1, Returns (None, Some (Wrapped "acme: failed to get cert" e)))
    | None =>
        match cert with
        | None => (d1, Returns (None, Some (ErrorString "acme: no certificate found")))
        | Some _ => (d1, Returns (cert, None))
        end
    end
  else (d, Panics).

(** The row of [INSERT INTO acme_certificates (identifier, domains,
    certificate_chain, private_key, issued_at, expires_at) VALUES (...)]. *)
Definition cert_row (d : database) (cert : AcmeCert) : AcmeTable.row :=
  let dflt := certs_defaults TS (acme_certificates d) (upcoming d) in
  {| AcmeTable.id := AcmeTable.id dflt;
     AcmeTable.identifier := Identifier cert;
     AcmeTable.domains := Domains cert;
     AcmeTable.certificate_chain := CertificateChain cert;
     AcmeTable.private_key := PrivateKey cert;
     AcmeTable.issued_at := TimeFormat G (IssuedAt cert);
     AcmeTable.expires_at := TimeFormat G (ExpiresAt cert);
     AcmeTable.last_renewal_attempt_at := AcmeTable.last_renewal_attempt_at dflt;
     AcmeTable.created_at := AcmeTable.created_at dflt;
     AcmeTable.updated_at := AcmeTable.updated_at dflt |}.

Definition Save (cert : AcmeCert) (d : database) : database * outcome (option error) :=
  returning_error
    ("acme: failed to save certificate for identifier " ++ Identifier cert)
    (fun d0 =>
       match certs_check TS (acme_certificates d0) (cert_row d0 cert) with
       | Some e => inl e
       | None =>
           inr (with_certs
                  (AcmeTable.upsert (stamp d0) (cert_row d0 cert) (acme_certificates d0))
                  d0, [])
       end) d.

(** The result function of [LatestConfig]: a column that is not NULL is
    read in full. *)
Definition content_resultFn (r : ConfigTable.row) (contentData : option string)
    : error + option string :=
  match ConfigTable.content r with
  | Some bytes => inr (Some bytes)
  | None => inr contentData
  end.

(** [LatestConfig] returns the pair [([]byte, error)]; a nil slice is
    [None]. *)
Definition LatestConfig (scope : string) (d : database)
    : database * (option string * option error) :=
  if negb (live d) then
    (d, (None, Some (ErrorString
       ("failed to get db connection for scope '" ++ scope ++ "': connection is nil"))))
  else
    let '(d1, (contentData, err)) :=
      exec_rows (fun d0 => inr (d0, ConfigTable.select_latest scope (app_config d0)))
        content_resultFn None d in
    match err with
    | Some e =>
        (d1, (None, Some (Wrapped
           ("failed to get latest config content for scope '" ++ scope ++ "'") e)))
    | None => (d1, (contentData, None))
    end.

(** The row of [INSERT INTO app_config (scope, content, format,
    description, created_at) VALUES (?, ?, ?, ?, ?)], with
    [now := db.TimeFormat(time.Now())]. *)
Definition config_row (d : database) (scope contentData format description : string)
    : ConfigTable.row :=
  {| ConfigTable.scope := scope;
     ConfigTable.content := BindBytes D contentData;
     ConfigTable.format := format;
     ConfigTable.description := description;
     ConfigTable.created_at := time_Now (upcoming d) |}.

Definition InsertConfig (scope contentData format description : string) (d : database)
    : database * option error :=
  if negb (live d) then
    (d, Some (ErrorString
       "failed to get db connection for config insert: connection is nil"))
  else
    let (d1, err) :=
      exec_only
        (fun d0 =>
           let r := config_row d0 scope contentData format description in
           match config_check TS (app_config d0) r with
           | Some e => inl e
           | None => inr (with_config (app_config d0 ++ [r])%list d0, [])
           end) d in
    match err with
    | Some e =>
        (d1, Some (Wrapped ("failed to insert config for scope '" ++ scope ++ "'") e))
    | None => (d1, None)
    end.

End Tables.

Arguments UserID {G} u.
Arguments Name {G} u.
Arguments Password {G} u.
Arguments Verified {G} u.
Arguments Oauth2 {G} u.
Arguments Avatar {G} u.
Arguments Email {G} u.
Arguments EmailVisibility {G} u.
Arguments Created {G} u.
Arguments Updated {G} u.
Arguments CertID {G} a.
Arguments Identifier {G} a.
Arguments Domains {G} a.
Arguments CertificateChain {G} a.
Arguments PrivateKey {G} a.
Arguments IssuedAt {G} a.
Arguments ExpiresAt {G} a.
Arguments LastRenewalAttemptAt {G} a.
Arguments CertCreatedAt {G} a.
Arguments CertUpdatedAt {G} a.

(** What the result function of [LatestConfig] leaves in [contentData]
    for a table: the content of the row the statement selects. *)
Definition latest_content (s : string) (t : ConfigTable.table) : option string :=
  match ConfigTable.select_latest s t with
  | [r] => ConfigTable.content r
  | _ => None
  end.

(** ** Sequences of calls *)

(** The calls of a worker loop, one after the other. *)
Fixpoint run_ops (G : GoDeps) (S : schema) (os : list (op G)) (w : world) : world :=
  match os with
  | [] => w
  | o :: os' => run_ops G S os' (run_op G S o w)
  end.

(** ** Instances for the other tables *)

Module DemoTables.

(** A schema without constraints: the environment draws the [id] of a new
    user, a new certificate takes the next number, and the time columns
    default to the time of the statement. *)
Definition open_schema : tables_schema :=
  {| users_defaults := fun h =>
       UsersTable.mkRow (drawn h) "" "" 0 0 "" "" 0
         (strftime (now (seen h))) (strftime (now (seen h)));
     users_check := fun _ _ => None;
     users_recheck := fun _ => None;
     certs_defaults := fun t h =>
       AcmeTable.mkRow (Z.of_nat (List.length t) + 1) "" "" "" "" "" "" ""
         (strftime (now (seen h))) (strftime (now (seen h)));
     certs_check := fun _ _ => None;
     config_check := fun _ _ => None |}.

(** A binding that stores every byte slice as a BLOB. *)
Definition blobs : driver := {| BindBytes := fun b => Some b |}.

(** Statement [n] runs [n] seconds after noon and draws the id [u-n]. *)
Definition calm : nat -> happening :=
  fun n => {| seen := mkEvent (mkClock 2025 4 15 12 0 n) None;
              drawn := "u-" ++ pad2 n;
              time_Now := strftime (mkClock 2025 4 15 12 0 n) |}.

Definition db_of (u : UsersTable.table) (c : AcmeTable.table) (g : ConfigTable.table)
    : database :=
  {| users := u; acme_certificates := c; app_config := g;
     live := true; happenings := calm; executed := 0 |}.

(** The same times and ids, with the engine failing statement [k]. *)
Definition failing_at (k : nat) (e : Z * string) : nat -> happening :=
  fun n => {| seen := mkEvent (mkClock 2025 4 15 12 0 n)
                              (if Nat.eqb n k then Some e else None);
              drawn := drawn (calm n);
              time_Now := time_Now (calm n) |}.

Definition under (h : nat -> happening) (d : database) : database :=
  {| users := users d; acme_certificates := acme_certificates d;
     app_config := app_config d; live := live d;
     happenings := h; executed := executed d |}.

(** A user with a password and a user registered through OAuth2. *)
Definition alice : UsersTable.row :=
  UsersTable.mkRow "u-a" "Alice" "hash-a" 0 0 "" "alice@example.org" 0
    "2025-04-01T08:00:00Z" "2025-04-01T08:00:00Z".

Definition bob : UsersTable.row :=
  UsersTable.mkRow "u-b" "Bob" "" 1 1 "bob.png" "bob@example.org" 0
    "2025-04-02T08:00:00Z" "2025-04-02T08:00:00Z".

Definition two_users : UsersTable.table := [alice; bob].

Definition person (name' password' email' : string) : User Demo.deps :=
  mkUser Demo.deps "" name' password' false false "" email' false "" "".

Definition carol : User Demo.deps := person "Carol" "hash-c" "carol@example.org".
Definition carol_oauth2 : User Demo.deps := person "Carol O." "" "carol@example.org".
Definition alice_again : User Demo.deps := person "A." "hash-other" "alice@example.org".

(** The user a call returned. *)
Definition returned_user
    (r : database * outcome (option (User Demo.deps) * option error))
    : User Demo.deps :=
  match snd r with
  | Returns (Some u, _) => u
  | _ => person "" "" ""
  end.

(** Two certificates, the second issued later. *)
Definition site : AcmeTable.row :=
  AcmeTable.mkRow 1 "example.org" "example.org,www.example.org" "chain-1" "key-1"
    "2025-01-10T00:00:00Z" "2025-04-10T00:00:00Z" "2025-04-08T00:00:00Z"
    "2025-01-10T00:00:01Z" "2025-01-10T00:00:01Z".

Definition mail : AcmeTable.row :=
  AcmeTable.mkRow 2 "mail.example.org" "mail.example.org" "chain-m" "key-m"
    "2025-02-01T00:00:00Z" "2025-05-01T00:00:00Z" ""
    "2025-02-01T00:00:01Z" "2025-02-01T00:00:01Z".

Definition two_certs : AcmeTable.table := [site; mail].

(** The renewal of the first certificate. *)
Definition renewed : AcmeCert Demo.deps :=
  mkAcmeCert Demo.deps 0 "example.org" "example.org" "chain-2" "key-2"
    "2025-04-09T00:00:00Z" "2025-07-08T00:00:00Z" "" "" "".

(** The certificate a call returned. *)
Definition returned_cert
    (r : database * outcome (option (AcmeCert Demo.deps) * option error))
    : AcmeCert Demo.deps :=
  match snd r with
  | Returns (Some c, _) => c
  | _ => mkAcmeCert Demo.deps 0 "" "" "" "" "" "" "" "" ""
  end.

(** Two versions of one scope, one version of another, and a row dated in
    2099. *)
Definition app_v1 : ConfigTable.row :=
  ConfigTable.mkRow "application" (Some "a = 1") "toml" "first" "2025-04-01T00:00:00Z".
Definition app_v2 : ConfigTable.row :=
  ConfigTable.mkRow "application" (Some "a = 2") "toml" "second" "2025-04-10T00:00:00Z".
Definition log_v1 : ConfigTable.row :=
  ConfigTable.mkRow "logging" (Some "level = info") "toml" "" "2025-04-05T00:00:00Z".
Definition far_off : ConfigTable.row :=
  ConfigTable.mkRow "application" (Some "a = 9") "toml" "" "2099-01-01T00:00:00Z".

Definition configs : ConfigTable.table := [app_v1; log_v1; app_v2].

End DemoTables.

(** * Properties *)

(** ** Lists of ids *)

Lemma ascending_from_Forall (lo : Z) (l : list Z) :
  ascending_from lo l = true -> Forall (fun x => lo < x) l.
Proof.
  revert lo; induction l as [|x l IH]; intros lo H; simpl in H.
  - constructor.
  - apply andb_true_iff in H as [Hlo Hl]. apply Z.ltb_lt in Hlo.
    constructor; [assumption|].
    eapply Forall_impl; [|apply IH, Hl]. simpl; intros; lia.
Qed.

Lemma ascending_from_weaken (lo lo' : Z) (l : list Z) :
  lo' <= lo -> ascending_from lo l = true -> ascending_from lo' l = true.
Proof.
  destruct l as [|x l]; simpl; [reflexivity|].
  intros Hle H. apply andb_true_iff in H as [Hlo Hl].
  apply Z.ltb_lt in Hlo. apply andb_true_iff; split; [apply Z.ltb_lt; lia|assumption].
Qed.

Lemma ascending_from_tail (lo x : Z) (l : list Z) :
  ascending_from lo (x :: l) = true -> lo < x /\ ascending_from lo l = true.
Proof.
  simpl; intros H. apply andb_true_iff in H as [Hlo Hl]. apply Z.ltb_lt in Hlo.
  split; [assumption|]. eapply ascending_from_weaken; [|exact Hl]. lia.
Qed.

Lemma ascending_from_filter (P : row -> bool) (lo : Z) (t : table) :
  ascending_from lo (map id t) = true ->
  ascending_from lo (map id (filter P t)) = true.
Proof.
  revert lo; induction t as [|r t IH]; intros lo H; [reflexivity|].
  simpl in *. apply andb_true_iff in H as [Hlo Hl].
  destruct (P r); simpl.
  - rewrite Hlo. apply IH, Hl.
  - apply IH. eapply ascending_from_weaken; [|exact Hl].
    apply Z.ltb_lt in Hlo; lia.
Qed.

Lemma ascending_from_app (lo m : Z) (l : list Z) :
  ascending_from lo l = true -> lo < m -> Forall (fun x => x < m) l ->
  ascending_from lo (l ++ [m]) = true.
Proof.
  revert lo; induction l as [|x l IH]; intros lo H Hm Hall; simpl in *.
  - apply andb_true_iff; split; [apply Z.ltb_lt; lia|reflexivity].
  - apply andb_true_iff in H as [Hlo Hl]. rewrite Hlo; simpl.
    inversion Hall; subst. apply IH; assumption.
Qed.

Lemma insert_asc_head (x : Z) (l : list Z) :
  ascending_from x l = true -> insert_asc x l = x :: l.
Proof.
  destruct l as [|y l]; simpl; [reflexivity|].
  intros H. apply andb_true_iff in H as [Hxy _]. apply Z.ltb_lt in Hxy.
  destruct (x <=? y) eqn:E; [reflexivity|]. apply Z.leb_gt in E; lia.
Qed.

Lemma order_by_asc_ascending (lo : Z) (l : list Z) :
  ascending_from lo l = true -> order_by_asc l = l.
Proof.
  revert lo; induction l as [|x l IH]; intros lo H; [reflexivity|].
  simpl in *. apply andb_true_iff in H as [_ Hl].
  rewrite (IH x Hl). apply insert_asc_head, Hl.
Qed.

Lemma In_insert_asc (x y : Z) (l : list Z) :
  In y (insert_asc x l) <-> y = x \/ In y l.
Proof.
  induction l as [|z l IH]; simpl.
  - intuition.
  - destruct (x <=? z); simpl; [intuition|]. rewrite IH. intuition.
Qed.

Lemma In_order_by_asc (y : Z) (l : list Z) :
  In y (order_by_asc l) <-> In y l.
Proof.
  induction l as [|x l IH]; simpl; [tauto|].
  rewrite In_insert_asc, IH. intuition.
Qed.

Lemma In_sql_limit {A : Type} (limit : Z) (x : A) (l : list A) :
  In x (sql_limit limit l) -> In x l.
Proof.
  unfold sql_limit. destruct (limit <? 0); [tauto|].
  revert l; induction (Z.to_nat limit) as [|n IH]; intros [|y l]; simpl; try tauto.
  intros [->|H]; [now left|right; apply IH, H].
Qed.

Lemma sql_limit_map {A B : Type} (f : A -> B) (limit : Z) (l : list A) :
  sql_limit limit (map f l) = map f (sql_limit limit l).
Proof.
  unfold sql_limit. destruct (limit <? 0); [reflexivity|apply firstn_map].
Qed.

Lemma sql_limit_length {A : Type} (limit : Z) (l : list A) :
  0 <= limit ->
  Z.of_nat (List.length (sql_limit limit l)) = Z.min (Z.of_nat (List.length l)) limit.
Proof.
  intros H. unfold sql_limit.
  destruct (limit <? 0) eqn:E; [apply Z.ltb_lt in E; lia|].
  rewrite length_firstn. lia.
Qed.

Lemma sql_limit_negative {A : Type} (limit : Z) (l : list A) :
  limit < 0 -> sql_limit limit l = l.
Proof.
  intros H. unfold sql_limit. apply Z.ltb_lt in H. now rewrite H.
Qed.

Lemma id_in_In (ids : list Z) (r : row) :
  id_in ids r = true <-> In (id r) ids.
Proof.
  unfold id_in. rewrite existsb_exists. split.
  - intros [x [Hin Heq]]. apply Z.eqb_eq in Heq. now subst.
  - intros H. exists (id r). split; [assumption|apply Z.eqb_refl].
Qed.

Lemma id_in_cons_other (i : Z) (ids : list Z) (r : row) :
  id r <> i -> id_in (i :: ids) r = id_in ids r.
Proof.
  intros H. unfold id_in; simpl.
  destruct (id r =? i) eqn:E; [apply Z.eqb_eq in E; contradiction|reflexivity].
Qed.

Lemma In_firstn {A : Type} (n : nat) (x : A) (l : list A) :
  In x (firstn n l) -> In x l.
Proof.
  revert l; induction n as [|n IH]; intros [|y l]; simpl; try tauto.
  intros [->|H]; [now left|right; apply IH, H].
Qed.

Lemma filter_id_in_nil (t : table) : filter (id_in []) t = [].
Proof. induction t as [|r t IH]; [reflexivity|exact IH]. Qed.

(** ** The claim statement on a well-formed table *)

Section ClaimStatement.

Variable P : row -> bool.
Variable c : row -> row.
Hypothesis c_not_P : forall r, P (c r) = false.

Lemma prefix_ids_above (n : nat) (lo : Z) (t : table) :
  ascending_from lo (map id t) = true ->
  Forall (fun x => lo < x) (map id (firstn n (filter P t))).
Proof.
  intros H. apply Forall_forall. intros x Hx.
  apply in_map_iff in Hx as [r [<- Hr]]. apply In_firstn in Hr.
  apply (ascending_from_filter P) in H. apply ascending_from_Forall in H.
  rewrite Forall_forall in H. apply H, in_map, Hr.
Qed.

Lemma not_in_prefix (n : nat) (r : row) (t : table) :
  ascending_from (id r) (map id t) = true ->
  id_in (map id (firstn n (filter P t))) r = false.
Proof.
  intros H. destruct (id_in _ r) eqn:E; [|reflexivity].
  apply id_in_In in E. pose proof (prefix_ids_above n _ _ H) as Hall.
  rewrite Forall_forall in Hall. apply Hall in E. lia.
Qed.

Lemma other_ids (lo : Z) (t : table) (r : row) :
  ascending_from lo (map id t) = true -> In r t -> lo <> id r.
Proof.
  intros H Hr. apply ascending_from_Forall in H. rewrite Forall_forall in H.
  specialize (H (id r) (in_map id _ _ Hr)). lia.
Qed.

(** The rows whose id the subquery selected are the selected rows. *)
Lemma filter_id_in_prefix (n : nat) (lo : Z) (t : table) :
  ascending_from lo (map id t) = true ->
  filter (id_in (map id (firstn n (filter P t)))) t = firstn n (filter P t).
Proof.
  revert n lo; induction t as [|r t IH]; intros n lo H.
  - simpl. now rewrite firstn_nil.
  - simpl in H. apply andb_true_iff in H as [_ Ht].
    cbn [filter]. destruct (P r) eqn:HP.
    + destruct n as [|n]; cbn [firstn map].
      * apply (filter_id_in_nil (r :: t)).
      * cbn [filter]. assert (E : id_in (id r :: map id (firstn n (filter P t))) r = true).
        { apply id_in_In. now left. }
        rewrite E. f_equal. etransitivity; [|apply (IH n (id r) Ht)].
        apply filter_ext_in. intros x Hx. apply id_in_cons_other.
        intros Heq. apply (other_ids _ _ _ Ht Hx). congruence.
    + cbn [filter]. rewrite (not_in_prefix n r t Ht). apply (IH n (id r) Ht).
Qed.

(** After the selected rows were rewritten by [c], the rows that still
    satisfy [P] are the ones the limit left out. *)
Lemma filter_after_update (n : nat) (lo : Z) (t : table) :
  ascending_from lo (map id t) = true ->
  filter P (map (fun r => if id_in (map id (firstn n (filter P t))) r then c r else r) t)
  = skipn n (filter P t).
Proof.
  revert n lo; induction t as [|r t IH]; intros n lo H.
  - simpl. now rewrite skipn_nil.
  - simpl in H. apply andb_true_iff in H as [_ Ht].
    cbn [filter map]. destruct (P r) eqn:HP.
    + destruct n as [|n]; cbn [firstn map skipn].
      * cbn [id_in existsb]. rewrite HP. f_equal.
        exact (IH 0%nat (id r) Ht).
      * assert (E : id_in (id r :: map id (firstn n (filter P t))) r = true).
        { apply id_in_In. now left. }
        rewrite E, c_not_P. etransitivity; [|apply (IH n (id r) Ht)]. f_equal.
        apply map_ext_in. intros x Hx. rewrite id_in_cons_other; [reflexivity|].
        intros Heq. apply (other_ids _ _ _ Ht Hx). congruence.
    + rewrite (not_in_prefix n r t Ht), HP. apply (IH n (id r) Ht).
Qed.

End ClaimStatement.

Lemma wf_table_ascending (t : table) :
  wf_table t -> exists lo, ascending_from lo (map id t) = true.
Proof.
  destruct t as [|r t]; intros H.
  - now exists 0.
  - exists (id r - 1). unfold wf_table in H; simpl in *.
    apply andb_true_iff; split; [apply Z.ltb_lt; lia|exact H].
Qed.

Lemma ascending_wf_table (lo : Z) (t : table) :
  ascending_from lo (map id t) = true -> wf_table t.
Proof.
  destruct t as [|r t]; [reflexivity|].
  unfold wf_table; simpl. intros H. now apply andb_true_iff in H as [_ H].
Qed.

(** Rows of a well-formed table are identified by their [id]. *)
Lemma wf_table_id_inj (t : table) (r r' : row) :
  wf_table t -> In r t -> In r' t -> id r = id r' -> r = r'.
Proof.
  intros Hwf. apply wf_table_ascending in Hwf as [lo H].
  revert lo H; induction t as [|x t IH]; intros lo H [] Hr' Heq.
  - subst x. destruct Hr' as [|Hr']; [assumption|].
    simpl in H. apply andb_true_iff in H as [_ H].
    exfalso. apply (other_ids _ _ _ H Hr'). assumption.
  - destruct Hr' as [->|Hr'].
    + simpl in H. apply andb_true_iff in H as [_ H].
      exfalso. apply (other_ids _ _ _ H H0). congruence.
    + simpl in H. apply andb_true_iff in H as [_ H]. exact (IH _ H H0 Hr' Heq).
Qed.

Lemma sql_limit_firstn {A : Type} (limit : Z) (l : list A) :
  sql_limit limit l = firstn (limit_count limit l) l.
Proof.
  unfold sql_limit, limit_count. destruct (limit <? 0); [|reflexivity].
  symmetry; apply firstn_all.
Qed.

Lemma eligible_set_claimed (now now' : string) (r : row) :
  eligible now' (set_claimed now r) = false.
Proof. reflexivity. Qed.

Lemma select_claimable_wf (now : string) (limit : Z) (t : table) :
  wf_table t ->
  select_claimable now limit t = map id (sql_limit limit (eligible_rows now t)).
Proof.
  intros Hwf. apply wf_table_ascending in Hwf as [lo H].
  unfold select_claimable, eligible_rows.
  rewrite (order_by_asc_ascending lo), sql_limit_map; [reflexivity|].
  apply ascending_from_filter, H.
Qed.

(** On a well-formed table the claim statement rewrites and returns the
    first [limit] eligible rows, in ascending order of [id]. *)
Lemma update_claim_wf (now : string) (limit : Z) (t : table) :
  wf_table t ->
  update_claim now limit t =
    (map (fun r => if id_in (map id (sql_limit limit (eligible_rows now t))) r
                   then set_claimed now r else r) t,
     map (set_claimed now) (sql_limit limit (eligible_rows now t))).
Proof.
  intros Hwf. unfold update_claim. rewrite (select_claimable_wf now limit t Hwf).
  f_equal. f_equal. apply wf_table_ascending in Hwf as [lo H].
  rewrite sql_limit_firstn. apply (filter_id_in_prefix _ _ lo), H.
Qed.

Lemma update_claim_ids (now : string) (limit : Z) (t : table) :
  map id (fst (update_claim now limit t)) = map id t.
Proof.
  unfold update_claim; simpl. rewrite map_map. apply map_ext.
  intros r. now destruct (id_in _ r).
Qed.

Lemma update_where_id_ids (f : row -> row) (jobID : Z) (t : table) :
  (forall r, id (f r) = id r) ->
  map id (update_where_id f jobID t) = map id t.
Proof.
  intros Hf. unfold update_where_id. rewrite map_map. apply map_ext.
  intros r. destruct (id r =? jobID); [apply Hf|reflexivity].
Qed.

(** The rows still eligible, at the same clock reading, after a claim. *)
Lemma eligible_after_claim (now : string) (limit : Z) (t : table) :
  wf_table t ->
  eligible_rows now (fst (update_claim now limit t))
  = skipn (limit_count limit (eligible_rows now t)) (eligible_rows now t).
Proof.
  intros Hwf. rewrite (update_claim_wf now limit t Hwf). cbn [fst].
  apply wf_table_ascending in Hwf as [lo H].
  rewrite sql_limit_firstn. unfold eligible_rows.
  apply (filter_after_update (eligible now) (set_claimed now)
           (eligible_set_claimed now now) _ lo), H.
Qed.

(** ** From result rows to jobs *)

Section Scanning.

Variable G : GoDeps.

(** The columns [scan_job] copies without parsing. *)
Lemma scan_job_fields (r : row) (j : Job G) :
  scan_job G r = inr j ->
  ID j = id r /\ JobType j = job_type r /\ Payload j = payload r /\
  PayloadExtra j = payload_extra r /\ Status j = status r /\
  Attempts j = column_int64 (attempts r) /\
  MaxAttempts j = column_int64 (max_attempts r) /\
  LockedBy j = locked_by r /\ LastError j = last_error r.
Proof.
  unfold scan_job, parse_unless_empty. intros H.
  repeat match type of H with
         | context [match ?x with _ => _ end] => destruct x; try discriminate
         end;
  inversion H; subst; cbn -[column_int64]; repeat split; reflexivity.
Qed.

(** A count of 64 bits is read as it is. *)
Lemma column_int64_exact (z : Z) : go_int z -> column_int64 z = z.
Proof. unfold go_int, column_int64. lia. Qed.

(** What is read is a 64-bit integer. *)
Lemma column_int64_range (z : Z) : go_int (column_int64 z).
Proof. unfold go_int, column_int64, int64_min, int64_max. lia. Qed.

(** A reading strictly inside the range is the stored value. *)
Lemma column_int64_inside (z : Z) :
  int64_min < column_int64 z < int64_max -> column_int64 z = z.
Proof. unfold column_int64. lia. Qed.

Lemma each_row_claim (rows : list row) (acc acc' : slice (Job G)) :
  each_row (claim_resultFn G) rows acc = (acc', None) ->
  exists jobs, Forall2 scanned rows jobs /\ elems acc' = (elems acc ++ jobs)%list.
Proof.
  revert acc; induction rows as [|r rows IH]; intros acc H; simpl in H.
  - inversion H; subst. exists []. split; [constructor|now rewrite app_nil_r].
  - unfold claim_resultFn in H at 1. destruct (scan_job G r) as [e|j] eqn:E; [discriminate|].
    apply IH in H as [jobs [HF Hel]]. exists (j :: jobs). split.
    + constructor; assumption.
    + rewrite Hel. destruct acc; simpl; [now rewrite <- app_assoc|reflexivity].
Qed.

Lemma each_row_claim_total (rows : list row) (jobs : list (Job G)) (acc : slice (Job G)) :
  Forall2 scanned rows jobs ->
  exists acc', each_row (claim_resultFn G) rows acc = (acc', None)
               /\ elems acc' = (elems acc ++ jobs)%list.
Proof.
  intros HF; revert acc; induction HF as [|r j rows jobs Hrj HF IH]; intros acc; simpl.
  - exists acc. split; [reflexivity|now rewrite app_nil_r].
  - unfold claim_resultFn at 1. rewrite Hrj.
    destruct (IH (append acc j)) as [acc' [H1 H2]]. exists acc'. split; [exact H1|].
    rewrite H2. destruct acc; simpl; [now rewrite <- app_assoc|reflexivity].
Qed.

Lemma Forall2_scanned_ids (rows : list row) (jobs : list (Job G)) :
  Forall2 scanned rows jobs -> map ID jobs = map id rows.
Proof.
  induction 1 as [|r j rows jobs Hrj _ IH]; [reflexivity|].
  simpl. apply scan_job_fields in Hrj as [-> _]. now rewrite IH.
Qed.

Lemma Forall2_scanned_In (rows : list row) (jobs : list (Job G)) (j : Job G) :
  Forall2 scanned rows jobs -> In j jobs -> exists r, In r rows /\ scanned r j.
Proof.
  induction 1 as [|r j' rows jobs Hrj _ IH]; intros Hin; [contradiction|].
  destruct Hin as [->|Hin].
  - exists r. split; [now left|assumption].
  - destruct (IH Hin) as [r' [H1 H2]]. exists r'. split; [now right|assumption].
Qed.

Variable S : schema.

(** What a successful [Claim] did: the engine ran the claim statement at the
    clock reading of [w], and every returned row was scanned into a job. *)
Lemma Claim_returns (limit : Z) (w w' : world) (jobs : list (Job G)) :
  Claim G S limit w = (w', Returns (Some jobs, None)) ->
  pool_open w = true /\ fault (next_event w) = None /\
  tbl w' = fst (update_claim (now_text w) limit (tbl w)) /\
  Forall2 scanned (snd (update_claim (now_text w) limit (tbl w))) jobs /\
  txn w' = txn w /\ script w' = script w /\ pc w' = Datatypes.S (pc w) /\
  pool_open w' = true.
Proof.
  unfold Claim, ExecRows, engine_step. intros H.
  destruct (pool_open w) eqn:Hp; [|discriminate].
  destruct (fault (next_event w)) eqn:Hf; [discriminate|].
  cbn [run_dml] in H.
  destruct (update_claim (now_text w) limit (tbl w)) as [t' rows] eqn:Hu.
  destruct (each_row (claim_resultFn G) rows None) as [acc err] eqn:He.
  destruct err as [e|]; [discriminate|].
  apply each_row_claim in He as [jobs' [HF Hel]]. simpl in Hel.
  assert (Hj : jobs' = jobs /\ w' = with_tbl t' (submitted (UpdateClaim limit) w)).
  { destruct acc as [l|]; simpl in Hel; inversion H; subst; auto. }
  destruct Hj as [-> ->]. cbn. repeat split; try reflexivity; assumption.
Qed.

(** [Claim] does return when the engine lets the statement through and the
    returned rows parse. *)
Lemma Claim_total (limit : Z) (w : world) (jobs : list (Job G)) :
  pool_open w = true -> fault (next_event w) = None ->
  Forall2 scanned (snd (update_claim (now_text w) limit (tbl w))) jobs ->
  exists w', Claim G S limit w = (w', Returns (Some jobs, None)).
Proof.
  intros Hp Hf HF. unfold Claim, ExecRows, engine_step. rewrite Hp, Hf.
  cbn [run_dml].
  destruct (update_claim (now_text w) limit (tbl w)) as [t' rows] eqn:Hu.
  cbn [snd] in HF.
  destruct (each_row_claim_total rows jobs None HF) as [acc' [H1 H2]].
  rewrite H1. simpl in H2. eexists.
  destruct acc' as [l|]; simpl in H2; subst; reflexivity.
Qed.

End Scanning.

(** ** Text comparison and timestamps *)

Lemma leb_not_ltb (a b : string) :
  (a <=? b)%string = true -> (b <? a)%string = false.
Proof.
  unfold String.leb, String.ltb. rewrite (String.compare_antisym b a).
  destruct (String.compare a b); simpl; congruence.
Qed.

Lemma leb_empty (s : string) : ("" <=? s)%string = true.
Proof. destruct s; reflexivity. Qed.

Lemma strftime_nonempty (c : clock) : strftime c <> "".
Proof. unfold strftime, pad4. simpl. discriminate. Qed.

(** *** The text order of timestamps is their chronological order *)









Lemma eligible_iff (now : string) (r : row) :
  eligible now r = true <->
  (status r = StatusPending \/ status r = StatusFailed) /\
  (scheduled_for r <=? now)%string = true.
Proof.
  unfold eligible. rewrite andb_true_iff, orb_true_iff, !String.eqb_eq. tauto.
Qed.

Lemma ascending_from_firstn (n : nat) (lo : Z) (l : list Z) :
  ascending_from lo l = true -> ascending_from lo (firstn n l) = true.
Proof.
  revert lo l; induction n as [|n IH]; intros lo [|x l] H; try reflexivity.
  simpl in *. apply andb_true_iff in H as [Hlo Hl]. rewrite Hlo. apply IH, Hl.
Qed.

Lemma ascending_from_strictly (lo : Z) (l : list Z) :
  ascending_from lo l = true -> strictly_ascending l = true.
Proof.
  destruct l as [|x l]; [reflexivity|]. simpl. intros H.
  now apply andb_true_iff in H as [_ H].
Qed.

(** ** Claim *)

Section ClaimProperties.

Variable G : GoDeps.
Variable S : schema.

(** Every returned job comes from a row of the table that the claim
    statement rewrote. *)
Lemma Claim_job_source (limit : Z) (w w' : world) (jobs : list (Job G)) (j : Job G) :
  Claim G S limit w = (w', Returns (Some jobs, None)) ->
  In j jobs ->
  exists r, In r (tbl w) /\ scanned (set_claimed (now_text w) r) j
            /\ In (set_claimed (now_text w) r) (tbl w').
Proof.
  intros H Hj. apply Claim_returns in H as (_ & _ & Ht & HF & _).
  destruct (Forall2_scanned_In G _ _ j HF Hj) as [rr [Hrr Hs]].
  unfold update_claim in Hrr, Ht. cbn [fst snd] in Hrr, Ht.
  apply in_map_iff in Hrr as [r [<- Hr]]. apply filter_In in Hr as [Hr Hin].
  exists r. repeat split; try assumption.
  rewrite Ht. apply in_map_iff. exists r. now rewrite Hin.
Qed.

(** On a well-formed table the returned jobs are, in order, the first
    [limit] eligible rows as the statement rewrote them. *)
Lemma Claim_jobs_wf (limit : Z) (w w' : world) (jobs : list (Job G)) :
  wf_table (tbl w) ->
  Claim G S limit w = (w', Returns (Some jobs, None)) ->
  Forall2 scanned
    (map (set_claimed (now_text w))
         (sql_limit limit (eligible_rows (now_text w) (tbl w)))) jobs.
Proof.
  intros Hwf H. apply Claim_returns in H as (_ & _ & _ & HF & _).
  now rewrite (update_claim_wf _ _ _ Hwf) in HF.
Qed.

Lemma Claim_ids_wf (limit : Z) (w w' : world) (jobs : list (Job G)) :
  wf_table (tbl w) ->
  Claim G S limit w = (w', Returns (Some jobs, None)) ->
  map ID jobs = map id (sql_limit limit (eligible_rows (now_text w) (tbl w))).
Proof.
  intros Hwf H. rewrite (Forall2_scanned_ids G _ _ (Claim_jobs_wf _ _ _ _ Hwf H)).
  rewrite map_map. reflexivity.
Qed.


Lemma Claim_ids_ascending (limit : Z) (w w' : world) (jobs : list (Job G)) :
  wf_table (tbl w) ->
  Claim G S limit w = (w', Returns (Some jobs, None)) ->
  strictly_ascending (map ID jobs) = true.
Proof.
  intros Hwf H. rewrite (Claim_ids_wf _ _ _ _ Hwf H), sql_limit_firstn.
  destruct (wf_table_ascending _ Hwf) as [lo Hlo].
  apply (ascending_from_strictly lo). rewrite <- firstn_map.
  apply ascending_from_firstn. unfold eligible_rows.
  apply ascending_from_filter, Hlo.
Qed.

(** C5, as amended.  With the engine letting the statement through on a
    well-formed table: when no row is eligible, [Claim] returns the empty,
    non-nil slice and no error; and whenever [Claim] returns jobs, they are
    in strictly ascending order of [ID], at most [limit] of them for a limit
    that is not negative, and every eligible row for a negative limit, which
    places no bound on their number. *)
Theorem Claim_bounded_ascending (limit : Z) (w : world) :
  wf_table (tbl w) ->
  pool_open w = true ->
  fault (next_event w) = None ->
  (eligible_rows (now_text w) (tbl w) = [] ->
     exists w', Claim G S limit w = (w', Returns (Some [], None)))
  /\ (forall w' jobs, Claim G S limit w = (w', Returns (Some jobs, None)) ->
        strictly_ascending (map ID jobs) = true
        /\ (0 <= limit -> Z.of_nat (List.length jobs) <= limit)
        /\ (limit < 0 ->
              map ID jobs = map id (eligible_rows (now_text w) (tbl w)))).
Proof.
  intros Hwf Hp Hf. split.
  - intros He. apply Claim_total; try assumption.
    rewrite (update_claim_wf _ _ _ Hwf), He. cbn [snd].
    unfold sql_limit. destruct (limit <? 0); [constructor|].
    rewrite firstn_nil. constructor.
  - intros w' jobs H. pose proof (Claim_ids_wf _ _ _ _ Hwf H) as Hids.
    split; [|split].
    + exact (Claim_ids_ascending _ _ _ _ Hwf H).
    + intros Hl. rewrite <- (length_map ID), Hids, length_map.
      rewrite (sql_limit_length _ _ Hl). lia.
    + intros Hl. rewrite Hids. now rewrite (sql_limit_negative _ _ Hl).
Qed.

End ClaimProperties.

(** ** The single-statement calls, case by case *)

Section Calls.

Variable G : GoDeps.
Variable S : schema.

Lemma MarkCompleted_cases (jobID : Z) (w : world) :
  MarkCompleted S jobID w =
    if pool_open w then
      match fault (next_event w) with
      | Some e =>
          (submitted (UpdateCompleted jobID) w,
           Returns (Some (Wrapped "failed to mark job as completed" (sqlite_error e))))
      | None =>
          (with_tbl (update_where_id (set_completed (now_text w)) jobID (tbl w))
                    (submitted (UpdateCompleted jobID) w),
           Returns None)
      end
    else (w, Panics).
Proof.
  unfold MarkCompleted, Exec, engine_step.
  destruct (pool_open w); [|reflexivity].
  destruct (fault (next_event w)); reflexivity.
Qed.

Lemma MarkFailed_cases (jobID : Z) (errMsg : string) (w : world) :
  MarkFailed S jobID errMsg w =
    if pool_open w then
      match fault (next_event w) with
      | Some e =>
          (submitted (UpdateFailed errMsg jobID) w,
           Returns (Some (Wrapped "failed to mark job as failed" (sqlite_error e))))
      | None =>
          (with_tbl (update_where_id (set_failed (now_text w) errMsg) jobID (tbl w))
                    (submitted (UpdateFailed errMsg jobID) w),
           Returns None)
      end
    else (w, Panics).
Proof.
  unfold MarkFailed, Exec, engine_step.
  destruct (pool_open w); [|reflexivity].
  destruct (fault (next_event w)); reflexivity.
Qed.

Lemma InsertJob_cases (job : Job G) (w : world) :
  InsertJob G S job w =
    if pool_open w then
      match fault (next_event w) with
      | Some e =>
          (submitted (insert_stmt G job) w,
           Returns (Some (Wrapped "queue insert failed" (sqlite_error e))))
      | None =>
          match run_dml S (now_text w) (insert_stmt G job) (tbl w) with
          | inl e =>
              (submitted (insert_stmt G job) w,
               Returns (Some (Wrapped "queue insert failed" (sqlite_error e))))
          | inr (t', _) =>
              (with_tbl t' (submitted (insert_stmt G job) w), Returns None)
          end
      end
    else (w, Panics).
Proof.
  unfold InsertJob, Exec, engine_step.
  destruct (pool_open w); [|reflexivity].
  destruct (fault (next_event w)); [reflexivity|].
  unfold insert_stmt.
  destruct (run_dml _ _ _ _) as [e|[t' rows]]; reflexivity.
Qed.

End Calls.

(** ** The recurrence transaction *)

Section Recurrence.

Variable G : GoDeps.
Variable S : schema.

Lemma run_dml_insert (now : string) (job : Job G) (t : table) :
  run_dml S now (insert_stmt G job) t =
    match check_insert S t (job_row G S now t job) with
    | Some e => inl e
    | None => inr ((t ++ [job_row G S now t job])%list, [])
    end.
Proof. reflexivity. Qed.

Lemma Exec_fault (q : stmt) (w : world) (e : Z * string) :
  fault (next_event w) = Some e ->
  Exec S q w = (submitted q w, Some (sqlite_error e)).
Proof. intros H. unfold Exec, engine_step. now rewrite H. Qed.

Lemma Exec_begin_ok (w : world) :
  fault (next_event w) = None -> txn w = None ->
  Exec S BeginImmediate w
  = (with_txn (Some (tbl w)) (submitted BeginImmediate w), None).
Proof. intros H Ht. unfold Exec, engine_step. now rewrite H, Ht. Qed.

Lemma Exec_begin_nested (w : world) (snapshot : table) :
  fault (next_event w) = None -> txn w = Some snapshot ->
  Exec S BeginImmediate w
  = (submitted BeginImmediate w, Some (sqlite_error err_nested_txn)).
Proof. intros H Ht. unfold Exec, engine_step. now rewrite H, Ht. Qed.

Lemma Exec_commit_ok (w : world) (snapshot : table) :
  fault (next_event w) = None -> txn w = Some snapshot ->
  Exec S Commit w = (with_txn None (submitted Commit w), None).
Proof. intros H Ht. unfold Exec, engine_step. now rewrite H, Ht. Qed.

Lemma Exec_rollback_ok (w : world) (snapshot : table) :
  fault (next_event w) = None -> txn w = Some snapshot ->
  Exec S Rollback w
  = (with_txn None (with_tbl snapshot (submitted Rollback w)), None).
Proof. intros H Ht. unfold Exec, engine_step. now rewrite H, Ht. Qed.

Lemma Exec_update_ok (jobID : Z) (w : world) :
  fault (next_event w) = None ->
  Exec S (UpdateCompleted jobID) w
  = (with_tbl (update_where_id (set_completed (now_text w)) jobID (tbl w))
              (submitted (UpdateCompleted jobID) w), None).
Proof. intros H. unfold Exec, engine_step. now rewrite H. Qed.

Lemma Exec_insert_cases (w : world) (job : Job G) :
  fault (next_event w) = None ->
  Exec S (insert_stmt G job) w =
    match check_insert S (tbl w) (job_row G S (now_text w) (tbl w) job) with
    | Some e => (submitted (insert_stmt G job) w, Some (sqlite_error e))
    | None =>
        (with_tbl (tbl w ++ [job_row G S (now_text w) (tbl w) job])%list
                  (submitted (insert_stmt G job) w), None)
    end.
Proof.
  intros F. unfold Exec, engine_step. rewrite F.
  unfold insert_stmt, job_row. cbn [run_dml].
  destruct (check_insert S _ _); reflexivity.
Qed.

(** The INSERT either fails, leaving the table alone, or adds the row. *)
Lemma insert_outcome (w : world) (job : Job G) :
  (exists e,
      (fault (next_event w) = Some e \/
       (fault (next_event w) = None /\
        check_insert S (tbl w) (job_row G S (now_text w) (tbl w) job) = Some e))
      /\ Exec S (insert_stmt G job) w
         = (submitted (insert_stmt G job) w, Some (sqlite_error e)))
  \/ (fault (next_event w) = None
      /\ check_insert S (tbl w) (job_row G S (now_text w) (tbl w) job) = None
      /\ Exec S (insert_stmt G job) w
         = (with_tbl (tbl w ++ [job_row G S (now_text w) (tbl w) job])%list
                     (submitted (insert_stmt G job) w), None)).
Proof.
  destruct (fault (next_event w)) as [e|] eqn:F.
  - left. exists e. split; [now left|]. apply Exec_fault, F.
  - rewrite (Exec_insert_cases w job F).
    destruct (check_insert S (tbl w) _) as [e|] eqn:C.
    + left. exists e. split; [right; now split|reflexivity].
    + right. repeat split.
Qed.

(** The ways [MarkRecurrentCompleted] ends on a connection that is not
    inside a transaction, with BEGIN IMMEDIATE going through, by the
    outcomes of its statements. *)
Lemma MarkRecurrentCompleted_outcomes
    (completedJobID : Z) (newJob : Job G) (w w' : world)
    (res : outcome (option error)) :
  let w1 := fst (Exec S BeginImmediate w) in
  let update := Exec S (UpdateCompleted completedJobID) w1 in
  let insert := Exec S (insert_stmt G newJob) (fst update) in
  let commit := Exec S Commit (fst insert) in
  let before_rollback :=
    match snd update with
    | Some _ => fst update
    | None => fst insert
    end in
  let completed_tbl :=
    update_where_id (set_completed (now_text w1)) completedJobID (tbl w) in
  let both :=
    (completed_tbl ++ [job_row G S (now_text (fst update)) completed_tbl newJob])%list in
  pool_open w = true ->
  txn w = None ->
  snd (Exec S BeginImmediate w) = None ->
  MarkRecurrentCompleted G S completedJobID newJob w = (w', res) ->
  (snd update <> None \/ snd insert <> None ->
     (exists e, res = Returns (Some e)) /\ committed w' = tbl w
     /\ (fault (next_event before_rollback) = None ->
         txn w' = None /\ tbl w' = tbl w))
  /\ (snd update = None -> snd insert = None ->
        tbl w' = both
        /\ (snd commit = None -> res = Returns None /\ txn w' = None /\ committed w' = both))
  /\ (committed w' = tbl w \/ (res = Returns None /\ committed w' = both)).
Proof.
  intros w1 update insert commit before_rollback completed_tbl both Hp Ht Hb H.
  subst w1 update insert commit before_rollback both completed_tbl.
  unfold MarkRecurrentCompleted in H. rewrite Hp in H. cbn [negb] in H.
  destruct (fault (next_event w)) as [e0|] eqn:F0.
  { rewrite (Exec_fault _ _ _ F0) in Hb. discriminate Hb. }
  clear Hb. rewrite (Exec_begin_ok _ F0 Ht) in *. cbn [fst] in *.
  set (W1 := with_txn (Some (tbl w)) (submitted BeginImmediate w)) in *.
  assert (T1 : txn W1 = Some (tbl w)) by reflexivity.
  assert (B1 : tbl W1 = tbl w) by reflexivity.
  destruct (fault (next_event W1)) as [e1|] eqn:F1.
  - (* the engine fails the update *)
    rewrite (Exec_fault _ _ _ F1) in *. cbn [fst snd] in *.
    set (W2 := submitted (UpdateCompleted completedJobID) W1) in *.
    assert (T2 : txn W2 = Some (tbl w)) by reflexivity.
    assert (B2 : tbl W2 = tbl w) by reflexivity.
    assert (C : committed w' = tbl w /\ (exists e, res = Returns (Some e))
                /\ (fault (next_event W2) = None -> txn w' = None /\ tbl w' = tbl w)).
    { destruct (fault (next_event W2)) as [e2|] eqn:F2.
      - rewrite (Exec_fault _ _ _ F2) in H. inversion H; subst w' res.
        split; [reflexivity|]. split; [eexists; reflexivity|discriminate].
      - rewrite (Exec_rollback_ok _ _ F2 T2) in H. inversion H; subst w' res.
        split; [reflexivity|]. split; [eexists; reflexivity|].
        intros _; split; reflexivity. }
    destruct C as (C1 & C2 & C3). split; [|split].
    + intros _. split; [assumption|]. split; assumption.
    + intros Hu. discriminate Hu.
    + left. exact C1.
  - rewrite (Exec_update_ok _ _ F1) in *. cbn [fst snd] in *. rewrite B1 in *.
    set (t1 := update_where_id (set_completed (now_text W1)) completedJobID (tbl w)) in *.
    set (W2 := with_tbl t1 (submitted (UpdateCompleted completedJobID) W1)) in *.
    assert (T2 : txn W2 = Some (tbl w)) by reflexivity.
    assert (B2 : tbl W2 = t1) by reflexivity.
    destruct (insert_outcome W2 newJob) as [[e [He Hi]] | [Hf [Hc Hi]]].
    + (* the insert fails *)
      rewrite Hi in *. cbn [fst snd] in *.
      set (W3 := submitted (insert_stmt G newJob) W2) in *.
      assert (T3 : txn W3 = Some (tbl w)) by reflexivity.
      assert (C : committed w' = tbl w /\ (exists e, res = Returns (Some e))
                  /\ (fault (next_event W3) = None -> txn w' = None /\ tbl w' = tbl w)).
      { destruct (fault (next_event W3)) as [e3|] eqn:F3.
        - rewrite (Exec_fault _ _ _ F3) in H. inversion H; subst w' res.
          split; [reflexivity|]. split; [eexists; reflexivity|discriminate].
        - rewrite (Exec_rollback_ok _ _ F3 T3) in H. inversion H; subst w' res.
          split; [reflexivity|]. split; [eexists; reflexivity|].
          intros _; split; reflexivity. }
      destruct C as (C1 & C2 & C3). split; [|split].
      * intros _. split; [assumption|]. split; assumption.
      * intros _ Hn. discriminate Hn.
      * left. exact C1.
    + (* both statements succeed *)
      rewrite Hi in *. cbn [fst snd] in *. rewrite B2 in *.
      set (t2 := (t1 ++ [job_row G S (now_text W2) t1 newJob])%list) in *.
      set (W3 := with_tbl t2 (submitted (insert_stmt G newJob) W2)) in *.
      assert (T3 : txn W3 = Some (tbl w)) by reflexivity.
      destruct (fault (next_event W3)) as [e3|] eqn:F3.
      * rewrite (Exec_fault _ _ _ F3) in *. cbn [fst snd] in *.
        inversion H; subst w' res. split; [|split].
        -- intros [Hu|Hu]; now elim Hu.
        -- intros _ _. split; [reflexivity|]. intros Hn; discriminate Hn.
        -- left. reflexivity.
      * rewrite (Exec_commit_ok _ _ F3 T3) in *. cbn [fst snd] in *.
        inversion H; subst w' res. split; [|split].
        -- intros [Hu|Hu]; now elim Hu.
        -- intros _ _. split; [reflexivity|]. intros _. repeat split.
        -- right. split; reflexivity.
Qed.

(** The completion statement completes the rows of the id, column by
    column, and keeps the others. *)
Lemma completion_of_update (now' : string) (jobID : Z) (t : table) :
  completion_of now' jobID t (update_where_id (set_completed now') jobID t).
Proof.
  unfold completion_of, update_where_id.
  induction t as [|r t IH]; cbn [map]; constructor; [|exact IH].
  destruct (id r =? jobID); [|reflexivity].
  unfold completed_from. cbn. repeat split.
Qed.

(** The row the INSERT adds is the successor of the job. *)
Lemma successor_of_job_row (now' : string) (t : table) (job : Job G) :
  successor_of job t (job_row G S now' t job).
Proof. unfold successor_of, job_row, inserted_row. cbn. repeat split. Qed.

(** C2. [MarkRecurrentCompleted] on a connection that is not inside a
    transaction, with BEGIN IMMEDIATE going through.  If the completion
    update or the successor insert fails (the engine fails the statement, or
    the insert violates a constraint of the schema), the call returns an
    error and the committed table is the table before the call: the job is
    in its pre-call state and there is no successor row; with the ROLLBACK
    going through, the transaction is closed and the connection sees that
    table again.  If both succeed and COMMIT goes through, the call returns
    no error, the transaction is closed, and the table, committed and as
    the connection sees it, is the pre-call table with the rows of the id
    completed (status [completed], [completed_at] and [updated_at] stamped,
    [locked_at] and [last_error] emptied, the other columns as they were),
    every other row as it was, and the successor row added at the end. *)
Theorem MarkRecurrentCompleted_all_or_nothing
    (completedJobID : Z) (newJob : Job G) (w w' : world)
    (res : outcome (option error)) :
  let w1 := fst (Exec S BeginImmediate w) in
  let update := Exec S (UpdateCompleted completedJobID) w1 in
  let insert := Exec S (insert_stmt G newJob) (fst update) in
  let commit := Exec S Commit (fst insert) in
  let before_rollback :=
    match snd update with
    | Some _ => fst update
    | None => fst insert
    end in
  pool_open w = true ->
  txn w = None ->
  snd (Exec S BeginImmediate w) = None ->
  MarkRecurrentCompleted G S completedJobID newJob w = (w', res) ->
  (snd update <> None \/ snd insert <> None ->
     (exists e, res = Returns (Some e)) /\ committed w' = tbl w
     /\ (fault (next_event before_rollback) = None ->
         txn w' = None /\ tbl w' = tbl w))
  /\ (snd update = None -> snd insert = None -> snd commit = None ->
        res = Returns None /\ txn w' = None /\ committed w' = tbl w'
        /\ exists done succ,
             tbl w' = (done ++ [succ])%list
             /\ completion_of (now_text w1) completedJobID (tbl w) done
             /\ successor_of newJob done succ).
Proof.
  intros w1 update insert commit before_rollback Hp Ht Hb H.
  destruct (MarkRecurrentCompleted_outcomes completedJobID newJob w w' res Hp Ht Hb H)
    as (A & B & _).
  split; [exact A|].
  intros Hu Hi Hc. destruct (B Hu Hi) as (Htbl & K).
  destruct (K Hc) as (Hres & Htxn & Hcom).
  split; [exact Hres|]. split; [exact Htxn|]. split; [now rewrite Hcom, Htbl|].
  eexists _, _. split; [exact Htbl|]. split.
  - apply completion_of_update.
  - apply successor_of_job_row.
Qed.

End Recurrence.

(** ** The table after each call *)

Section Frames.

Variable G : GoDeps.
Variable S : schema.

Lemma reshaped_attempts (t t' : table) :
  reshaped t t' -> exists extra, attempts_of t' = (attempts_of t ++ extra)%list.
Proof.
  induction 1 as [| now jobID | now errMsg jobID | t' r _ [extra IH] _].
  - exists []. now rewrite app_nil_r.
  - exists []. rewrite app_nil_r. unfold attempts_of, update_where_id.
    rewrite map_map. apply map_ext. intros r. now destruct (id r =? jobID).
  - exists []. rewrite app_nil_r. unfold attempts_of, update_where_id.
    rewrite map_map. apply map_ext. intros r. now destruct (id r =? jobID).
  - exists (extra ++ [(id r, attempts r)])%list.
    unfold attempts_of in *. rewrite map_app, IH, <- app_assoc. reflexivity.
Qed.

Lemma InsertJob_reshaped (job : Job G) (w : world) :
  reshaped (tbl w) (tbl (fst (InsertJob G S job w))).
Proof.
  rewrite InsertJob_cases. destruct (pool_open w); [|constructor].
  destruct (fault (next_event w)); [constructor|].
  rewrite run_dml_insert. destruct (check_insert S _ _); cbn; repeat constructor.
Qed.

Lemma MarkCompleted_reshaped (jobID : Z) (w : world) :
  reshaped (tbl w) (tbl (fst (MarkCompleted S jobID w))).
Proof.
  rewrite MarkCompleted_cases. destruct (pool_open w); [|constructor].
  destruct (fault (next_event w)); cbn; constructor.
Qed.

Lemma MarkFailed_reshaped (jobID : Z) (errMsg : string) (w : world) :
  reshaped (tbl w) (tbl (fst (MarkFailed S jobID errMsg w))).
Proof.
  rewrite MarkFailed_cases. destruct (pool_open w); [|constructor].
  destruct (fault (next_event w)); cbn; constructor.
Qed.

Lemma MarkRecurrentCompleted_reshaped (jobID : Z) (newJob : Job G) (w : world) :
  reshaped (tbl w) (tbl (fst (MarkRecurrentCompleted G S jobID newJob w))).
Proof.
  unfold MarkRecurrentCompleted.
  destruct (pool_open w); cbn [negb]; [|constructor].
  destruct (fault (next_event w)) as [e0|] eqn:F0.
  { rewrite (Exec_fault S _ _ _ F0). constructor. }
  destruct (txn w) as [snapshot|] eqn:Ht.
  { rewrite (Exec_begin_nested S _ _ F0 Ht). constructor. }
  rewrite (Exec_begin_ok S _ F0 Ht).
  set (W1 := with_txn (Some (tbl w)) (submitted BeginImmediate w)).
  assert (T1 : txn W1 = Some (tbl w)) by reflexivity.
  destruct (fault (next_event W1)) as [e1|] eqn:F1.
  - rewrite (Exec_fault S _ _ _ F1).
    set (W2 := submitted (UpdateCompleted jobID) W1).
    assert (T2 : txn W2 = Some (tbl w)) by reflexivity.
    destruct (fault (next_event W2)) as [e2|] eqn:F2.
    + rewrite (Exec_fault S _ _ _ F2). constructor.
    + rewrite (Exec_rollback_ok S _ _ F2 T2). constructor.
  - rewrite (Exec_update_ok S _ _ F1).
    set (t1 := update_where_id (set_completed (now_text W1)) jobID (tbl W1)).
    set (W2 := with_tbl t1 (submitted (UpdateCompleted jobID) W1)).
    assert (T2 : txn W2 = Some (tbl w)) by reflexivity.
    assert (R1 : reshaped (tbl w) t1) by constructor.
    destruct (insert_outcome G S W2 newJob) as [[e [He Hi]] | [Hf [Hc Hi]]];
      rewrite Hi.
    + set (W3 := submitted (insert_stmt G newJob) W2).
      assert (T3 : txn W3 = Some (tbl w)) by reflexivity.
      destruct (fault (next_event W3)) as [e3|] eqn:F3.
      * rewrite (Exec_fault S _ _ _ F3). exact R1.
      * rewrite (Exec_rollback_ok S _ _ F3 T3). constructor.
    + set (W3 := with_tbl _ (submitted (insert_stmt G newJob) W2)).
      assert (T3 : txn W3 = Some (tbl w)) by reflexivity.
      destruct (fault (next_event W3)) as [e3|] eqn:F3.
      * rewrite (Exec_fault S _ _ _ F3). constructor; [exact R1|reflexivity].
      * rewrite (Exec_commit_ok S _ _ F3 T3). constructor; [exact R1|reflexivity].
Qed.

(** The table after [Claim], whatever the call returns. *)
Lemma Claim_tbl (limit : Z) (w : world) :
  tbl (fst (Claim G S limit w)) = tbl w \/
  tbl (fst (Claim G S limit w)) = fst (update_claim (now_text w) limit (tbl w)).
Proof.
  unfold Claim, ExecRows, engine_step.
  destruct (pool_open w); [|now left].
  destruct (fault (next_event w)); [now left|]. cbn [run_dml].
  destruct (update_claim (now_text w) limit (tbl w)) as [t' rows].
  destruct (each_row (claim_resultFn G) rows None) as [[l|] [e|]]; now right.
Qed.

Lemma never_decreased_refl (t : table) : never_decreased t t.
Proof.
  exists t, []. split; [now rewrite app_nil_r|].
  induction t; constructor; [split; [reflexivity|lia]|assumption].
Qed.

Lemma never_decreased_prefix (t t' : table) (extra : list (Z * Z)) :
  attempts_of t' = (attempts_of t ++ extra)%list -> never_decreased t t'.
Proof.
  revert t'; induction t as [|r t IH]; intros t' H.
  - exists [], t'. split; [reflexivity|constructor].
  - destruct t' as [|r' t']; [discriminate|]. cbn in H. inversion H as [[Hid Hat Hrest]].
    destruct (IH _ Hrest) as (kept & ex & -> & HF).
    exists (r' :: kept), ex. split; [reflexivity|].
    constructor; [split; [assumption|lia]|assumption].
Qed.

Lemma never_decreased_claim (now : string) (limit : Z) (t : table) :
  never_decreased t (fst (update_claim now limit t)).
Proof.
  unfold update_claim; cbn [fst]. set (ids := select_claimable now limit t).
  exists (map (fun r => if id_in ids r then set_claimed now r else r) t), [].
  split; [now rewrite app_nil_r|]. clearbody ids.
  induction t as [|r t IH]; cbn; constructor; [|exact IH].
  destruct (id_in ids r); cbn; split; try reflexivity; lia.
Qed.

End Frames.

(** ** Counters and stamps *)

Section Counters.

Variable G : GoDeps.
Variable S : schema.

Lemma run_op_reshaped (o : op G) (w : world) :
  is_claim o = false -> reshaped (tbl w) (tbl (run_op G S o w)).
Proof.
  destruct o; cbn; intros H; try discriminate.
  - apply InsertJob_reshaped.
  - apply MarkCompleted_reshaped.
  - apply MarkFailed_reshaped.
  - apply MarkRecurrentCompleted_reshaped.
Qed.

(** C4. Every job [Claim] returns comes from a row of the table, and the
    returned snapshot and the stored row both carry the status
    [processing]; the snapshot's count is the stored count read as a 64-bit
    integer.  Where the count before the call is a 64-bit integer below the
    greatest one, the snapshot and the stored row both carry that count
    plus one.  No call other than [Claim] changes the [attempts] of a row
    that is already in the table, and no call at all makes it smaller. *)
Theorem attempts_incremented_by_Claim_only :
  (forall limit w w' jobs j,
      Claim G S limit w = (w', Returns (Some jobs, None)) ->
      In j jobs ->
      exists r r',
        In r (tbl w) /\ id r = ID j /\ Status j = StatusProcessing /\
        In r' (tbl w') /\ id r' = id r /\ status r' = StatusProcessing /\
        Attempts j = column_int64 (attempts r') /\
        (go_int (attempts r) -> attempts r < int64_max ->
         Attempts j = attempts r + 1 /\ attempts r' = attempts r + 1))
  /\ (forall o w, is_claim o = false ->
        exists extra,
          attempts_of (tbl (run_op G S o w)) = (attempts_of (tbl w) ++ extra)%list)
  /\ (forall o w, never_decreased (tbl w) (tbl (run_op G S o w))).
Proof.
  split; [|split].
  - intros limit w w' jobs j H Hj.
    destruct (Claim_job_source G S limit w w' jobs j H Hj) as (r & Hr & Hs & Hr').
    apply scan_job_fields in Hs as (Hid & _ & _ & _ & Hst & Hat & _).
    exists r, (set_claimed (now_text w) r). cbn [id status attempts set_claimed] in *.
    split; [assumption|]. split; [now symmetry|]. split; [assumption|].
    split; [assumption|]. split; [reflexivity|]. split; [reflexivity|].
    split; [assumption|]. intros Hg Hlt. split; [|reflexivity].
    rewrite Hat. apply column_int64_exact. unfold go_int in *. lia.
  - intros o w Ho. apply reshaped_attempts, run_op_reshaped, Ho.
  - intros o w. destruct (is_claim o) eqn:Ho.
    + destruct o; try discriminate. cbn.
      destruct (Claim_tbl G S limit w) as [-> | ->];
        [apply never_decreased_refl|apply never_decreased_claim].
    + destruct (reshaped_attempts _ _ (run_op_reshaped o w Ho)) as [extra He].
      eapply never_decreased_prefix, He.
Qed.

End Counters.

(** ** Completion, failure and the lock columns *)

Section Stamps.

Variable G : GoDeps.
Variable S : schema.

Lemma MarkCompleted_returns (jobID : Z) (w w' : world) :
  MarkCompleted S jobID w = (w', Returns None) ->
  tbl w' = update_where_id (set_completed (now_text w)) jobID (tbl w)
  /\ script w' = script w /\ pc w' = Datatypes.S (pc w).
Proof.
  rewrite MarkCompleted_cases. destruct (pool_open w); [|discriminate].
  destruct (fault (next_event w)); [discriminate|].
  intros H; inversion H; subst; cbn. repeat split.
Qed.

Lemma MarkFailed_returns (jobID : Z) (errMsg : string) (w w' : world) :
  MarkFailed S jobID errMsg w = (w', Returns None) ->
  tbl w' = update_where_id (set_failed (now_text w) errMsg) jobID (tbl w).
Proof.
  rewrite MarkFailed_cases. destruct (pool_open w); [|discriminate].
  destruct (fault (next_event w)); [discriminate|].
  intros H; inversion H; subst; cbn. reflexivity.
Qed.

Lemma In_update_where_id (f : row -> row) (jobID : Z) (t : table) (r' : row) :
  In r' (update_where_id f jobID t) ->
  exists r, In r t /\ r' = (if id r =? jobID then f r else r).
Proof.
  unfold update_where_id. intros H. apply in_map_iff in H as [r [<- Hr]].
  exists r. split; [assumption|reflexivity].
Qed.

Lemma update_where_id_hit (f : row -> row) (jobID : Z) (t : table) (r : row) :
  In r t -> id r = jobID -> In (f r) (update_where_id f jobID t).
Proof.
  intros Hr Hid. unfold update_where_id. apply in_map_iff. exists r.
  split; [|assumption]. rewrite Hid, Z.eqb_refl. reflexivity.
Qed.

Lemma map_update_where_id {A : Type} (col : row -> A) (f : row -> row)
    (jobID : Z) (t : table) :
  (forall r, col (f r) = col r) ->
  map col (update_where_id f jobID t) = map col t.
Proof.
  intros Hf. unfold update_where_id. rewrite map_map. apply map_ext.
  intros r. destruct (id r =? jobID); [apply Hf|reflexivity].
Qed.

Lemma map_update_claim {A : Type} (col : row -> A) (now : string) (limit : Z) (t : table) :
  (forall r, col (set_claimed now r) = col r) ->
  map col (fst (update_claim now limit t)) = map col t.
Proof.
  intros Hf. unfold update_claim; cbn [fst]. rewrite map_map. apply map_ext.
  intros r. destruct (id_in _ r); [apply Hf|reflexivity].
Qed.

(** C8, as amended.  [last_error] is emptied by completion and left alone by
    a claim: after a successful [MarkCompleted] every row with the given
    [id] has an empty [last_error]; a successful [Claim] changes the
    [last_error] of no row, and every job it returns carries the
    [last_error] its row had before the call. *)
Theorem last_error_cleared_by_completion_not_by_claim :
  (forall jobID w w',
      MarkCompleted S jobID w = (w', Returns None) ->
      forall r', In r' (tbl w') -> id r' = jobID -> last_error r' = "")
  /\ (forall limit w w' jobs,
        Claim G S limit w = (w', Returns (Some jobs, None)) ->
        map last_error (tbl w') = map last_error (tbl w)
        /\ forall j, In j jobs ->
             exists r, In r (tbl w) /\ id r = ID j /\ LastError j = last_error r).
Proof.
  split.
  - intros jobID w w' H r' Hr' Hid.
    apply MarkCompleted_returns in H as (Ht & _). rewrite Ht in Hr'.
    apply In_update_where_id in Hr' as (r & Hr & ->).
    destruct (id r =? jobID) eqn:E; [reflexivity|].
    apply Z.eqb_neq in E. contradiction.
  - intros limit w w' jobs H. split.
    + apply Claim_returns in H as (_ & _ & Ht & _). rewrite Ht.
      apply map_update_claim. reflexivity.
    + intros j Hj.
      destruct (Claim_job_source G S limit w w' jobs j H Hj) as (r & Hr & Hs & _).
      apply scan_job_fields in Hs as (Hid & _ & _ & _ & _ & _ & _ & _ & Hle).
      exists r. cbn in *. repeat split; [assumption|now symmetry|assumption].
Qed.


(** C10. [MarkFailed] assigns [status], [updated_at], [locked_at] and
    [last_error] only: whatever the call returns, the other twelve columns
    of every row, [completed_at] among them, are as before.  So when
    [MarkCompleted] and then [MarkFailed] succeed on the same [id], the row
    ends with status [failed] and the given message while it still carries
    the timestamp of the completion, which is not empty. *)
Theorem MarkFailed_keeps_completed_at :
  (forall jobID errMsg w,
      map untouched_by_failure (tbl (fst (MarkFailed S jobID errMsg w)))
      = map untouched_by_failure (tbl w))
  /\ (forall jobID errMsg w w1 w2,
        MarkCompleted S jobID w = (w1, Returns None) ->
        MarkFailed S jobID errMsg w1 = (w2, Returns None) ->
        forall r, In r (tbl w) -> id r = jobID ->
          exists r2,
            In r2 (tbl w2) /\ id r2 = jobID /\
            status r2 = StatusFailed /\ last_error r2 = errMsg /\
            completed_at r2 = now_text w /\ completed_at r2 <> "").
Proof.
  split.
  - intros jobID errMsg w. rewrite MarkFailed_cases.
    destruct (pool_open w); [|reflexivity].
    destruct (fault (next_event w)); cbn; [reflexivity|].
    apply map_update_where_id. reflexivity.
  - intros jobID errMsg w w1 w2 H1 H2 r Hr Hid.
    apply MarkCompleted_returns in H1 as (Ht1 & _).
    apply MarkFailed_returns in H2.
    exists (set_failed (now_text w1) errMsg (set_completed (now_text w) r)).
    split.
    + rewrite H2, Ht1. apply update_where_id_hit; [|exact Hid].
      apply update_where_id_hit; assumption.
    + cbn. repeat split; try assumption. apply strftime_nonempty.
Qed.

End Stamps.

(** ** InsertJob *)

Section Insert.

Variable G : GoDeps.
Variable S : schema.

(** C6, as amended.  [InsertJob] checks nothing itself: whatever the job's
    [job_type] and [payload], on a live connection it hands exactly one
    INSERT statement to the engine.  When neither the engine nor a
    constraint of the schema stops the statement, the call returns no error
    and the row is added; when one of them does, no row is created and the
    call returns the engine's error under the prefix "queue insert failed". *)
Theorem InsertJob_rejection_is_the_engines (job : Job G) (w w' : world)
    (res : outcome (option error)) :
  pool_open w = true ->
  InsertJob G S job w = (w', res) ->
  log w' = (log w ++ [insert_stmt G job])%list
  /\ (fault (next_event w) = None ->
      check_insert S (tbl w) (job_row G S (now_text w) (tbl w) job) = None ->
      res = Returns None
      /\ tbl w' = (tbl w ++ [job_row G S (now_text w) (tbl w) job])%list)
  /\ (forall e,
        fault (next_event w) = Some e \/
        (fault (next_event w) = None /\
         check_insert S (tbl w) (job_row G S (now_text w) (tbl w) job) = Some e) ->
        res = Returns (Some (Wrapped "queue insert failed" (sqlite_error e)))
        /\ tbl w' = tbl w).
Proof.
  intros Hp. rewrite InsertJob_cases, Hp, run_dml_insert.
  destruct (fault (next_event w)) as [e0|] eqn:Hf.
  - intros H; inversion H; subst; cbn. split; [reflexivity|].
    split; [discriminate|].
    intros e [He|[He _]]; [|discriminate]. inversion He; subst. split; reflexivity.
  - destruct (check_insert S _ _) as [ec|] eqn:Hc;
      intros H; inversion H; subst; cbn; (split; [reflexivity|]).
    + split; [intros _ Hn; discriminate Hn|].
      intros e [He|[_ He]]; [discriminate|]. inversion He; subst. split; reflexivity.
    + split; [intros _ _; split; reflexivity|].
      intros e [He|[_ He]]; discriminate.
Qed.

(** C7, as amended.  Whenever the engine rejects the INSERT, for a violated
    uniqueness constraint as for any other reason, [InsertJob] returns the
    engine's error wrapped under the one prefix "queue insert failed".  The
    returned value is not [ErrConstraintUnique], nor does [errors.Is] find
    it inside; the engine's error, with its result code, is what
    [errors.Unwrap] yields, and only there do the cases differ. *)
Theorem InsertJob_wraps_every_storage_error (job : Job G) (w : world)
    (e : Z * string) :
  pool_open w = true ->
  fault (next_event w) = Some e \/
  (fault (next_event w) = None /\
   check_insert S (tbl w) (job_row G S (now_text w) (tbl w) job) = Some e) ->
  let err := Wrapped "queue insert failed" (SqliteError (fst e) (snd e)) in
  snd (InsertJob G S job w) = Returns (Some err)
  /\ err <> ErrConstraintUnique
  /\ errors_Is err ErrConstraintUnique = false
  /\ Unwrap err = Some (SqliteError (fst e) (snd e)).
Proof.
  intros Hp He err. split; [|repeat split; discriminate].
  rewrite InsertJob_cases, Hp, run_dml_insert.
  destruct He as [He|[Hf He]].
  - rewrite He. reflexivity.
  - rewrite Hf, He. reflexivity.
Qed.

End Insert.

(** ** Concurrent claims *)

Lemma strictly_ascending_NoDup (l : list Z) :
  strictly_ascending l = true -> NoDup l.
Proof.
  destruct l as [|x l]; [constructor|]. cbn. revert x.
  induction l as [|y l IH]; intros x H; [repeat constructor; intros []|].
  cbn in H. apply andb_true_iff in H as [Hxy Hl].
  constructor; [|apply IH, Hl].
  assert (Hall : Forall (fun z => x < z) (y :: l)).
  { apply ascending_from_Forall. cbn. now rewrite Hxy. }
  rewrite Forall_forall in Hall. intros Hin. apply Hall in Hin. lia.
Qed.

Section Race.

Variable G : GoDeps.
Variable S : schema.

Lemma Claim_keeps_wf (limit : Z) (w : world) :
  wf_table (tbl w) -> wf_table (tbl (fst (Claim G S limit w))).
Proof.
  intros Hwf. destruct (Claim_tbl G S limit w) as [-> | ->]; [assumption|].
  unfold wf_table. now rewrite update_claim_ids.
Qed.

(** A row the first claim took is not eligible for the second one. *)
Lemma claimed_row_not_eligible (now now' : string) (limit : Z) (t : table) (r' : row) :
  In r' (fst (update_claim now limit t)) ->
  In (id r') (map id (snd (update_claim now limit t))) ->
  eligible now' r' = false.
Proof.
  unfold update_claim; cbn [fst snd]. intros Hr' Hid.
  apply in_map_iff in Hr' as (r & <- & Hr).
  rewrite map_map in Hid. apply in_map_iff in Hid as (r0 & Hid0 & Hr0).
  apply filter_In in Hr0 as (_ & Hin0). cbn in Hid0.
  assert (Hsame : id r0 = id r).
  { rewrite Hid0. now destruct (id_in (select_claimable now limit t) r). }
  assert (Hin : id_in (select_claimable now limit t) r = true).
  { apply id_in_In. rewrite <- Hsame. apply id_in_In, Hin0. }
  rewrite Hin. reflexivity.
Qed.

(** One claim after another on a well-formed table. *)
Lemma claim_then_claim (La Lb : Z) (w w1 w2 : world) (jobsA jobsB : list (Job G)) :
  wf_table (tbl w) ->
  Claim G S La w = (w1, Returns (Some jobsA, None)) ->
  Claim G S Lb w1 = (w2, Returns (Some jobsB, None)) ->
  (forall i, In i (map ID jobsA) -> ~ In i (map ID jobsB))
  /\ NoDup (map ID jobsA) /\ NoDup (map ID jobsB)
  /\ (0 <= La -> 0 <= Lb -> same_second w ->
      Z.of_nat (List.length jobsA) + Z.of_nat (List.length jobsB)
      = Z.min (Z.of_nat (List.length (eligible_rows (now_text w) (tbl w)))) (La + Lb)).
Proof.
  intros Hwf HA HB.
  assert (Hwf1 : wf_table (tbl w1)).
  { pose proof (Claim_keeps_wf La w Hwf) as H. now rewrite HA in H. }
  pose proof (Claim_ids_wf G S La w w1 jobsA Hwf HA) as HidsA.
  pose proof (Claim_ids_wf G S Lb w1 w2 jobsB Hwf1 HB) as HidsB.
  pose proof (Claim_returns G S La w w1 jobsA HA)
    as (_ & _ & Ht1 & HFA & _ & Hsc & Hpc & _).
  split; [|split; [|split]].
  - intros i HiA HiB. rewrite HidsB in HiB.
    apply in_map_iff in HiB as (r' & <- & Hr'). apply In_sql_limit in Hr'.
    apply filter_In in Hr' as (Hr' & He).
    rewrite (Forall2_scanned_ids G _ _ HFA) in HiA. rewrite Ht1 in Hr'.
    rewrite (claimed_row_not_eligible _ (now_text w1) _ _ _ Hr' HiA) in He.
    discriminate.
  - apply strictly_ascending_NoDup.
    exact (Claim_ids_ascending G S La w w1 jobsA Hwf HA).
  - apply strictly_ascending_NoDup.
    exact (Claim_ids_ascending G S Lb w1 w2 jobsB Hwf1 HB).
  - intros HLa HLb Hsame.
    assert (Hnow : now_text w1 = now_text w).
    { unfold same_second in Hsame. rewrite <- Hsame.
      unfold now_text, next_event. now rewrite Hsc, Hpc. }
    rewrite <- (length_map ID jobsA), <- (length_map ID jobsB), HidsA, HidsB.
    rewrite !length_map, Hnow, Ht1, (eligible_after_claim _ _ _ Hwf).
    rewrite !(sql_limit_length _ _ HLa), !(sql_limit_length _ _ HLb).
    rewrite length_skipn. unfold limit_count.
    destruct (La <? 0) eqn:E; [apply Z.ltb_lt in E; lia|]. lia.
Qed.

(** C1, as amended.  Two concurrent claims on a well-formed table, each
    statement taking effect as a whole, in either order: no job id is
    returned to both callers and none twice to one, so every job is
    delivered to at most one caller.  When neither limit is negative and
    both statements read the same clock second, the two callers together
    receive [min (N, L1 + L2)] jobs, [N] being the number of rows eligible
    at that second. *)
Theorem concurrent_claims_disjoint (w w' : world) (L1 L2 : Z)
    (jobs1 jobs2 : list (Job G)) :
  wf_table (tbl w) ->
  claim_race G S w L1 L2 jobs1 jobs2 w' ->
  (forall i, In i (map ID jobs1) -> ~ In i (map ID jobs2))
  /\ NoDup (map ID jobs1 ++ map ID jobs2)
  /\ (0 <= L1 -> 0 <= L2 -> same_second w ->
      Z.of_nat (List.length (map ID jobs1 ++ map ID jobs2))
      = Z.min (Z.of_nat (List.length (eligible_rows (now_text w) (tbl w)))) (L1 + L2)).
Proof.
  intros Hwf Hrace. destruct Hrace as [w1 w2 jobs1 jobs2 HA HB | w1 w2 jobs1 jobs2 HA HB].
  - destruct (claim_then_claim L1 L2 w w1 w2 jobs1 jobs2 Hwf HA HB)
      as (Hd & N1 & N2 & Hn).
    split; [exact Hd|]. split; [apply NoDup_app; assumption|].
    intros H1 H2 Hs. rewrite length_app, !length_map, Nat2Z.inj_add.
    apply Hn; assumption.
  - destruct (claim_then_claim L2 L1 w w1 w2 jobs2 jobs1 Hwf HA HB)
      as (Hd & N2 & N1 & Hn).
    assert (Hd' : forall i, In i (map ID jobs1) -> ~ In i (map ID jobs2)).
    { intros i H1 H2. exact (Hd i H2 H1). }
    split; [exact Hd'|]. split; [apply NoDup_app; assumption|].
    intros H1 H2 Hs. rewrite length_app, !length_map, Nat2Z.inj_add.
    rewrite Z.add_comm, (Z.add_comm L1 L2). apply Hn; assumption.
Qed.

End Race.

(** ** Well-formedness is kept *)

Section WellFormed.

Variable G : GoDeps.
Variable S : schema.

Lemma next_rowid_above (t : table) :
  Forall (fun x => x < next_rowid t) (map id t).
Proof.
  destruct t as [|r t]; [constructor|]. unfold next_rowid.
  assert (H : forall (m : Z) (l : table),
             m <= fold_right (fun r' a => Z.max (id r') a) m l
             /\ Forall (fun x => x <= fold_right (fun r' a => Z.max (id r') a) m l)
                       (map id l)).
  { intros m l. induction l as [|x l [IH1 IH2]]; cbn.
    - split; [lia|constructor].
    - split; [lia|]. constructor; [lia|].
      eapply Forall_impl; [|exact IH2]. cbn; intros; lia. }
  destruct (H (id r) t) as [H1 H2]. cbn [map]. constructor; [lia|].
  eapply Forall_impl; [|exact H2]. cbn beta; intros; lia.
Qed.

Lemma wf_table_add (t : table) (r : row) :
  wf_table t -> id r = next_rowid t -> wf_table (t ++ [r])%list.
Proof.
  intros Hwf Hid. pose proof (next_rowid_above t) as Hab. rewrite <- Hid in Hab.
  destruct t as [|x t]; [reflexivity|].
  unfold wf_table in *. cbn in *. rewrite map_app. cbn.
  inversion Hab; subst. apply ascending_from_app; assumption.
Qed.

Lemma reshaped_wf (t t' : table) :
  reshaped t t' -> wf_table t -> wf_table t'.
Proof.
  induction 1 as [| now jobID | now errMsg jobID | t' r _ IH Hid]; intros Hwf.
  - assumption.
  - unfold wf_table. now rewrite update_where_id_ids.
  - unfold wf_table. now rewrite update_where_id_ids.
  - apply wf_table_add; [apply IH, Hwf|assumption].
Qed.

(** Every call leaves a well-formed table well-formed; the empty table is
    well-formed, so every table the calls build is. *)
Lemma run_op_keeps_wf (o : op G) (w : world) :
  wf_table (tbl w) -> wf_table (tbl (run_op G S o w)).
Proof.
  intros Hwf. destruct (is_claim o) eqn:Ho.
  - destruct o; try discriminate. cbn. apply Claim_keeps_wf, Hwf.
  - exact (reshaped_wf _ _ (run_op_reshaped G S o w Ho) Hwf).
Qed.

End WellFormed.

(** * The properties at work *)

(** ** Claims that race *)

(** C1 at work: two callers, limit 2 each, five pending jobs. *)
Lemma concurrent_claims_disjoint_witness :
  let w := Demo.world_of Demo.five_pending Demo.quiet in
  let c1 := Claim Demo.deps Demo.plain 2 w in
  let c2 := Claim Demo.deps Demo.plain 2 (fst c1) in
  wf_table (tbl w)
  /\ claim_race Demo.deps Demo.plain w 2 2 (Demo.claimed c1) (Demo.claimed c2) (fst c2)
  /\ NoDup (map ID (Demo.claimed c1) ++ map ID (Demo.claimed c2))
  /\ Z.of_nat (List.length (map ID (Demo.claimed c1) ++ map ID (Demo.claimed c2)))
     = Z.min 5 (2 + 2).
Proof.
  intros w c1 c2.
  assert (Hwf : wf_table (tbl w)) by reflexivity.
  assert (Hr : claim_race Demo.deps Demo.plain w 2 2
                 (Demo.claimed c1) (Demo.claimed c2) (fst c2)).
  { apply race_first_second with (w1 := fst c1); reflexivity. }
  split; [exact Hwf|]. split; [exact Hr|].
  destruct (concurrent_claims_disjoint Demo.deps Demo.plain w (fst c2) 2 2
              (Demo.claimed c1) (Demo.claimed c2) Hwf Hr) as (_ & Hn & Hs).
  split; [exact Hn|]. apply Hs; [lia|lia|reflexivity].
Defined.

(** C1 as the spec states it fails on the size of the union.  With a
    negative limit: the first caller, with limit -1, receives all five
    jobs, and five is not [min (5, -1 + 3)].  With the clock moving between
    the two statements: of one job that is due and one that falls due a
    second later, two callers with limit 1 receive both, and two is not
    [min (1, 1 + 1)]. *)
Lemma concurrent_claims_union_size_fails :
  let w := Demo.world_of Demo.five_pending Demo.quiet in
  let c1 := Claim Demo.deps Demo.plain (-1) w in
  let c2 := Claim Demo.deps Demo.plain 3 (fst c1) in
  let v := Demo.world_of Demo.due_soon Demo.ticking in
  let d1 := Claim Demo.deps Demo.plain 1 v in
  let d2 := Claim Demo.deps Demo.plain 1 (fst d1) in
  (wf_table (tbl w) /\ same_second w
   /\ claim_race Demo.deps Demo.plain w (-1) 3 (Demo.claimed c1) (Demo.claimed c2) (fst c2)
   /\ map ID (Demo.claimed c1) = [1; 2; 3; 4; 5]
   /\ map ID (Demo.claimed c2) = []
   /\ Z.of_nat (List.length (map ID (Demo.claimed c1) ++ map ID (Demo.claimed c2)))
      <> Z.min (Z.of_nat (List.length (eligible_rows (now_text w) (tbl w)))) (-1 + 3))
  /\ (wf_table (tbl v)
      /\ claim_race Demo.deps Demo.plain v 1 1 (Demo.claimed d1) (Demo.claimed d2) (fst d2)
      /\ map ID (Demo.claimed d1) = [1]
      /\ map ID (Demo.claimed d2) = [2]
      /\ List.length (eligible_rows (now_text v) (tbl v)) = 1%nat
      /\ Z.of_nat (List.length (map ID (Demo.claimed d1) ++ map ID (Demo.claimed d2)))
         <> Z.min (Z.of_nat (List.length (eligible_rows (now_text v) (tbl v)))) (1 + 1)).
Proof.
  intros w c1 c2 v d1 d2. split.
  - split; [reflexivity|]. split; [reflexivity|]. split.
    + apply race_first_second with (w1 := fst c1); reflexivity.
    + split; [reflexivity|]. split; [reflexivity|]. vm_compute. discriminate.
  - split; [reflexivity|]. split.
    + apply race_first_second with (w1 := fst d1); reflexivity.
    + split; [reflexivity|]. split; [reflexivity|]. split; [reflexivity|].
      vm_compute. discriminate.
Qed.

(** ** The recurrence transaction *)

(** C2 at work: the engine fails the successor insert (the third statement
    of the call); the committed table is the one before the call. *)
Lemma MarkRecurrentCompleted_all_or_nothing_witness :
  let w := Demo.world_of Demo.five_pending (Demo.failing_at 2 (SQLITE_BUSY, "database is locked")) in
  let r := MarkRecurrentCompleted Demo.deps Demo.plain 1 Demo.email w in
  (exists e, snd r = Returns (Some e))
  /\ committed (fst r) = Demo.five_pending
  /\ txn (fst r) = None /\ tbl (fst r) = Demo.five_pending.
Proof.
  intros w r.
  destruct (MarkRecurrentCompleted_all_or_nothing Demo.deps Demo.plain 1 Demo.email
              w (fst r) (snd r) eq_refl eq_refl eq_refl eq_refl) as (H & _).
  destruct H as (He & Hc & Hr).
  - right. vm_compute. discriminate.
  - split; [exact He|]. split; [exact Hc|]. apply Hr. reflexivity.
Defined.

(** C2 as the spec states it fails where the statement that closes the
    transaction fails.  The engine fails the successor insert and then the
    ROLLBACK, whose error the call discards: the call returns the insert's
    error, and on the connection job 1 is completed, not in its pre-call
    state, inside a transaction that is still open.  The engine fails the
    COMMIT after both statements succeeded: the call returns an error,
    nothing is rolled back, and neither the completion nor the successor is
    in the committed table. *)
Lemma MarkRecurrentCompleted_closing_statement_fails :
  let busy := (SQLITE_BUSY, "database is locked") in
  let w := Demo.world_of Demo.five_pending (Demo.failing_from 2 busy) in
  let r := MarkRecurrentCompleted Demo.deps Demo.plain 1 Demo.email w in
  let v := Demo.world_of Demo.five_pending (Demo.failing_at 3 busy) in
  let q := MarkRecurrentCompleted Demo.deps Demo.plain 1 Demo.email v in
  (snd r = Returns (Some (Wrapped "failed to re-insert job in transaction"
                            (sqlite_error busy)))
   /\ map status (tbl w)
      = ["pending"; "pending"; "pending"; "pending"; "pending"]%string
   /\ map status (tbl (fst r))
      = ["completed"; "pending"; "pending"; "pending"; "pending"]%string
   /\ txn (fst r) = Some Demo.five_pending)
  /\ (snd q = Returns (Some (Wrapped
                 "failed to commit transaction for mark recurrent completed"
                 (sqlite_error busy)))
      /\ map id (tbl (fst q)) = [1; 2; 3; 4; 5; 6]
      /\ committed (fst q) = Demo.five_pending
      /\ txn (fst q) = Some Demo.five_pending).
Proof.
  intros busy w r v q. repeat split; reflexivity.
Qed.

(** ** Selection *)


(** C4 at work: the job inserted with no attempts comes back from its
    first claim with one. *)
Lemma attempts_incremented_by_Claim_only_witness :
  let w := Demo.inserted in
  let c := Demo.first_claim in
  exists j r r',
    Demo.claimed c = [j] /\
    In r (tbl w) /\ id r = ID j /\ attempts r = 0 /\
    Attempts j = attempts r + 1 /\ Status j = StatusProcessing /\
    In r' (tbl (fst c)) /\ id r' = id r /\
    attempts r' = attempts r + 1 /\ status r' = StatusProcessing.
Proof.
  intros w c.
  assert (Hc : Claim Demo.deps Demo.plain 1 w
               = (fst c, Returns (Some (Demo.claimed c), None))) by reflexivity.
  destruct (Demo.claimed c) as [|j l] eqn:Ej; [discriminate Ej|].
  destruct (proj1 (attempts_incremented_by_Claim_only Demo.deps Demo.plain)
              1 w (fst c) (j :: l) j Hc (or_introl eq_refl))
    as (r & r' & H1 & H2 & H3 & H4 & H5 & H6 & H7 & H8).
  assert (El : l = []) by (vm_compute in Ej; now inversion Ej).
  assert (H0 : attempts r = 0) by (destruct H1 as [<-|[]]; reflexivity).
  assert (Hg : go_int (attempts r))
    by (rewrite H0; unfold go_int, int64_min, int64_max; lia).
  assert (Hlt : attempts r < int64_max) by (rewrite H0; reflexivity).
  destruct (H8 Hg Hlt) as (H9 & H10).
  exists j, r, r'. subst l. repeat split; assumption.
Defined.

(** C4 as the spec states it fails at the greatest count: a job submitted
    with 2^63 - 1 attempts, which [InsertJob] stores as given, comes back
    from [Claim] with that same count, not with one more. *)
Lemma Claim_does_not_count_beyond_int64 :
  let w := fst (InsertJob Demo.deps Demo.plain Demo.tireless
                  (Demo.world_of [] Demo.quiet)) in
  let c := Claim Demo.deps Demo.plain 1 w in
  map attempts (tbl w) = [9223372036854775807]
  /\ snd c = Returns (Some (Demo.claimed c), None)
  /\ map ID (Demo.claimed c) = map id (tbl w)
  /\ map Attempts (Demo.claimed c) = [9223372036854775807]
  /\ ~ (forall j r, In j (Demo.claimed c) -> In r (tbl w) -> id r = ID j ->
                    Attempts j = attempts r + 1).
Proof.
  intros w c. split; [reflexivity|]. split; [reflexivity|].
  split; [reflexivity|]. split; [reflexivity|].
  intros H.
  assert (Hj : In (nth 0 (Demo.claimed c) Demo.email) (Demo.claimed c))
    by (left; reflexivity).
  assert (Hr : In (nth 0 (tbl w) (Demo.stored 0 "" "" "")) (tbl w))
    by (left; reflexivity).
  specialize (H _ _ Hj Hr eq_refl). vm_compute in H. discriminate H.
Qed.

(** ** The limit *)

(** C5 as the spec states it fails for a negative limit: [Claim (-1)]
    returns five jobs, which is not "at most -1". *)
Lemma Claim_negative_limit_unbounded :
  let w := Demo.world_of Demo.five_pending Demo.quiet in
  let c := Claim Demo.deps Demo.plain (-1) w in
  snd c = Returns (Some (Demo.claimed c), None)
  /\ List.length (Demo.claimed c) = 5%nat
  /\ ~ (Z.of_nat (List.length (Demo.claimed c)) <= -1).
Proof.
  intros w c. split; [reflexivity|]. split; [reflexivity|].
  vm_compute. intros H. apply H. reflexivity.
Qed.

(** C5, as amended, at work: a claim of two of five pending jobs, and a
    claim on a table where nothing is eligible. *)
Lemma Claim_bounded_ascending_witness :
  let w := Demo.world_of Demo.five_pending Demo.quiet in
  let c := Claim Demo.deps Demo.plain 2 w in
  let idle := Demo.world_of [Demo.stored 1 "completed" "" ""] Demo.quiet in
  strictly_ascending (map ID (Demo.claimed c)) = true
  /\ Z.of_nat (List.length (Demo.claimed c)) <= 2
  /\ exists w', Claim Demo.deps Demo.plain 2 idle = (w', Returns (Some [], None)).
Proof.
  intros w c idle.
  destruct (Claim_bounded_ascending Demo.deps Demo.plain 2 w eq_refl eq_refl eq_refl)
    as [_ H].
  destruct (H (fst c) (Demo.claimed c) eq_refl) as (Ha & Hb & _).
  split; [exact Ha|]. split; [apply Hb; lia|].
  exact (proj1 (Claim_bounded_ascending Demo.deps Demo.plain 2 idle
                  eq_refl eq_refl eq_refl) eq_refl).
Defined.

(** ** InsertJob *)

(** C6 as the spec states it fails: a job without [job_type] is not
    rejected before storage.  Even under a schema that checks [job_type],
    the INSERT is handed to the engine, and the error is the engine's;
    under a schema that checks nothing, the row is stored. *)
Lemma InsertJob_empty_job_type_reaches_storage :
  let w := Demo.world_of [] Demo.quiet in
  let nameless := Demo.job "" "{to:x}" in
  let strict := InsertJob Demo.deps Demo.strict nameless w in
  let plain := InsertJob Demo.deps Demo.plain nameless w in
  JobType nameless = ""
  /\ ~ rejected_before_storage w strict
  /\ log (fst strict) = [insert_stmt Demo.deps nameless]
  /\ snd strict = Returns (Some (Wrapped "queue insert failed"
                    (SqliteError SQLITE_CONSTRAINT_CHECK "CHECK constraint failed")))
  /\ ~ rejected_before_storage w plain
  /\ snd plain = Returns None
  /\ map job_type (tbl (fst plain)) = [""].
Proof.
  intros w nameless strict plain.
  split; [reflexivity|]. split.
  { intros (_ & Hl & _). vm_compute in Hl. discriminate Hl. }
  split; [reflexivity|]. split; [reflexivity|]. split.
  { intros (_ & Hl & _). vm_compute in Hl. discriminate Hl. }
  split; reflexivity.
Qed.

(** C6, as amended, at work, on the same job under the checking schema. *)
Lemma InsertJob_rejection_is_the_engines_witness :
  let w := Demo.world_of [] Demo.quiet in
  let nameless := Demo.job "" "{to:x}" in
  let r := InsertJob Demo.deps Demo.strict nameless w in
  log (fst r) = [insert_stmt Demo.deps nameless]
  /\ snd r = Returns (Some (Wrapped "queue insert failed"
               (SqliteError SQLITE_CONSTRAINT_CHECK "CHECK constraint failed")))
  /\ tbl (fst r) = [].
Proof.
  intros w nameless r.
  destruct (InsertJob_rejection_is_the_engines Demo.deps Demo.strict nameless
              w (fst r) (snd r) eq_refl eq_refl) as (Hl & _ & He).
  split; [exact Hl|].
  exact (He (SQLITE_CONSTRAINT_CHECK, "CHECK constraint failed")
            (or_intror (conj eq_refl eq_refl))).
Defined.

(** C7 as the spec states it fails: inserting a payload that is already
    queued, under a schema with a uniqueness constraint on [payload], does
    not fail with [ErrConstraintUnique]; the call returns the engine's
    error in the wrapper it puts around every storage error, here next to a
    busy database. *)
Lemma InsertJob_duplicate_is_not_ErrConstraintUnique :
  let w := Demo.world_of Demo.five_pending Demo.quiet in
  let busy := Demo.world_of Demo.five_pending
                (Demo.failing_at 0 (SQLITE_BUSY, "database is locked")) in
  let dup := InsertJob Demo.deps Demo.strict Demo.email w in
  let other := InsertJob Demo.deps Demo.strict Demo.email busy in
  ~ fails_with_duplicate_error dup
  /\ snd dup = Returns (Some (Wrapped "queue insert failed"
                 (SqliteError SQLITE_CONSTRAINT_UNIQUE
                    "UNIQUE constraint failed: job_queue.payload")))
  /\ snd other = Returns (Some (Wrapped "queue insert failed"
                   (SqliteError SQLITE_BUSY "database is locked"))).
Proof.
  intros w busy dup other. split.
  - intros (e & He & Hi). vm_compute in He. inversion He; subst e.
    vm_compute in Hi. discriminate Hi.
  - split; reflexivity.
Qed.

(** C7, as amended, at work on the duplicate payload. *)
Lemma InsertJob_wraps_every_storage_error_witness :
  let w := Demo.world_of Demo.five_pending Demo.quiet in
  let e := (SQLITE_CONSTRAINT_UNIQUE, "UNIQUE constraint failed: job_queue.payload") in
  let err := Wrapped "queue insert failed" (SqliteError (fst e) (snd e)) in
  snd (InsertJob Demo.deps Demo.strict Demo.email w) = Returns (Some err)
  /\ err <> ErrConstraintUnique
  /\ errors_Is err ErrConstraintUnique = false
  /\ Unwrap err = Some (SqliteError (fst e) (snd e)).
Proof.
  intros w e err.
  exact (InsertJob_wraps_every_storage_error Demo.deps Demo.strict Demo.email w e
           eq_refl (or_intror (conj eq_refl eq_refl))).
Defined.

(** ** Completion, failure and claims *)

(** C8 as the spec states it fails: the job that was claimed and failed
    with "smtp down" comes back from its second claim with that message
    still in [last_error], in the returned job and in the table. *)
Lemma Claim_keeps_last_error :
  let c := Demo.second_claim in
  map status (tbl Demo.failed_once) = [StatusFailed]
  /\ snd c = Returns (Some (Demo.claimed c), None)
  /\ map ID (Demo.claimed c) = [1]
  /\ map Attempts (Demo.claimed c) = [2]
  /\ map LastError (Demo.claimed c) = ["smtp down"]
  /\ map last_error (tbl (fst c)) = ["smtp down"]
  /\ ~ (forall j, In j (Demo.claimed c) -> LastError j = "").
Proof.
  intros c. repeat (split; [reflexivity|]).
  intros H.
  assert (Hj : exists j, In j (Demo.claimed c) /\ LastError j = "smtp down").
  { vm_compute. eexists. split; [left; reflexivity|reflexivity]. }
  destruct Hj as (j & Hin & Hle). rewrite (H j Hin) in Hle. discriminate Hle.
Qed.

(** C8, as amended, at work on the same second claim, and on a completion
    of the failed job. *)
Lemma last_error_cleared_by_completion_not_by_claim_witness :
  let c := Demo.second_claim in
  let done := MarkCompleted Demo.plain 1 Demo.failed_once in
  map last_error (tbl (fst c)) = map last_error (tbl Demo.failed_once)
  /\ (forall r', In r' (tbl (fst done)) -> id r' = 1 -> last_error r' = "").
Proof.
  intros c done.
  destruct (last_error_cleared_by_completion_not_by_claim Demo.deps Demo.plain)
    as [Hm Hc].
  split.
  - exact (proj1 (Hc 1 Demo.failed_once (fst c) (Demo.claimed c) eq_refl)).
  - exact (Hm 1 Demo.failed_once (fst done) eq_refl).
Defined.



(** C10 at work: the inserted job is claimed, completed and then failed;
    it ends as failed with the completion's timestamp. *)
Lemma MarkFailed_keeps_completed_at_witness :
  let w := fst Demo.first_claim in
  let w1 := fst (MarkCompleted Demo.plain 1 w) in
  let w2 := fst (MarkFailed Demo.plain 1 "too late" w1) in
  exists r2,
    In r2 (tbl w2) /\ id r2 = 1 /\
    status r2 = StatusFailed /\ last_error r2 = "too late" /\
    completed_at r2 = "2025-04-15T12:00:00Z" /\ completed_at r2 <> "".
Proof.
  intros w w1 w2.
  destruct (MarkFailed_keeps_completed_at Demo.plain) as [_ H].
  assert (Hr : In (set_claimed (now_text Demo.inserted)
                     (job_row Demo.deps Demo.plain
                        (now_text (Demo.world_of [] Demo.quiet)) [] Demo.email))
                  (tbl w)) by (left; reflexivity).
  exact (H 1 "too late" w w1 w2 eq_refl eq_refl _ Hr eq_refl).
Defined.

(** * Further properties of the queue *)

Lemma leb_trans (a b c : string) :
  (a <=? b)%string = true -> (b <=? c)%string = true -> (a <=? c)%string = true.
Proof.
  unfold String.leb. revert b c.
  induction a as [|ca a IH]; intros [|cb b] [|cc c]; cbn [String.compare];
    try reflexivity; try discriminate.
  unfold Ascii.compare.
  destruct (N.compare_spec (N_of_ascii ca) (N_of_ascii cb)) as [E1|L1|G1];
    destruct (N.compare_spec (N_of_ascii cb) (N_of_ascii cc)) as [E2|L2|G2];
    destruct (N.compare_spec (N_of_ascii ca) (N_of_ascii cc)) as [E3|L3|G3];
    try reflexivity; try discriminate; try lia.
  apply IH.
Qed.

Section QueueUse.

Variable G : GoDeps.
Variable S : schema.

(** X1. Starting from an empty table, whatever calls a worker loop makes,
    in whatever order and with whatever failures of the engine, the rows of
    the table keep distinct [id]s in strictly ascending order. *)
Theorem ids_stay_ascending (os : list (op G)) (w : world) :
  tbl w = [] -> wf_table (tbl (run_ops G S os w)).
Proof.
  intros He. assert (Hwf : wf_table (tbl w)) by (rewrite He; reflexivity).
  clear He. revert w Hwf. induction os as [|o os IH]; intros w Hwf; cbn.
  - exact Hwf.
  - apply IH, run_op_keeps_wf, Hwf.
Qed.

Lemma update_where_id_missing (f : row -> row) (jobID : Z) (t : table) :
  (forall r, In r t -> id r <> jobID) -> update_where_id f jobID t = t.
Proof.
  intros H. unfold update_where_id. rewrite <- (map_id t) at 2.
  apply map_ext_in. intros r Hr. destruct (id r =? jobID) eqn:E; [|reflexivity].
  apply Z.eqb_eq in E. elim (H r Hr E).
Qed.

(** X2. An [id] that no row carries is no error: with the engine letting
    the statement through, [MarkCompleted] and [MarkFailed] return no error
    and leave the table exactly as it was. *)
Theorem marking_a_missing_job_is_a_no_op (jobID : Z) (errMsg : string) (w : world) :
  pool_open w = true ->
  fault (next_event w) = None ->
  (forall r, In r (tbl w) -> id r <> jobID) ->
  snd (MarkCompleted S jobID w) = Returns None
  /\ tbl (fst (MarkCompleted S jobID w)) = tbl w
  /\ snd (MarkFailed S jobID errMsg w) = Returns None
  /\ tbl (fst (MarkFailed S jobID errMsg w)) = tbl w.
Proof.
  intros Hp Hf Hm. rewrite MarkCompleted_cases, MarkFailed_cases, Hp, Hf. cbn.
  rewrite !update_where_id_missing by assumption. repeat split.
Qed.


End QueueUse.

Section QueueLifecycle.

Variable G : GoDeps.
Variable S : schema.

Lemma update_where_id_twice (f g h : row -> row) (jobID : Z) (t : table) :
  (forall r, id (f r) = id r) ->
  (forall r, g (f r) = h r) ->
  update_where_id g jobID (update_where_id f jobID t) = update_where_id h jobID t.
Proof.
  intros Hid Hgf. unfold update_where_id. rewrite map_map. apply map_ext.
  intros r. destruct (id r =? jobID) eqn:E.
  - rewrite Hid, E. apply Hgf.
  - now rewrite E.
Qed.

(** X4. A completion erases what an earlier failure or completion of the
    same job wrote: when [MarkFailed] or [MarkCompleted] and then
    [MarkCompleted] succeed on one [id], the table is what the second call
    alone would have made of the table before the first. *)
Theorem completion_overrides_earlier_marks
    (jobID : Z) (errMsg : string) (w w1 w2 : world) :
  MarkFailed S jobID errMsg w = (w1, Returns None)
  \/ MarkCompleted S jobID w = (w1, Returns None) ->
  MarkCompleted S jobID w1 = (w2, Returns None) ->
  tbl w2 = update_where_id (set_completed (now_text w1)) jobID (tbl w).
Proof.
  intros H1 H2. apply MarkCompleted_returns in H2 as (H2 & _). rewrite H2.
  destruct H1 as [H1|H1].
  - apply MarkFailed_returns in H1. rewrite H1.
    apply update_where_id_twice; reflexivity.
  - apply MarkCompleted_returns in H1 as (H1 & _). rewrite H1.
    apply update_where_id_twice; reflexivity.
Qed.

Lemma Forall2_scanned_row (rows : list row) (jobs : list (Job G)) (r : row) :
  Forall2 scanned rows jobs -> In r rows -> exists j, In j jobs /\ scanned r j.
Proof.
  induction 1 as [|r' j rows jobs Hrj _ IH]; intros Hin; [contradiction|].
  destruct Hin as [->|Hin].
  - exists j. split; [now left|assumption].
  - destruct (IH Hin) as [j' [H1 H2]]. exists j'. split; [now right|assumption].
Qed.

(** What a claim without bound returns for a row that is eligible. *)
Lemma unbounded_claim_takes (limit : Z) (w w' : world) (jobs : list (Job G)) (r : row) :
  wf_table (tbl w) ->
  Claim G S limit w = (w', Returns (Some jobs, None)) ->
  limit < 0 ->
  In r (tbl w) -> eligible (now_text w) r = true ->
  exists j, In j jobs /\ scanned (set_claimed (now_text w) r) j.
Proof.
  intros Hwf H Hl Hr He. pose proof (Claim_jobs_wf G S limit w w' jobs Hwf H) as HF.
  rewrite (sql_limit_negative _ _ Hl) in HF.
  apply (Forall2_scanned_row _ _ _ HF). apply in_map.
  unfold eligible_rows. apply filter_In. now split.
Qed.

(** The row behind a job that a claim on a well-formed table returned. *)
Lemma claimed_job_row (limit : Z) (w w' : world) (jobs : list (Job G)) (j : Job G) :
  wf_table (tbl w) ->
  Claim G S limit w = (w', Returns (Some jobs, None)) ->
  In j jobs ->
  exists r, In r (tbl w) /\ eligible (now_text w) r = true
            /\ scanned (set_claimed (now_text w) r) j
            /\ In (set_claimed (now_text w) r) (tbl w').
Proof.
  intros Hwf H Hj. pose proof (Claim_jobs_wf G S limit w w' jobs Hwf H) as HF.
  destruct (Forall2_scanned_In G _ _ j HF Hj) as (rr & Hrr & Hs).
  apply in_map_iff in Hrr as (r & <- & Hr). pose proof Hr as Hr0.
  apply In_sql_limit in Hr. apply filter_In in Hr as (Hr & He).
  exists r. repeat split; try assumption.
  apply Claim_returns in H as (_ & _ & Ht & _). rewrite Ht.
  rewrite (update_claim_wf _ _ _ Hwf). cbn [fst]. apply in_map_iff. exists r.
  split; [|assumption].
  assert (E : id_in (map id (sql_limit limit (eligible_rows (now_text w) (tbl w)))) r = true).
  { apply id_in_In. apply in_map. exact Hr0. }
  now rewrite E.
Qed.

(** X5. Retries have no ceiling in the queue: a job that [Claim] returned
    and [MarkFailed] then failed is returned again by the next claim without
    bound (the clock not having gone back), with the failure message and,
    its count being strictly inside the 64-bit range, with one more
    attempt, however its [attempts] compare with its [max_attempts]. *)
Theorem failed_job_is_claimed_again
    (limit limit' : Z) (errMsg : string) (w w1 w2 w3 : world)
    (jobs jobs' : list (Job G)) (j : Job G) :
  wf_table (tbl w) ->
  Claim G S limit w = (w1, Returns (Some jobs, None)) ->
  In j jobs ->
  int64_min < Attempts j < int64_max ->
  MarkFailed S (ID j) errMsg w1 = (w2, Returns None) ->
  (now_text w <=? now_text w2)%string = true ->
  limit' < 0 ->
  Claim G S limit' w2 = (w3, Returns (Some jobs', None)) ->
  exists j', In j' jobs' /\ ID j' = ID j /\ Attempts j' = Attempts j + 1
             /\ MaxAttempts j' = MaxAttempts j
             /\ LastError j' = errMsg /\ Status j' = StatusProcessing.
Proof.
  intros Hwf H1 Hj Hin H2 Hclock Hl H3.
  destruct (claimed_job_row limit w w1 jobs j Hwf H1 Hj) as (r & Hr & He & Hs & Hr1).
  apply scan_job_fields in Hs as (Hid & _ & _ & _ & _ & Hat & Hma & _).
  cbn [id attempts max_attempts set_claimed] in Hid, Hat, Hma.
  assert (Hex : Attempts j = attempts r + 1).
  { rewrite Hat in Hin. rewrite Hat. now apply column_int64_inside. }
  assert (Hwf1 : wf_table (tbl w1)).
  { pose proof (Claim_keeps_wf G S limit w Hwf) as K. now rewrite H1 in K. }
  apply MarkFailed_returns in H2.
  assert (Hwf2 : wf_table (tbl w2)).
  { rewrite H2. unfold wf_table. now rewrite update_where_id_ids. }
  set (r2 := set_failed (now_text w1) errMsg (set_claimed (now_text w) r)).
  assert (Hr2 : In r2 (tbl w2)).
  { rewrite H2. apply update_where_id_hit; [exact Hr1|]. cbn. now symmetry. }
  assert (He2 : eligible (now_text w2) r2 = true).
  { apply eligible_iff. split; [now right|]. cbn.
    apply eligible_iff in He as (_ & Hle). exact (leb_trans _ _ _ Hle Hclock). }
  destruct (unbounded_claim_takes limit' w2 w3 jobs' r2 Hwf2 H3 Hl Hr2 He2)
    as (j' & Hj' & Hs').
  apply scan_job_fields in Hs' as (Hid' & _ & _ & _ & Hst' & Hat' & Hma' & _ & Hle').
  cbn [id status attempts max_attempts last_error set_claimed set_failed r2]
    in Hid', Hst', Hat', Hma', Hle'.
  exists j'. split; [assumption|]. split; [congruence|]. split.
  - rewrite Hat'. rewrite column_int64_exact; [lia|]. unfold go_int. lia.
  - split; [congruence|]. split; assumption.
Qed.

(** X6. A completed job is not handed out again: after [MarkCompleted]
    succeeded for an [id] on a well-formed table, the next [Claim] returns
    no job with that [id], whatever its limit and the time. *)
Theorem completed_job_is_not_claimed
    (jobID limit : Z) (w w1 w2 : world) (jobs : list (Job G)) :
  wf_table (tbl w) ->
  MarkCompleted S jobID w = (w1, Returns None) ->
  Claim G S limit w1 = (w2, Returns (Some jobs, None)) ->
  ~ In jobID (map ID jobs).
Proof.
  intros Hwf H1 H2 Hin. apply MarkCompleted_returns in H1 as (H1 & _).
  assert (Hwf1 : wf_table (tbl w1)).
  { rewrite H1. unfold wf_table. now rewrite update_where_id_ids. }
  apply in_map_iff in Hin as (j & Hid & Hj).
  destruct (claimed_job_row limit w1 w2 jobs j Hwf1 H2 Hj) as (r & Hr & He & Hs & _).
  apply scan_job_fields in Hs as (Hidj & _). cbn in Hidj.
  rewrite H1 in Hr. apply In_update_where_id in Hr as (r0 & _ & ->).
  destruct (id r0 =? jobID) eqn:E.
  - discriminate He.
  - apply Z.eqb_neq in E. congruence.
Qed.

(** X7. Claiming with limit 0 takes nothing: with the engine letting the
    statement through, [Claim 0] returns the empty, non-nil slice and no
    error, and leaves the table as it was. *)
Theorem claim_of_nothing (w : world) :
  pool_open w = true ->
  fault (next_event w) = None ->
  snd (Claim G S 0 w) = Returns (Some [], None)
  /\ tbl (fst (Claim G S 0 w)) = tbl w.
Proof.
  intros Hp Hf. unfold Claim, ExecRows, engine_step. rewrite Hp, Hf.
  cbn [run_dml]. unfold update_claim, select_claimable, sql_limit. cbn [Z.ltb Z.compare Z.to_nat firstn].
  rewrite filter_id_in_nil. cbn. split; [reflexivity|].
  rewrite <- (map_id (tbl w)) at 2. apply map_ext. reflexivity.
Qed.

(** X8. A call of [InsertJob], [MarkCompleted] or [MarkFailed] that returns
    an error has changed nothing in the table. *)
Theorem failed_call_changes_nothing (w : world) (e : error) :
  (forall job, snd (InsertJob G S job w) = Returns (Some e) ->
               tbl (fst (InsertJob G S job w)) = tbl w)
  /\ (forall jobID, snd (MarkCompleted S jobID w) = Returns (Some e) ->
                    tbl (fst (MarkCompleted S jobID w)) = tbl w)
  /\ (forall jobID errMsg, snd (MarkFailed S jobID errMsg w) = Returns (Some e) ->
                           tbl (fst (MarkFailed S jobID errMsg w)) = tbl w).
Proof.
  split; [|split].
  - intros job. rewrite InsertJob_cases. destruct (pool_open w); [|reflexivity].
    destruct (fault (next_event w)); [reflexivity|].
    rewrite run_dml_insert. destruct (check_insert S _ _); cbn; [reflexivity|discriminate].
  - intros jobID. rewrite MarkCompleted_cases. destruct (pool_open w); [|reflexivity].
    destruct (fault (next_event w)); cbn; [reflexivity|discriminate].
  - intros jobID errMsg. rewrite MarkFailed_cases. destruct (pool_open w); [|reflexivity].
    destruct (fault (next_event w)); cbn; [reflexivity|discriminate].
Qed.

Lemma scan_job_recurrent (r : row) (j : Job G) :
  scanned r j -> Recurrent j = negb (recurrent r =? 0).
Proof.
  unfold scanned, scan_job, parse_unless_empty. intros H.
  repeat match type of H with
         | context [match ?x with _ => _ end] => destruct x; try discriminate
         end;
  inversion H; subst; reflexivity.
Qed.

(** X9. What goes in comes out: when [InsertJob] succeeds for a job that is
    due at once (zero [ScheduledFor]) under a schema whose default status is
    [pending], the next claim without bound on the well-formed table returns
    a job with the new row's [id] and the inserted [JobType], [Payload],
    [PayloadExtra], [MaxAttempts] and [Recurrent], in processing, with one
    attempt more than the job was inserted with; the job's two counts are
    values of Go's [int], the attempts below the greatest. *)
Theorem inserted_job_is_claimed
    (job : Job G) (limit : Z) (w w1 w2 : world) (jobs : list (Job G)) :
  wf_table (tbl w) ->
  status (defaults S (now_text w)) = StatusPending ->
  IsZero G (ScheduledFor job) = true ->
  go_int (Attempts job) -> Attempts job < int64_max ->
  go_int (MaxAttempts job) ->
  InsertJob G S job w = (w1, Returns None) ->
  limit < 0 ->
  Claim G S limit w1 = (w2, Returns (Some jobs, None)) ->
  exists j, In j jobs
    /\ ID j = next_rowid (tbl w)
    /\ JobType j = JobType job /\ Payload j = Payload job
    /\ PayloadExtra j = PayloadExtra job
    /\ MaxAttempts j = MaxAttempts job /\ Recurrent j = Recurrent job
    /\ Status j = StatusProcessing /\ Attempts j = Attempts job + 1.
Proof.
  intros Hwf Hst Hz Hga Hlt Hgm Hi Hl Hc.
  set (r := job_row G S (now_text w) (tbl w) job).
  assert (Ht1 : tbl w1 = (tbl w ++ [r])%list).
  { revert Hi. rewrite InsertJob_cases. destruct (pool_open w); [|discriminate].
    destruct (fault (next_event w)); [discriminate|].
    rewrite run_dml_insert. fold r. destruct (check_insert S _ _); [discriminate|].
    intros H; inversion H; subst. reflexivity. }
  assert (Hwf1 : wf_table (tbl w1)).
  { rewrite Ht1. apply wf_table_add; [assumption|reflexivity]. }
  assert (Hr : In r (tbl w1)) by (rewrite Ht1; apply in_or_app; right; now left).
  assert (He : eligible (now_text w1) r = true).
  { apply eligible_iff. split.
    - left. exact Hst.
    - unfold r, job_row, inserted_row. cbn [scheduled_for]. rewrite Hz. apply leb_empty. }
  destruct (unbounded_claim_takes limit w1 w2 jobs r Hwf1 Hc Hl Hr He) as (j & Hj & Hs).
  pose proof (scan_job_recurrent _ _ Hs) as Hrec.
  apply scan_job_fields in Hs as (Hid & Hjt & Hpl & Hpe & Hstj & Hat & Hma & _).
  cbn -[column_int64] in Hid, Hjt, Hpl, Hpe, Hstj, Hat, Hma, Hrec.
  rewrite (column_int64_exact (MaxAttempts job) Hgm) in Hma.
  rewrite column_int64_exact in Hat by (unfold go_int in *; lia).
  exists j. repeat split; try assumption.
  rewrite Hrec. now destruct (Recurrent job).
Qed.

End QueueLifecycle.

(** * The users table *)

Lemma distinct_filter_at_most_one {R : Type} (key : R -> string) (k : string) (l : list R) :
  distinct (map key l) = true ->
  (List.length (filter (fun r => (key r =? k)%string) l) <= 1)%nat.
Proof.
  induction l as [|r l IH]; cbn; [lia|].
  intros H. apply andb_true_iff in H as (Hn & Hd). specialize (IH Hd).
  destruct (key r =? k)%string eqn:E; [|exact IH].
  apply String.eqb_eq in E. subst k. cbn.
  destruct (filter (fun r0 => (key r0 =? key r)%string) l) as [|x l'] eqn:F; [cbn; lia|].
  exfalso. assert (Hx : In x (filter (fun r0 => (key r0 =? key r)%string) l))
    by (rewrite F; now left).
  apply filter_In in Hx as (Hx & Ex). apply String.eqb_eq in Ex.
  apply negb_true_iff in Hn.
  assert (K : existsb (String.eqb (key r)) (map key l) = true).
  { apply existsb_exists. exists (key x). split; [apply in_map, Hx|].
    apply String.eqb_eq. now symmetry. }
  congruence.
Qed.

Lemma distinct_inj {R : Type} (key : R -> string) (l : list R) (a b : R) :
  distinct (map key l) = true -> In a l -> In b l -> key a = key b -> a = b.
Proof.
  induction l as [|r l IH]; cbn; [contradiction|].
  intros H Ha Hb Hk. apply andb_true_iff in H as (Hn & Hd).
  apply negb_true_iff in Hn.
  assert (K : forall x, In x l -> key x = key r -> False).
  { intros x Hx Hx'. assert (E : existsb (String.eqb (key r)) (map key l) = true).
    { apply existsb_exists. exists (key x). split; [apply in_map, Hx|].
      apply String.eqb_eq. now symmetry. }
    congruence. }
  destruct Ha as [->|Ha], Hb as [->|Hb].
  - reflexivity.
  - exfalso. apply (K b Hb). now symmetry.
  - exfalso. apply (K a Ha). assumption.
  - apply IH; assumption.
Qed.

Lemma filter_map_same {R : Type} (p : R -> bool) (g : R -> R) (l : list R) :
  (forall r, p (g r) = p r) -> filter p (map g l) = map g (filter p l).
Proof.
  intros H. induction l as [|r l IH]; [reflexivity|]. cbn.
  rewrite H. destruct (p r); cbn; now rewrite IH.
Qed.

Lemma filter_none {R : Type} (p : R -> bool) (l : list R) :
  (forall r, In r l -> p r = false) -> filter p l = [].
Proof.
  induction l as [|r l IH]; intros H; [reflexivity|]. cbn.
  rewrite (H r (or_introl eq_refl)). apply IH. intros r' Hr'. apply H. now right.
Qed.

(** An upsert into a table with distinct emails returns one row, the only
    row of the new table with the email; it is the new row when the email
    was free, and otherwise the rewritten row that had it. *)
Lemma users_upsert_one
    (f : UsersTable.row -> UsersTable.row -> UsersTable.row)
    (new : UsersTable.row) (t : UsersTable.table) :
  UsersTable.emails_distinct t = true ->
  (forall old, UsersTable.email (f old new) = UsersTable.email old) ->
  exists r1,
    snd (UsersTable.upsert f new t) = [r1]
    /\ filter (UsersTable.has_email (UsersTable.email new))
              (fst (UsersTable.upsert f new t)) = [r1]
    /\ (((forall r, In r t -> UsersTable.email r <> UsersTable.email new)
         /\ r1 = new /\ fst (UsersTable.upsert f new t) = (t ++ [new])%list)
        \/ (exists r0, In r0 t /\ UsersTable.email r0 = UsersTable.email new
                       /\ r1 = f r0 new
                       /\ fst (UsersTable.upsert f new t)
                          = map (fun r => if UsersTable.has_email (UsersTable.email new) r
                                          then f r new else r) t)).
Proof.
  intros Hd Hf. unfold UsersTable.upsert.
  destruct (existsb (UsersTable.has_email (UsersTable.email new)) t) eqn:E.
  - apply existsb_exists in E as (r0 & Hr0 & He0).
    pose proof (distinct_filter_at_most_one UsersTable.email (UsersTable.email new) t Hd) as Hlen.
    change (fun r => (UsersTable.email r =? UsersTable.email new)%string)
      with (UsersTable.has_email (UsersTable.email new)) in Hlen.
    destruct (filter (UsersTable.has_email (UsersTable.email new)) t) as [|x [|y l]] eqn:F.
    + exfalso. assert (K : In r0 (filter (UsersTable.has_email (UsersTable.email new)) t))
        by (apply filter_In; now split).
      rewrite F in K. contradiction.
    + assert (Hx : In x t /\ UsersTable.has_email (UsersTable.email new) x = true).
      { apply filter_In. rewrite F. now left. }
      destruct Hx as (Hx & Ex). exists (f x new). cbn [fst snd map]. split; [reflexivity|].
      split.
      * rewrite filter_map_same.
        -- rewrite F. cbn [map]. now rewrite Ex.
        -- intros r. unfold UsersTable.has_email.
           destruct (UsersTable.email r =? UsersTable.email new)%string eqn:Er; [|exact Er].
           now rewrite Hf, Er.
      * right. exists x. repeat split; try assumption.
        now apply String.eqb_eq in Ex.
    + cbn in Hlen. lia.
  - exists new. cbn [fst snd]. split; [reflexivity|].
    assert (Hnone : forall r, In r t -> UsersTable.has_email (UsersTable.email new) r = false).
    { intros r Hr. destruct (UsersTable.has_email (UsersTable.email new) r) eqn:Er; [|reflexivity].
      assert (K : existsb (UsersTable.has_email (UsersTable.email new)) t = true)
        by (apply existsb_exists; now exists r).
      congruence. }
    split.
    + rewrite filter_app, (filter_none _ _ Hnone). cbn.
      unfold UsersTable.has_email. now rewrite String.eqb_refl.
    + left. split; [|split; reflexivity].
      intros r Hr E'. specialize (Hnone r Hr). unfold UsersTable.has_email in Hnone.
      apply String.eqb_neq in Hnone. contradiction.
Qed.

Section UsersFacts.

Variable G : GoDeps.
Variable TS : tables_schema.

(** What a call that returned a user did. *)
Lemma returning_user_returns
    (run : database -> (Z * string) + (database * list UsersTable.row))
    (d d1 : database) (u : option (User G)) :
  returning_user G run d = (d1, Returns (u, None)) ->
  live d = true /\ fault (seen (upcoming d)) = None /\
  exists d' rows,
    run d = inr (d', rows) /\ d1 = ticked d'
    /\ each (user_resultFn G) rows None = (u, None).
Proof.
  unfold returning_user, exec_rows, perform. intros H.
  destruct (live d); [|discriminate]. split; [reflexivity|].
  destruct (fault (seen (upcoming d))); [discriminate|]. split; [reflexivity|].
  destruct (run d) as [e|[d' rows]]; [discriminate|].
  exists d', rows. destruct (each (user_resultFn G) rows None) as [u' [e|]] eqn:E;
    inversion H; subst. repeat split.
Qed.

(** What a call that returns a user returns when the statement goes
    through. *)
Lemma returning_user_runs
    (run : database -> (Z * string) + (database * list UsersTable.row))
    (d d' : database) (rows : list UsersTable.row) :
  live d = true -> fault (seen (upcoming d)) = None ->
  run d = inr (d', rows) ->
  returning_user G run d =
    (ticked d',
     Returns (match each (user_resultFn G) rows None with
              | (_, Some e) => (None, Some e)
              | (u, None) => (u, None)
              end)).
Proof.
  intros Hl Hf Hr. unfold returning_user, exec_rows, perform. rewrite Hl, Hf, Hr.
  destruct (each (user_resultFn G) rows None) as [u [e|]]; reflexivity.
Qed.

Lemma each_user_one (r : UsersTable.row) (u : option (User G)) :
  each (user_resultFn G) [r] None = (u, None) ->
  exists x, newUserFromStmt G r = inr x /\ u = Some x.
Proof.
  cbn. unfold user_resultFn. destruct (newUserFromStmt G r) as [e|x]; [discriminate|].
  intros H; inversion H. now exists x.
Qed.

(** X10. A user that is not there is no error: with the statement going
    through, [GetUserByEmail] for an email no row carries, and
    [GetUserById] for an id no row carries, return a nil user and a nil
    error. *)
Theorem missing_user_is_nil_not_an_error (key : string) (d : database) :
  live d = true ->
  fault (seen (upcoming d)) = None ->
  ((forall r, In r (users d) -> UsersTable.email r <> key) ->
   snd (GetUserByEmail G key d) = Returns (None, None))
  /\ ((forall r, In r (users d) -> UsersTable.id r <> key) ->
      snd (GetUserById G key d) = Returns (None, None)).
Proof.
  intros Hl Hf.
  assert (K : forall (p : UsersTable.row -> bool),
             (forall r, In r (users d) -> p r = false) ->
             firstn 1 (filter p (users d)) = []).
  { intros p Hp. replace (filter p (users d)) with (@nil UsersTable.row); [reflexivity|].
    symmetry. induction (users d) as [|r l IH]; [reflexivity|]. cbn.
    rewrite (Hp r (or_introl eq_refl)). apply IH. intros r' Hr'. apply Hp. now right. }
  split; intros Hm.
  - unfold GetUserByEmail. rewrite (returning_user_runs _ d d [] Hl Hf); [reflexivity|].
    unfold UsersTable.select_by_email. rewrite K; [reflexivity|].
    intros r Hr. apply String.eqb_neq, Hm, Hr.
  - unfold GetUserById. rewrite (returning_user_runs _ d d [] Hl Hf); [reflexivity|].
    unfold UsersTable.select_by_id. rewrite K; [reflexivity|].
    intros r Hr. apply String.eqb_neq, Hm, Hr.
Qed.

End UsersFacts.

Section UsersCalls.

Variable G : GoDeps.
Variable TS : tables_schema.

Lemma newUserFromStmt_fields (r : UsersTable.row) (u : User G) :
  newUserFromStmt G r = inr u ->
  UserID u = UsersTable.id r /\ Name u = UsersTable.name r
  /\ Password u = UsersTable.password r
  /\ Verified u = column_bool (UsersTable.verified r)
  /\ Oauth2 u = column_bool (UsersTable.oauth2 r)
  /\ Avatar u = UsersTable.avatar r /\ Email u = UsersTable.email r
  /\ EmailVisibility u = column_bool (UsersTable.emailVisibility r).
Proof.
  unfold newUserFromStmt.
  destruct (TimeParse G (UsersTable.created r)); [discriminate|].
  destruct (TimeParse G (UsersTable.updated r)); [discriminate|].
  intros H; inversion H; subst; cbn. repeat split.
Qed.

(** What a successful upsert of a user did. *)
Lemma upsert_user_returns
    (f : string -> UsersTable.row -> UsersTable.row -> UsersTable.row)
    (new : database -> UsersTable.row) (d d1 : database) (u : User G) :
  UsersTable.emails_distinct (users d) = true ->
  (forall now' old x, UsersTable.email (f now' old x) = UsersTable.email old) ->
  returning_user G (upsert_user TS f new) d = (d1, Returns (Some u, None)) ->
  exists r1,
    newUserFromStmt G r1 = inr u
    /\ users d1 = fst (UsersTable.upsert (f (stamp d)) (new d) (users d))
    /\ snd (UsersTable.upsert (f (stamp d)) (new d) (users d)) = [r1]
    /\ filter (UsersTable.has_email (UsersTable.email (new d))) (users d1) = [r1]
    /\ live d1 = true.
Proof.
  intros Hd Hf H. apply returning_user_returns in H as (Hl & _ & d' & rows & Hr & -> & He).
  unfold upsert_user in Hr.
  destruct (users_check TS (users d) (new d)); [discriminate|].
  destruct (users_upsert_one (f (stamp d)) (new d) (users d) Hd
              (fun old => Hf (stamp d) old (new d)))
    as (r1 & Hrows & Hfil & _).
  destruct (UsersTable.upsert (f (stamp d)) (new d) (users d)) as [t' rows'] eqn:U.
  inversion Hr; subst d' rows. cbn [fst snd] in *. subst rows'.
  apply each_user_one in He as (x & Hx & Hu). inversion Hu; subst x.
  exists r1. cbn. repeat split; assumption.
Qed.

Lemma keep_password_email (now' : string) (old x : UsersTable.row) :
  UsersTable.email (UsersTable.keep_password now' old x) = UsersTable.email old.
Proof. reflexivity. Qed.

Lemma add_oauth2_email (now' : string) (old x : UsersTable.row) :
  UsersTable.email (UsersTable.add_oauth2 now' old x) = UsersTable.email old.
Proof. reflexivity. Qed.

(** X11. A created user is found again: when [CreateUserWithPassword] or
    [CreateUserWithOauth2] returned a user on a table with distinct emails,
    [GetUserByEmail] with the given email, the statement going through,
    returns that very user. *)
Theorem created_user_is_found (user : User G) (d d1 : database) (u : User G) :
  UsersTable.emails_distinct (users d) = true ->
  CreateUserWithPassword G TS user d = (d1, Returns (Some u, None))
  \/ CreateUserWithOauth2 G TS user d = (d1, Returns (Some u, None)) ->
  fault (seen (upcoming d1)) = None ->
  snd (GetUserByEmail G (Email user) d1) = Returns (Some u, None).
Proof.
  intros Hd H Hf.
  assert (K : exists r1, newUserFromStmt G r1 = inr u
               /\ filter (UsersTable.has_email (Email user)) (users d1) = [r1]
               /\ live d1 = true).
  { destruct H as [H|H].
    - destruct (upsert_user_returns _ _ d d1 u Hd keep_password_email H)
        as (r1 & H1 & _ & _ & H4 & H5). exists r1. repeat split; assumption.
    - destruct (upsert_user_returns _ _ d d1 u Hd add_oauth2_email H)
        as (r1 & H1 & _ & _ & H4 & H5). exists r1. repeat split; assumption. }
  destruct K as (r1 & Hu & Hfil & Hl).
  unfold GetUserByEmail.
  rewrite (returning_user_runs G _ d1 d1 [r1] Hl Hf).
  - cbn. unfold user_resultFn. now rewrite Hu.
  - unfold UsersTable.select_by_email. now rewrite Hfil.
Qed.

(** The row an upsert rewrote, when the email was taken by [r0]. *)
Lemma upsert_user_existing
    (f : string -> UsersTable.row -> UsersTable.row -> UsersTable.row)
    (new : database -> UsersTable.row) (d d1 : database) (u : User G)
    (r0 : UsersTable.row) :
  UsersTable.emails_distinct (users d) = true ->
  (forall now' old x, UsersTable.email (f now' old x) = UsersTable.email old) ->
  returning_user G (upsert_user TS f new) d = (d1, Returns (Some u, None)) ->
  In r0 (users d) -> UsersTable.email r0 = UsersTable.email (new d) ->
  newUserFromStmt G (f (stamp d) r0 (new d)) = inr u
  /\ List.length (users d1) = List.length (users d).
Proof.
  intros Hd Hf H Hr0 He.
  destruct (upsert_user_returns f new d d1 u Hd Hf H) as (r1 & Hu & Ht & Hrows & _).
  destruct (users_upsert_one (f (stamp d)) (new d) (users d) Hd
              (fun old => Hf (stamp d) old (new d)))
    as (r1' & Hrows' & _ & [(Hfree & _)|(r0' & Hr0' & He' & Hr1 & Ht')]).
  - elim (Hfree r0 Hr0 He).
  - rewrite Hrows in Hrows'. injection Hrows' as E1.
    assert (E0 : r0' = r0).
    { apply (distinct_inj UsersTable.email (users d)); try assumption. congruence. }
    split; [congruence|].
    rewrite Ht, Ht'. apply length_map.
Qed.

(** X12. Registering with a password for an email that already has a user
    adds no row and returns the stored user: every field is as stored,
    except that an empty stored password is replaced by the given one.  A
    stored password is never overwritten. *)
Theorem stored_password_is_kept (user : User G) (d d1 : database) (u : User G)
    (r0 : UsersTable.row) :
  UsersTable.emails_distinct (users d) = true ->
  In r0 (users d) -> UsersTable.email r0 = Email user ->
  CreateUserWithPassword G TS user d = (d1, Returns (Some u, None)) ->
  List.length (users d1) = List.length (users d)
  /\ Password u = (if (UsersTable.password r0 =? "")%string then Password user
                   else UsersTable.password r0)
  /\ UserID u = UsersTable.id r0 /\ Name u = UsersTable.name r0
  /\ Verified u = column_bool (UsersTable.verified r0)
  /\ Oauth2 u = column_bool (UsersTable.oauth2 r0)
  /\ Avatar u = UsersTable.avatar r0 /\ Email u = Email user.
Proof.
  intros Hd Hr0 He H.
  destruct (upsert_user_existing _ _ d d1 u r0 Hd keep_password_email H Hr0 He)
    as (Hu & Hlen).
  apply newUserFromStmt_fields in Hu as (H1 & H2 & H3 & H4 & H5 & H6 & H7 & _).
  cbn in *. repeat split; try assumption. congruence.
Qed.

(** X13. Registering through OAuth2 for an email that already has a user
    adds no row and returns the stored user with the OAuth2 flag set: the
    stored password, name, avatar and verification are kept. *)
Theorem oauth2_is_added_to_stored_user (user : User G) (d d1 : database) (u : User G)
    (r0 : UsersTable.row) :
  UsersTable.emails_distinct (users d) = true ->
  In r0 (users d) -> UsersTable.email r0 = Email user ->
  CreateUserWithOauth2 G TS user d = (d1, Returns (Some u, None)) ->
  List.length (users d1) = List.length (users d)
  /\ Oauth2 u = true
  /\ Password u = UsersTable.password r0
  /\ UserID u = UsersTable.id r0 /\ Name u = UsersTable.name r0
  /\ Verified u = column_bool (UsersTable.verified r0)
  /\ Avatar u = UsersTable.avatar r0 /\ Email u = Email user.
Proof.
  intros Hd Hr0 He H.
  destruct (upsert_user_existing _ _ d d1 u r0 Hd add_oauth2_email H Hr0 He)
    as (Hu & Hlen).
  apply newUserFromStmt_fields in Hu as (H1 & H2 & H3 & H4 & H5 & H6 & H7 & _).
  cbn in *. repeat split; try assumption. congruence.
Qed.

(** The row an upsert added, when the email was free. *)
Lemma upsert_user_new
    (f : string -> UsersTable.row -> UsersTable.row -> UsersTable.row)
    (new : database -> UsersTable.row) (d d1 : database) (u : User G) :
  UsersTable.emails_distinct (users d) = true ->
  (forall now' old x, UsersTable.email (f now' old x) = UsersTable.email old) ->
  returning_user G (upsert_user TS f new) d = (d1, Returns (Some u, None)) ->
  (forall r, In r (users d) -> UsersTable.email r <> UsersTable.email (new d)) ->
  newUserFromStmt G (new d) = inr u
  /\ users d1 = (users d ++ [new d])%list.
Proof.
  intros Hd Hf H Hfree.
  destruct (upsert_user_returns f new d d1 u Hd Hf H) as (r1 & Hu & Ht & Hrows & _).
  destruct (users_upsert_one (f (stamp d)) (new d) (users d) Hd
              (fun old => Hf (stamp d) old (new d)))
    as (r1' & Hrows' & _ & [(_ & Hr1 & Ht')|(r0' & Hr0' & He' & _)]).
  - rewrite Hrows in Hrows'. injection Hrows' as E1.
    split; [congruence|]. now rewrite Ht, Ht'.
  - elim (Hfree r0' Hr0' He').
Qed.

(** X14. The way of registering decides the credentials of a new user, not
    the caller's record: for a free email, [CreateUserWithPassword] stores
    the given password with the OAuth2 flag off whatever [user.Oauth2]
    says, and [CreateUserWithOauth2] stores an empty password with the flag
    on whatever [user.Password] says; both add one row and keep the given
    name, avatar and email. *)
Theorem new_user_credentials (user : User G) (d d1 : database) (u : User G) :
  UsersTable.emails_distinct (users d) = true ->
  (forall r, In r (users d) -> UsersTable.email r <> Email user) ->
  (CreateUserWithPassword G TS user d = (d1, Returns (Some u, None)) ->
     Password u = Password user /\ Oauth2 u = false
     /\ Name u = Name user /\ Avatar u = Avatar user /\ Email u = Email user
     /\ Verified u = Verified user
     /\ List.length (users d1) = Datatypes.S (List.length (users d)))
  /\ (CreateUserWithOauth2 G TS user d = (d1, Returns (Some u, None)) ->
     Password u = "" /\ Oauth2 u = true
     /\ Name u = Name user /\ Avatar u = Avatar user /\ Email u = Email user
     /\ Verified u = Verified user
     /\ List.length (users d1) = Datatypes.S (List.length (users d))).
Proof.
  intros Hd Hfree. split; intros H.
  - destruct (upsert_user_new _ _ d d1 u Hd keep_password_email H Hfree) as (Hu & Ht).
    apply newUserFromStmt_fields in Hu as (H1 & H2 & H3 & H4 & H5 & H6 & H7 & _).
    cbn in *. repeat split; try assumption.
    + rewrite H4. now destruct (Verified user).
    + rewrite Ht, length_app. cbn. lia.
  - destruct (upsert_user_new _ _ d d1 u Hd add_oauth2_email H Hfree) as (Hu & Ht).
    apply newUserFromStmt_fields in Hu as (H1 & H2 & H3 & H4 & H5 & H6 & H7 & _).
    cbn in *. repeat split; try assumption.
    + rewrite H4. now destruct (Verified user).
    + rewrite Ht, length_app. cbn. lia.
Qed.

End UsersCalls.

Lemma existsb_false_forall {R : Type} (p : R -> bool) (l : list R) :
  existsb p l = false -> forall r, In r l -> p r = false.
Proof.
  intros H r Hr. destruct (p r) eqn:E; [|reflexivity].
  assert (K : existsb p l = true) by (apply existsb_exists; now exists r). congruence.
Qed.

Lemma distinct_not_in (x : string) (l : list string) :
  existsb (String.eqb x) l = false <-> ~ In x l.
Proof.
  split.
  - intros H Hin. pose proof (existsb_false_forall _ _ H x Hin) as K.
    now rewrite String.eqb_refl in K.
  - intros H. destruct (existsb (String.eqb x) l) eqn:E; [|reflexivity].
    apply existsb_exists in E as (y & Hy & Ey). apply String.eqb_eq in Ey. now subst.
Qed.

Lemma distinct_app_one (l : list string) (x : string) :
  distinct l = true -> ~ In x l -> distinct (l ++ [x]) = true.
Proof.
  induction l as [|y l IH]; cbn; [reflexivity|].
  intros H Hx. apply andb_true_iff in H as (Hn & Hd).
  apply andb_true_iff. split; [|apply IH; tauto].
  apply negb_true_iff. apply negb_true_iff in Hn. apply distinct_not_in.
  apply distinct_not_in in Hn. intros Hin. apply in_app_or in Hin as [Hin|[<-|[]]]; tauto.
Qed.

Section UsersInvariant.

Variable G : GoDeps.
Variable TS : tables_schema.

(** An upsert keeps the emails distinct. *)
Lemma upsert_keeps_emails_distinct
    (f : UsersTable.row -> UsersTable.row -> UsersTable.row)
    (new : UsersTable.row) (t : UsersTable.table) :
  (forall old, UsersTable.email (f old new) = UsersTable.email old) ->
  UsersTable.emails_distinct t = true ->
  UsersTable.emails_distinct (fst (UsersTable.upsert f new t)) = true.
Proof.
  intros Hf Hd. unfold UsersTable.upsert, UsersTable.emails_distinct in *.
  destruct (existsb (UsersTable.has_email (UsersTable.email new)) t) eqn:E; cbn [fst].
  - rewrite map_map. erewrite map_ext; [exact Hd|]. intros r. cbn.
    destruct (UsersTable.has_email (UsersTable.email new) r); [apply Hf|reflexivity].
  - rewrite map_app. apply distinct_app_one; [assumption|].
    intros Hin. apply in_map_iff in Hin as (r & Hr & Hin).
    pose proof (existsb_false_forall _ _ E r Hin) as K.
    unfold UsersTable.has_email in K. apply String.eqb_neq in K. contradiction.
Qed.

(** The users a call that returns a user leaves behind. *)
Lemma returning_user_users
    (run : database -> (Z * string) + (database * list UsersTable.row)) (d : database) :
  users (fst (returning_user G run d)) = users d
  \/ exists d' rows, run d = inr (d', rows)
                     /\ users (fst (returning_user G run d)) = users d'.
Proof.
  unfold returning_user, exec_rows, perform.
  destruct (live d); [|now left].
  destruct (fault (seen (upcoming d))); [now left|].
  destruct (run d) as [e|[d' rows]] eqn:R; [now left|].
  right. exists d', rows. split; [reflexivity|].
  destruct (each (user_resultFn G) rows None) as [u [e|]]; reflexivity.
Qed.

Lemma returning_error_users (prefix : string)
    (run : database -> (Z * string) + (database * list unit)) (d : database) :
  users (fst (returning_error prefix run d)) = users d
  \/ exists d' rows, run d = inr (d', rows)
                     /\ users (fst (returning_error prefix run d)) = users d'.
Proof.
  unfold returning_error, exec_only, perform.
  destruct (live d); [|now left].
  destruct (fault (seen (upcoming d))); [now left|].
  destruct (run d) as [e|[d' rows]] eqn:R; [now left|].
  right. exists d', rows. split; reflexivity.
Qed.

Lemma update_where_id_emails (f : UsersTable.row -> UsersTable.row) (i : string)
    (t : UsersTable.table) :
  (forall r, UsersTable.email (f r) = UsersTable.email r) ->
  map UsersTable.email (UsersTable.update_where_id f i t) = map UsersTable.email t.
Proof.
  intros Hf. unfold UsersTable.update_where_id. rewrite map_map. apply map_ext.
  intros r. destruct (UsersTable.has_id i r); [apply Hf|reflexivity].
Qed.

Lemma update_where_id_no_hit (f : UsersTable.row -> UsersTable.row) (i : string)
    (t : UsersTable.table) :
  filter (UsersTable.has_id i) t = [] -> UsersTable.update_where_id f i t = t.
Proof.
  intros H. unfold UsersTable.update_where_id. rewrite <- (map_id t) at 2.
  apply map_ext_in. intros r Hr.
  destruct (UsersTable.has_id i r) eqn:E; [|reflexivity].
  assert (K : In r (filter (UsersTable.has_id i) t)) by (apply filter_In; now split).
  rewrite H in K. contradiction.
Qed.

Lemma In_updated_email (now' e i : string) (t : UsersTable.table) (x : string) :
  In x (map UsersTable.email (UsersTable.update_where_id (UsersTable.set_email now' e) i t)) ->
  x = e \/ In x (map UsersTable.email t).
Proof.
  intros H. apply in_map_iff in H as (r' & <- & Hr').
  unfold UsersTable.update_where_id in Hr'. apply in_map_iff in Hr' as (r & <- & Hr).
  destruct (UsersTable.has_id i r); cbn; [now left|right; apply in_map, Hr].
Qed.

(** An email update that the engine lets through keeps the emails
    distinct. *)
Lemma update_email_keeps_distinct (now' e i : string) (t t' : UsersTable.table) :
  UsersTable.emails_distinct t = true ->
  UsersTable.update_email now' e i t = inr t' ->
  UsersTable.emails_distinct t' = true.
Proof.
  unfold UsersTable.update_email. intros Hd H.
  destruct (filter (UsersTable.has_id i) t) as [|h [|h' l]] eqn:F.
  - inversion H; subst. rewrite (update_where_id_no_hit _ _ _ F). exact Hd.
  - destruct (existsb (UsersTable.has_email e)
                (filter (fun r => negb (UsersTable.has_id i r)) t)) eqn:E; [discriminate|].
    inversion H; subst. clear H.
    assert (Ho : forall r, In r t -> UsersTable.has_id i r = false -> UsersTable.email r <> e).
    { intros r Hr Hi. 
      assert (K : In r (filter (fun r => negb (UsersTable.has_id i r)) t))
        by (apply filter_In; split; [assumption|now rewrite Hi]).
      pose proof (existsb_false_forall _ _ E r K) as K'.
      unfold UsersTable.has_email in K'. now apply String.eqb_neq in K'. }
    clear E. unfold UsersTable.emails_distinct in *.
    revert h F Hd Ho. induction t as [|r t IH]; intros h F Hd Ho; [reflexivity|].
    cbn in F, Hd. apply andb_true_iff in Hd as (Hn & Hd). apply negb_true_iff in Hn.
    apply distinct_not_in in Hn.
    cbn [UsersTable.update_where_id map]. destruct (UsersTable.has_id i r) eqn:Hi.
    + injection F as _ F.
      fold (UsersTable.update_where_id (UsersTable.set_email now' e) i t).
      rewrite (update_where_id_no_hit _ _ _ F). cbn.
      apply andb_true_iff. split; [|exact Hd].
      apply negb_true_iff, distinct_not_in. intros Hin.
      apply in_map_iff in Hin as (r' & Er' & Hr').
      assert (Hi' : UsersTable.has_id i r' = false).
      { destruct (UsersTable.has_id i r') eqn:E'; [|reflexivity].
        assert (K : In r' (filter (UsersTable.has_id i) t)) by (apply filter_In; now split).
        rewrite F in K. contradiction. }
      exact (Ho r' (or_intror Hr') Hi' Er').
    + fold (UsersTable.update_where_id (UsersTable.set_email now' e) i t). cbn.
      apply andb_true_iff. split.
      * apply negb_true_iff, distinct_not_in. intros Hin.
        apply In_updated_email in Hin as [Hin|Hin]; [|contradiction].
        exact (Ho r (or_introl eq_refl) Hi Hin).
      * apply (IH h F Hd). intros r' Hr'. apply Ho. now right.
  - discriminate.
Qed.

(** X15. The emails of [users] stay distinct: whatever
    [CreateUserWithPassword], [CreateUserWithOauth2], [VerifyEmail],
    [UpdatePassword] or [UpdateEmail] is given and whatever it returns, a
    table with pairwise distinct emails is left with pairwise distinct
    emails. *)
Theorem emails_stay_distinct (d : database) :
  UsersTable.emails_distinct (users d) = true ->
  (forall user, UsersTable.emails_distinct
                  (users (fst (CreateUserWithPassword G TS user d))) = true)
  /\ (forall user, UsersTable.emails_distinct
                     (users (fst (CreateUserWithOauth2 G TS user d))) = true)
  /\ (forall userId, UsersTable.emails_distinct
                       (users (fst (VerifyEmail userId d))) = true)
  /\ (forall userId newPassword,
        UsersTable.emails_distinct
          (users (fst (UpdatePassword TS userId newPassword d))) = true)
  /\ (forall userId newEmail,
        UsersTable.emails_distinct
          (users (fst (UpdateEmail TS userId newEmail d))) = true).
Proof.
  intros Hd.
  assert (U : forall f new,
             (forall now' old x, UsersTable.email (f now' old x) = UsersTable.email old) ->
             UsersTable.emails_distinct
               (users (fst (returning_user G (upsert_user TS f new) d))) = true).
  { intros f new Hf.
    destruct (returning_user_users (upsert_user TS f new) d) as [->|(d' & rows & Hr & ->)];
      [assumption|].
    unfold upsert_user in Hr. destruct (users_check TS (users d) (new d)); [discriminate|].
    pose proof (upsert_keeps_emails_distinct (f (stamp d)) (new d) (users d)
                  (fun old => Hf (stamp d) old (new d)) Hd) as K.
    destruct (UsersTable.upsert (f (stamp d)) (new d) (users d)) as [t' rows'].
    inversion Hr; subst. exact K. }
  split; [|split; [|split; [|split]]].
  - intros user. apply U. reflexivity.
  - intros user. apply U. reflexivity.
  - intros userId. unfold VerifyEmail.
    destruct (returning_error_users "failed to verify email"
                (fun d0 => inr (with_users
                   (UsersTable.update_where_id (UsersTable.set_verified (stamp d0))
                      userId (users d0)) d0, [])) d) as [->|(d' & rows & Hr & ->)];
      [assumption|].
    inversion Hr; subst. cbn. unfold UsersTable.emails_distinct in *.
    rewrite update_where_id_emails; [assumption|reflexivity].
  - intros userId newPassword. unfold UpdatePassword.
    match goal with |- context [returning_error ?p ?run d] =>
      destruct (returning_error_users p run d) as [->|(d' & rows & Hr & ->)] end;
      [assumption|].
    cbn beta in Hr. destruct (checked_rows TS userId _); [discriminate|].
    inversion Hr; subst. cbn. unfold UsersTable.emails_distinct in *.
    rewrite update_where_id_emails; [assumption|reflexivity].
  - intros userId newEmail. unfold UpdateEmail.
    match goal with |- context [returning_error ?p ?run d] =>
      destruct (returning_error_users p run d) as [->|(d' & rows & Hr & ->)] end;
      [assumption|].
    cbn beta in Hr.
    destruct (UsersTable.update_email (stamp d) newEmail userId (users d)) as [e|t'] eqn:E;
      [discriminate|].
    destruct (checked_rows TS userId t'); [discriminate|].
    inversion Hr; subst. cbn. exact (update_email_keeps_distinct _ _ _ _ _ Hd E).
Qed.

End UsersInvariant.

Section UsersChanges.

Variable G : GoDeps.
Variable TS : tables_schema.

(** What a call that returned a nil error did. *)
Lemma returning_error_returns (prefix : string)
    (run : database -> (Z * string) + (database * list unit)) (d d1 : database) :
  returning_error prefix run d = (d1, Returns None) ->
  live d = true /\ fault (seen (upcoming d)) = None /\
  exists d' rows, run d = inr (d', rows) /\ d1 = ticked d'.
Proof.
  unfold returning_error, exec_only, perform. intros H.
  destruct (live d); [|discriminate]. split; [reflexivity|].
  destruct (fault (seen (upcoming d))); [discriminate|]. split; [reflexivity|].
  destruct (run d) as [e|[d' rows]]; [discriminate|].
  exists d', rows. inversion H; subst. split; reflexivity.
Qed.

Lemma returning_error_runs (prefix : string)
    (run : database -> (Z * string) + (database * list unit))
    (d d' : database) (rows : list unit) :
  live d = true -> fault (seen (upcoming d)) = None ->
  run d = inr (d', rows) ->
  returning_error prefix run d = (ticked d', Returns None).
Proof.
  intros Hl Hf Hr. unfold returning_error, exec_only, perform. now rewrite Hl, Hf, Hr.
Qed.

Lemma returning_error_fails (prefix : string)
    (run : database -> (Z * string) + (database * list unit))
    (d : database) (e : Z * string) :
  live d = true -> fault (seen (upcoming d)) = None ->
  run d = inl e ->
  returning_error prefix run d
  = (ticked d, Returns (Some (Wrapped prefix (sqlite_error e)))).
Proof.
  intros Hl Hf Hr. unfold returning_error, exec_only, perform. now rewrite Hl, Hf, Hr.
Qed.

(** The user [GetUserById] returns from a table whose rows with that id
    were rewritten by [f]. *)
Lemma user_after_update (f : UsersTable.row -> UsersTable.row) (userId : string)
    (t : UsersTable.table) (d1 d2 : database) (u : User G) :
  GetUserById G userId d1 = (d2, Returns (Some u, None)) ->
  users d1 = UsersTable.update_where_id f userId t ->
  (forall r, UsersTable.id (f r) = UsersTable.id r) ->
  exists r0, In r0 t /\ UsersTable.id r0 = userId
             /\ newUserFromStmt G (f r0) = inr u.
Proof.
  intros H Ht Hf. unfold GetUserById in H.
  apply returning_user_returns in H as (_ & _ & d' & rows & Hr & _ & He).
  inversion Hr; subst d' rows. clear Hr.
  unfold UsersTable.select_by_id in He. rewrite Ht in He.
  unfold UsersTable.update_where_id in He.
  rewrite filter_map_same in He.
  - destruct (filter (UsersTable.has_id userId) t) as [|r0 l] eqn:F.
    + cbn in He. discriminate.
    + assert (K : In r0 t /\ UsersTable.has_id userId r0 = true).
      { apply filter_In. rewrite F. now left. }
      destruct K as (Hin & Hid). cbn [map firstn] in He. rewrite Hid in He.
      apply each_user_one in He as (x & Hx & Hu). inversion Hu; subst x.
      exists r0. split; [assumption|]. split; [|assumption].
      unfold UsersTable.has_id in Hid. now apply String.eqb_eq in Hid.
  - intros r. unfold UsersTable.has_id.
    destruct (UsersTable.id r =? userId)%string eqn:E; [|exact E].
    now rewrite Hf, E.
Qed.

(** X16. A verification is seen by the next lookup: after [VerifyEmail]
    returned a nil error, the user [GetUserById] returns for that id is
    verified and is otherwise a stored user of that id as it was. *)
Theorem verified_user_is_seen (userId : string) (d d1 d2 : database) (u : User G) :
  VerifyEmail userId d = (d1, Returns None) ->
  GetUserById G userId d1 = (d2, Returns (Some u, None)) ->
  Verified u = true
  /\ exists r0, In r0 (users d) /\ UsersTable.id r0 = userId
       /\ UserID u = userId
       /\ Name u = UsersTable.name r0 /\ Password u = UsersTable.password r0
       /\ Oauth2 u = column_bool (UsersTable.oauth2 r0)
       /\ Avatar u = UsersTable.avatar r0 /\ Email u = UsersTable.email r0.
Proof.
  intros H1 H2. unfold VerifyEmail in H1.
  apply returning_error_returns in H1 as (_ & _ & d' & rows & Hr & ->).
  inversion Hr; subst d' rows. clear Hr.
  destruct (user_after_update (UsersTable.set_verified (stamp d)) userId (users d)
              _ d2 u H2 eq_refl (fun r => eq_refl)) as (r0 & Hin & Hid & Hu).
  apply newUserFromStmt_fields in Hu as (U1 & U2 & U3 & U4 & U5 & U6 & U7 & _).
  cbn in *. split; [assumption|]. exists r0. repeat split; try assumption. congruence.
Qed.

(** X17. A new password is seen by the next lookup: after [UpdatePassword]
    returned a nil error, the user [GetUserById] returns for that id
    carries the new password and is otherwise a stored user of that id as
    it was. *)
Theorem new_password_is_seen (userId newPassword : string) (d d1 d2 : database)
    (u : User G) :
  UpdatePassword TS userId newPassword d = (d1, Returns None) ->
  GetUserById G userId d1 = (d2, Returns (Some u, None)) ->
  Password u = newPassword
  /\ exists r0, In r0 (users d) /\ UsersTable.id r0 = userId
       /\ UserID u = userId
       /\ Name u = UsersTable.name r0
       /\ Verified u = column_bool (UsersTable.verified r0)
       /\ Oauth2 u = column_bool (UsersTable.oauth2 r0)
       /\ Avatar u = UsersTable.avatar r0 /\ Email u = UsersTable.email r0.
Proof.
  intros H1 H2. unfold UpdatePassword in H1.
  apply returning_error_returns in H1 as (_ & _ & d' & rows & Hr & ->).
  cbn beta zeta in Hr. destruct (checked_rows TS userId _); [discriminate|].
  inversion Hr; subst d' rows. clear Hr.
  destruct (user_after_update (UsersTable.set_password (stamp d) newPassword) userId
              (users d) _ d2 u H2 eq_refl (fun r => eq_refl)) as (r0 & Hin & Hid & Hu).
  apply newUserFromStmt_fields in Hu as (U1 & U2 & U3 & U4 & U5 & U6 & U7 & _).
  cbn in *. split; [assumption|]. exists r0. repeat split; try assumption. congruence.
Qed.

(** X18. An email that is taken cannot be given to another user: when a
    row has the id and another row, of a different id, has the new email,
    [UpdateEmail], the statement being run, returns the engine's
    uniqueness error wrapped under "failed to update email", and [users] is
    as before. *)
Theorem taken_email_is_refused (userId newEmail : string) (d : database)
    (r r' : UsersTable.row) :
  live d = true ->
  fault (seen (upcoming d)) = None ->
  In r (users d) -> UsersTable.id r = userId ->
  In r' (users d) -> UsersTable.id r' <> userId -> UsersTable.email r' = newEmail ->
  snd (UpdateEmail TS userId newEmail d)
  = Returns (Some (Wrapped "failed to update email"
                     (SqliteError SQLITE_CONSTRAINT_UNIQUE
                        "UNIQUE constraint failed: users.email")))
  /\ users (fst (UpdateEmail TS userId newEmail d)) = users d.
Proof.
  intros Hl Hf Hr Hid Hr' Hid' He.
  assert (K : UsersTable.update_email (stamp d) newEmail userId (users d)
              = inl UsersTable.err_unique_email).
  { unfold UsersTable.update_email.
    destruct (filter (UsersTable.has_id userId) (users d)) as [|h [|h' l]] eqn:F.
    - exfalso. assert (X : In r (filter (UsersTable.has_id userId) (users d))).
      { apply filter_In. split; [assumption|]. unfold UsersTable.has_id.
        now apply String.eqb_eq. }
      rewrite F in X. contradiction.
    - assert (X : existsb (UsersTable.has_email newEmail)
                    (filter (fun x => negb (UsersTable.has_id userId x)) (users d)) = true).
      { apply existsb_exists. exists r'. split.
        - apply filter_In. split; [assumption|]. unfold UsersTable.has_id.
          apply negb_true_iff. now apply String.eqb_neq.
        - unfold UsersTable.has_email. now apply String.eqb_eq. }
      now rewrite X.
    - reflexivity. }
  unfold UpdateEmail. rewrite (returning_error_fails _ _ d UsersTable.err_unique_email Hl Hf).
  - split; reflexivity.
  - cbn beta. now rewrite K.
Qed.

(** X19. A change for an id no row carries is silent: [VerifyEmail],
    [UpdatePassword] and [UpdateEmail], the statement being run, return a
    nil error and leave [users] as it was. *)
Theorem change_of_a_missing_user_is_silent (userId : string) (d : database) :
  live d = true ->
  fault (seen (upcoming d)) = None ->
  (forall r, In r (users d) -> UsersTable.id r <> userId) ->
  (snd (VerifyEmail userId d) = Returns None
   /\ users (fst (VerifyEmail userId d)) = users d)
  /\ (forall newPassword,
        snd (UpdatePassword TS userId newPassword d) = Returns None
        /\ users (fst (UpdatePassword TS userId newPassword d)) = users d)
  /\ (forall newEmail,
        snd (UpdateEmail TS userId newEmail d) = Returns None
        /\ users (fst (UpdateEmail TS userId newEmail d)) = users d).
Proof.
  intros Hl Hf Hm.
  assert (F : filter (UsersTable.has_id userId) (users d) = []).
  { apply filter_none. intros r Hr. unfold UsersTable.has_id.
    apply String.eqb_neq. now apply Hm. }
  assert (U : forall f, UsersTable.update_where_id f userId (users d) = users d).
  { intros f. now apply update_where_id_no_hit. }
  assert (W : with_users (users d) d = d) by (now destruct d).
  split; [|split].
  - unfold VerifyEmail.
    rewrite (returning_error_runs _ _ d d [] Hl Hf); [split; reflexivity|].
    now rewrite U, W.
  - intros newPassword. unfold UpdatePassword.
    rewrite (returning_error_runs _ _ d d [] Hl Hf); [split; reflexivity|].
    cbn beta zeta. rewrite U. unfold checked_rows. now rewrite F, W.
  - intros newEmail. unfold UpdateEmail.
    rewrite (returning_error_runs _ _ d d [] Hl Hf); [split; reflexivity|].
    cbn beta. unfold UsersTable.update_email. rewrite F, U.
    unfold checked_rows. now rewrite F, W.
Qed.

End UsersChanges.

Lemma filter_singleton {R : Type} (p : R -> bool) (l : list R) (x : R) :
  (List.length (filter p l) <= 1)%nat -> In x l -> p x = true -> filter p l = [x].
Proof.
  intros Hlen Hin Hp.
  assert (K : In x (filter p l)) by (apply filter_In; now split).
  destruct (filter p l) as [|y [|z l']]; cbn in *; [contradiction| |lia].
  destruct K as [->|[]]. reflexivity.
Qed.

Section UsersOrder.

Variable G : GoDeps.
Variable TS : tables_schema.

(** X20. Registering with a password and through OAuth2 for the same free
    email gives one user with both credentials in either order: the given
    password and the OAuth2 flag.  The name is the one of the call that
    came first. *)
Theorem registering_both_ways_in_either_order (up uo : User G)
    (d a1 a2 b1 b2 : database) (ua ua' ub ub' : User G) :
  UsersTable.emails_distinct (users d) = true ->
  (forall r, In r (users d) -> UsersTable.email r <> Email up) ->
  Email uo = Email up ->
  CreateUserWithPassword G TS up d = (a1, Returns (Some ua, None)) ->
  CreateUserWithOauth2 G TS uo a1 = (a2, Returns (Some ua', None)) ->
  CreateUserWithOauth2 G TS uo d = (b1, Returns (Some ub, None)) ->
  CreateUserWithPassword G TS up b1 = (b2, Returns (Some ub', None)) ->
  (Password ua' = Password up /\ Oauth2 ua' = true /\ Name ua' = Name up
   /\ List.length (users a2) = Datatypes.S (List.length (users d)))
  /\ (Password ub' = Password up /\ Oauth2 ub' = true /\ Name ub' = Name uo
      /\ List.length (users b2) = Datatypes.S (List.length (users d))).
Proof.
  intros Hd Hfree He A1 A2 B1 B2.
  assert (Hfree' : forall r, In r (users d) -> UsersTable.email r <> Email uo)
    by (intros r Hr; rewrite He; now apply Hfree).
  assert (Dist : forall new, UsersTable.email new = Email up ->
                 UsersTable.emails_distinct (users d ++ [new])%list = true).
  { intros new En. unfold UsersTable.emails_distinct in *. rewrite map_app.
    apply distinct_app_one; [assumption|]. cbn. intros Hin.
    apply in_map_iff in Hin as (r & Er & Hr). apply (Hfree r Hr). congruence. }
  split.
  - destruct (upsert_user_new G TS _ _ d a1 ua Hd keep_password_email A1 Hfree)
      as (_ & Ht).
    assert (Hd1 : UsersTable.emails_distinct (users a1) = true)
      by (rewrite Ht; now apply Dist).
    destruct (upsert_user_existing G TS _ _ a1 a2 ua'
                (user_row TS d (Name up) (Password up) (Verified up) false
                   (Avatar up) (Email up) (EmailVisibility up))
                Hd1 add_oauth2_email A2) as (Hu & Hlen).
    + rewrite Ht. apply in_or_app. right. now left.
    + cbn. now symmetry.
    + apply newUserFromStmt_fields in Hu as (U1 & U2 & U3 & U4 & U5 & _).
      cbn in *. repeat split; try assumption.
      rewrite Hlen, Ht, length_app. cbn. lia.
  - destruct (upsert_user_new G TS _ _ d b1 ub Hd add_oauth2_email B1 Hfree')
      as (_ & Ht).
    assert (Hd1 : UsersTable.emails_distinct (users b1) = true)
      by (rewrite Ht; now apply Dist).
    destruct (upsert_user_existing G TS _ _ b1 b2 ub'
                (user_row TS d (Name uo) "" (Verified uo) true
                   (Avatar uo) (Email uo) (EmailVisibility uo))
                Hd1 keep_password_email B2) as (Hu & Hlen).
    + rewrite Ht. apply in_or_app. right. now left.
    + cbn. exact He.
    + apply newUserFromStmt_fields in Hu as (U1 & U2 & U3 & U4 & U5 & _).
      cbn in *. repeat split; try assumption.
      rewrite Hlen, Ht, length_app. cbn. lia.
Qed.

(** X21. A user moves to the new email: after [UpdateEmail] returned a nil
    error for the id of a stored user, on a table with distinct emails,
    [GetUserByEmail] with the new email returns what [GetUserById] returns
    for the id, that user carries the new email and the stored password and
    name, and [GetUserByEmail] with the old email, when it differs, returns
    no user. *)
Theorem user_moves_to_the_new_email (userId newEmail : string) (d d1 : database)
    (r : UsersTable.row) :
  UsersTable.emails_distinct (users d) = true ->
  In r (users d) -> UsersTable.id r = userId ->
  UpdateEmail TS userId newEmail d = (d1, Returns None) ->
  fault (seen (upcoming d1)) = None ->
  snd (GetUserByEmail G newEmail d1) = snd (GetUserById G userId d1)
  /\ (UsersTable.email r <> newEmail ->
      snd (GetUserByEmail G (UsersTable.email r) d1) = Returns (None, None))
  /\ (forall d2 u, GetUserById G userId d1 = (d2, Returns (Some u, None)) ->
        Email u = newEmail /\ Password u = UsersTable.password r
        /\ Name u = UsersTable.name r).
Proof.
  intros Hd Hr Hid H Hf1. unfold UpdateEmail in H.
  apply returning_error_returns in H as (Hl & _ & d' & rows & Hrun & ->).
  cbn beta in Hrun.
  destruct (UsersTable.update_email (stamp d) newEmail userId (users d)) as [e|t'] eqn:E;
    [discriminate|].
  destruct (checked_rows TS userId t'); [discriminate|].
  inversion Hrun; subst d' rows. clear Hrun.
  pose proof (update_email_keeps_distinct _ _ _ _ _ Hd E) as Hd'.
  assert (Hhas : UsersTable.has_id userId r = true)
    by (unfold UsersTable.has_id; now apply String.eqb_eq).
  assert (Hhits : filter (UsersTable.has_id userId) (users d) = [r]
                  /\ t' = UsersTable.update_where_id
                            (UsersTable.set_email (stamp d) newEmail) userId (users d)).
  { unfold UsersTable.update_email in E.
    assert (X : In r (filter (UsersTable.has_id userId) (users d)))
      by (apply filter_In; now split).
    destruct (filter (UsersTable.has_id userId) (users d)) as [|h [|h' l]];
      [contradiction| |discriminate].
    destruct X as [->|[]].
    destruct (existsb _ _); [discriminate|]. inversion E. now split. }
  destruct Hhits as (Hhits & Ht').
  set (r1 := UsersTable.set_email (stamp d) newEmail r).
  assert (Hin1 : In r1 t').
  { rewrite Ht'. unfold UsersTable.update_where_id. apply in_map_iff.
    exists r. split; [now rewrite Hhas|assumption]. }
  assert (Fid : filter (UsersTable.has_id userId) t' = [r1]).
  { rewrite Ht'. unfold UsersTable.update_where_id. rewrite filter_map_same.
    - rewrite Hhits. cbn. now rewrite Hhas.
    - intros x. unfold UsersTable.has_id.
      destruct (UsersTable.id x =? userId)%string eqn:Ex; [|exact Ex]. cbn. exact Ex. }
  assert (Fem : filter (UsersTable.has_email newEmail) t' = [r1]).
  { apply filter_singleton; [|assumption|].
    - exact (distinct_filter_at_most_one UsersTable.email newEmail t' Hd').
    - unfold UsersTable.has_email. cbn. apply String.eqb_refl. }
  set (dd := ticked (with_users t' d)) in *.
  assert (Hl1 : live dd = true) by exact Hl.
  split; [|split].
  - unfold GetUserByEmail, GetUserById.
    rewrite (returning_user_runs G _ dd dd [r1] Hl1 Hf1).
    + rewrite (returning_user_runs G _ dd dd [r1] Hl1 Hf1); [reflexivity|].
      unfold UsersTable.select_by_id. unfold dd; cbn [users ticked with_users]. now rewrite Fid.
    + unfold UsersTable.select_by_email. unfold dd; cbn [users ticked with_users]. now rewrite Fem.
  - intros Hne. unfold GetUserByEmail.
    rewrite (returning_user_runs G _ dd dd [] Hl1 Hf1); [reflexivity|].
    unfold UsersTable.select_by_email. unfold dd; cbn [users ticked with_users].
    rewrite filter_none; [reflexivity|].
    intros x Hx. rewrite Ht' in Hx. unfold UsersTable.update_where_id in Hx.
    apply in_map_iff in Hx as (x0 & <- & Hx0).
    unfold UsersTable.has_email.
    destruct (UsersTable.has_id userId x0) eqn:Ex.
    + cbn. apply String.eqb_neq. congruence.
    + apply String.eqb_neq. intros Eq.
      assert (x0 = r) by (apply (distinct_inj UsersTable.email (users d)); assumption).
      subst x0. congruence.
  - intros d2 u H2.
    destruct (user_after_update G (UsersTable.set_email (stamp d) newEmail) userId
                (users d) _ d2 u H2 Ht' (fun x => eq_refl)) as (r0 & Hin0 & Hid0 & Hu).
    assert (r0 = r).
    { assert (X : In r0 (filter (UsersTable.has_id userId) (users d))).
      { apply filter_In. split; [assumption|]. unfold UsersTable.has_id.
        now apply String.eqb_eq. }
      rewrite Hhits in X. destruct X as [<-|[]]. reflexivity. }
    subst r0.
    apply newUserFromStmt_fields in Hu as (U1 & U2 & U3 & U4 & U5 & U6 & U7 & _).
    cbn in *. repeat split; assumption.
Qed.

End UsersOrder.

(** * The certificates and the configuration *)

Lemma ltb_leb (a b : string) : (a <? b)%string = true -> (a <=? b)%string = true.
Proof. unfold String.ltb, String.leb. destruct (String.compare a b); congruence. Qed.

Lemma ltb_false_leb (a b : string) :
  (a <? b)%string = false -> (b <=? a)%string = true.
Proof.
  unfold String.ltb, String.leb. rewrite (String.compare_antisym a b).
  destruct (String.compare b a); simpl; congruence.
Qed.

Lemma leb_refl (a : string) : (a <=? a)%string = true.
Proof.
  apply ltb_false_leb. unfold String.ltb.
  pose proof (String.compare_antisym a a) as K.
  destruct (String.compare a a); [reflexivity|discriminate K|reflexivity].
Qed.

Lemma ltb_leb_trans (a b c : string) :
  (a <? b)%string = true -> (b <=? c)%string = true -> (a <? c)%string = true.
Proof.
  intros H1 H2. destruct (a <? c)%string eqn:E; [reflexivity|].
  apply ltb_false_leb in E.
  pose proof (leb_trans _ _ _ H2 E) as K. apply leb_not_ltb in K. congruence.
Qed.

Lemma top_desc_none {R : Type} (key : R -> string) (l : list R) :
  top_desc key l = None -> l = [].
Proof.
  destruct l as [|r l]; [reflexivity|]. cbn.
  destruct (top_desc key l) as [m|]; [|discriminate].
  destruct (key r <? key m)%string; discriminate.
Qed.

Lemma top_desc_in {R : Type} (key : R -> string) (l : list R) (m : R) :
  top_desc key l = Some m -> In m l.
Proof.
  revert m. induction l as [|r l IH]; intros m; cbn; [discriminate|].
  destruct (top_desc key l) as [m'|].
  - destruct (key r <? key m')%string; intros H; inversion H; subst.
    + right. now apply IH.
    + now left.
  - intros H; inversion H. now left.
Qed.

(** The row [ORDER BY key DESC LIMIT 1] returns has a greatest key. *)
Lemma top_desc_max {R : Type} (key : R -> string) (l : list R) (m : R) :
  top_desc key l = Some m -> forall r, In r l -> (key r <=? key m)%string = true.
Proof.
  revert m. induction l as [|r0 l IH]; intros m; cbn; [discriminate|].
  destruct (top_desc key l) as [m'|] eqn:T.
  - destruct (key r0 <? key m')%string eqn:E; intros H; inversion H; subst; clear H;
      intros r [<-|Hr].
    + now apply ltb_leb.
    + now apply IH.
    + apply leb_refl.
    + apply leb_trans with (b := key m'); [now apply IH|now apply ltb_false_leb].
  - apply top_desc_none in T. subst l. intros H; inversion H; subst.
    intros r [<-|[]]. apply leb_refl.
Qed.

(** A row added at the end is returned when its key is greater than every
    other, and not otherwise. *)
Lemma top_desc_app {R : Type} (key : R -> string) (l : list R) (x : R) :
  top_desc key (l ++ [x]) =
  match top_desc key l with
  | None => Some x
  | Some m => if (key m <? key x)%string then Some x else Some m
  end.
Proof.
  induction l as [|r l IH]; [reflexivity|].
  cbn [app top_desc]. rewrite IH. clear IH.
  destruct (top_desc key l) as [m|] eqn:T.
  - destruct (key m <? key x)%string eqn:Emx.
    + destruct (key r <? key m)%string eqn:Erm.
      * rewrite Emx. now rewrite (ltb_leb_trans _ _ _ Erm (ltb_leb _ _ Emx)).
      * reflexivity.
    + destruct (key r <? key m)%string eqn:Erm.
      * now rewrite Emx.
      * destruct (key r <? key x)%string eqn:Erx; [|reflexivity].
        exfalso. apply ltb_false_leb in Emx. apply ltb_false_leb in Erm.
        pose proof (leb_trans _ _ _ Emx Erm) as K. apply leb_not_ltb in K. congruence.
  - apply top_desc_none in T. subst l. reflexivity.
Qed.

Section Certificates.

Variable G : GoDeps.
Variable TS : tables_schema.

Lemma scan_cert_fields (r : AcmeTable.row) (c : AcmeCert G) :
  scan_cert G r = inr c ->
  CertID c = AcmeTable.id r /\ Identifier c = AcmeTable.identifier r
  /\ Domains c = AcmeTable.domains r
  /\ CertificateChain c = AcmeTable.certificate_chain r
  /\ PrivateKey c = AcmeTable.private_key r
  /\ TimeParse G (AcmeTable.issued_at r) = inr (IssuedAt c)
  /\ TimeParse G (AcmeTable.expires_at r) = inr (ExpiresAt c)
  /\ TimeParse G (AcmeTable.last_renewal_attempt_at r) = inr (LastRenewalAttemptAt c)
  /\ TimeParse G (AcmeTable.created_at r) = inr (CertCreatedAt c).
Proof.
  unfold scan_cert.
  destruct (TimeParse G (AcmeTable.issued_at r)); [discriminate|].
  destruct (TimeParse G (AcmeTable.expires_at r)); [discriminate|].
  destruct (TimeParse G (AcmeTable.last_renewal_attempt_at r)); [discriminate|].
  destruct (TimeParse G (AcmeTable.created_at r)); [discriminate|].
  destruct (TimeParse G (AcmeTable.updated_at r)); [discriminate|].
  intros H; inversion H; subst; cbn. repeat split.
Qed.

(** What [Get] does when the statement goes through. *)
Lemma Get_runs (d : database) :
  live d = true -> fault (seen (upcoming d)) = None ->
  Get G d =
  (ticked d,
   match top_desc AcmeTable.issued_at (acme_certificates d) with
   | None => Returns (None, Some (ErrorString "acme: no certificate found"))
   | Some r =>
       match scan_cert G r with
       | inl e => Returns (None, Some (Wrapped "acme: failed to get cert" e))
       | inr c => Returns (Some c, None)
       end
   end).
Proof.
  intros Hl Hf. unfold Get, exec_rows, perform, AcmeTable.select_latest.
  rewrite Hl, Hf.
  destruct (top_desc AcmeTable.issued_at (acme_certificates d)) as [r|]; [|reflexivity].
  cbn. unfold cert_resultFn. destruct (scan_cert G r); reflexivity.
Qed.

(** What a call of [Get] that returned a certificate did. *)
Lemma Get_returns (d d1 : database) (c : AcmeCert G) :
  Get G d = (d1, Returns (Some c, None)) ->
  live d = true /\ d1 = ticked d
  /\ exists r, top_desc AcmeTable.issued_at (acme_certificates d) = Some r
               /\ scan_cert G r = inr c.
Proof.
  intros H. destruct (live d) eqn:Hl; [|unfold Get in H; rewrite Hl in H; discriminate].
  destruct (fault (seen (upcoming d))) as [e|] eqn:Hf.
  - unfold Get, exec_rows, perform in H. rewrite Hl, Hf in H. discriminate.
  - rewrite (Get_runs d Hl Hf) in H.
    destruct (top_desc AcmeTable.issued_at (acme_certificates d)) as [r|];
      [|inversion H].
    destruct (scan_cert G r) as [e|c'] eqn:S; inversion H; subst.
    split; [reflexivity|]. split; [reflexivity|]. now exists r.
Qed.

(** X22. No certificate is an error of its own: with the statement going
    through, [Get] returns the error "acme: no certificate found", which
    wraps nothing, exactly when [acme_certificates] has no row. *)
Theorem no_certificate_is_an_error (d : database) :
  live d = true ->
  fault (seen (upcoming d)) = None ->
  snd (Get G d) = Returns (None, Some (ErrorString "acme: no certificate found"))
  <-> acme_certificates d = [].
Proof.
  intros Hl Hf. rewrite (Get_runs d Hl Hf). cbn [snd]. split.
  - destruct (top_desc AcmeTable.issued_at (acme_certificates d)) as [r|] eqn:T.
    + destruct (scan_cert G r); discriminate.
    + intros _. now apply top_desc_none in T.
  - intros ->. reflexivity.
Qed.

(** X23. [Get] returns a latest certificate and changes nothing: the
    certificate it returns is read from a stored row whose [issued_at] no
    row exceeds, in the order of the text. *)
Theorem Get_returns_a_latest_certificate (d d1 : database) (c : AcmeCert G) :
  Get G d = (d1, Returns (Some c, None)) ->
  acme_certificates d1 = acme_certificates d
  /\ exists r, In r (acme_certificates d)
       /\ CertID c = AcmeTable.id r /\ Identifier c = AcmeTable.identifier r
       /\ Domains c = AcmeTable.domains r
       /\ CertificateChain c = AcmeTable.certificate_chain r
       /\ PrivateKey c = AcmeTable.private_key r
       /\ TimeParse G (AcmeTable.issued_at r) = inr (IssuedAt c)
       /\ forall r', In r' (acme_certificates d) ->
            (AcmeTable.issued_at r' <=? AcmeTable.issued_at r)%string = true.
Proof.
  intros H. apply Get_returns in H as (_ & -> & r & T & S).
  split; [reflexivity|]. exists r.
  apply scan_cert_fields in S as (S1 & S2 & S3 & S4 & S5 & S6 & _).
  split; [exact (top_desc_in _ _ _ T)|].
  repeat (split; [assumption|]). exact (top_desc_max _ _ _ T).
Qed.

(** The rows of a table after an upsert. *)
Lemma In_certs_upsert (now' : string) (new : AcmeTable.row) (t : AcmeTable.table)
    (r : AcmeTable.row) :
  In r (AcmeTable.upsert now' new t) ->
  (In r t /\ AcmeTable.identifier r <> AcmeTable.identifier new)
  \/ (r = new /\ forall r0, In r0 t ->
                   AcmeTable.identifier r0 <> AcmeTable.identifier new)
  \/ (exists r0, In r0 t /\ AcmeTable.identifier r0 = AcmeTable.identifier new
                 /\ r = AcmeTable.replace_cert now' r0 new).
Proof.
  unfold AcmeTable.upsert.
  destruct (existsb (AcmeTable.has_identifier (AcmeTable.identifier new)) t) eqn:E.
  - intros H. apply in_map_iff in H as (r0 & <- & Hr0).
    unfold AcmeTable.has_identifier.
    destruct (AcmeTable.identifier r0 =? AcmeTable.identifier new)%string eqn:E0.
    + right. right. exists r0. apply String.eqb_eq in E0. now repeat split.
    + left. apply String.eqb_neq in E0. now split.
  - pose proof (existsb_false_forall _ _ E) as K.
    intros H. apply in_app_or in H as [H|[<-|[]]].
    + left. split; [assumption|]. apply String.eqb_neq. exact (K r H).
    + right. left. split; [reflexivity|]. intros r0 Hr0.
      apply String.eqb_neq. exact (K r0 Hr0).
Qed.

(** After an upsert some row carries the identifier and the new
    [issued_at]. *)
Lemma certs_upsert_has (now' : string) (new : AcmeTable.row) (t : AcmeTable.table) :
  exists r, In r (AcmeTable.upsert now' new t)
            /\ AcmeTable.identifier r = AcmeTable.identifier new
            /\ AcmeTable.issued_at r = AcmeTable.issued_at new.
Proof.
  unfold AcmeTable.upsert.
  destruct (existsb (AcmeTable.has_identifier (AcmeTable.identifier new)) t) eqn:E.
  - apply existsb_exists in E as (r0 & Hr0 & E0).
    exists (AcmeTable.replace_cert now' r0 new). split.
    + apply in_map_iff. exists r0. now rewrite E0.
    + split; [|reflexivity]. cbn. now apply String.eqb_eq in E0.
  - exists new. split; [|now split]. apply in_or_app. right. now left.
Qed.

(** What a call of [Save] that returned a nil error did. *)
Lemma Save_returns (cert : AcmeCert G) (d d1 : database) :
  Save G TS cert d = (d1, Returns None) ->
  live d1 = true
  /\ acme_certificates d1
     = AcmeTable.upsert (stamp d) (cert_row G TS d cert) (acme_certificates d).
Proof.
  intros H. unfold Save in H.
  apply returning_error_returns in H as (Hl & _ & d' & rows & Hr & ->).
  cbn beta in Hr.
  destruct (certs_check TS (acme_certificates d) (cert_row G TS d cert)); [discriminate|].
  inversion Hr; subst. split; [exact Hl|reflexivity].
Qed.

(** The row [Get] reads after a [Save] of a certificate issued later than
    those of the other identifiers. *)
Lemma Get_after_Save (cert : AcmeCert G) (d d1 d2 : database) (c : AcmeCert G) :
  Save G TS cert d = (d1, Returns None) ->
  (forall r, In r (acme_certificates d) ->
     AcmeTable.identifier r <> Identifier cert ->
     (AcmeTable.issued_at r <? TimeFormat G (IssuedAt cert))%string = true) ->
  Get G d1 = (d2, Returns (Some c, None)) ->
  exists r, scan_cert G r = inr c
    /\ ((r = cert_row G TS d cert
         /\ forall r0, In r0 (acme_certificates d) ->
              AcmeTable.identifier r0 <> Identifier cert)
        \/ exists r0, In r0 (acme_certificates d)
             /\ AcmeTable.identifier r0 = Identifier cert
             /\ r = AcmeTable.replace_cert (stamp d) r0 (cert_row G TS d cert)).
Proof.
  intros HS Hlate HG.
  apply Save_returns in HS as (_ & Ht).
  apply Get_returns in HG as (_ & _ & r & T & S).
  exists r. split; [assumption|].
  pose proof (top_desc_in _ _ _ T) as Hin. pose proof (top_desc_max _ _ _ T) as Hmax.
  rewrite Ht in Hin, Hmax.
  destruct (In_certs_upsert _ _ _ _ Hin) as [(Hold & Hne)|[K|K]].
  - exfalso.
    destruct (certs_upsert_has (stamp d) (cert_row G TS d cert) (acme_certificates d))
      as (r' & Hr' & _ & Hi').
    pose proof (Hmax r' Hr') as Hle. rewrite Hi' in Hle. cbn in Hle.
    apply leb_not_ltb in Hle. rewrite (Hlate r Hold Hne) in Hle. discriminate.
  - now left.
  - now right.
Qed.

(** X24. A saved certificate is the one [Get] returns: after [Save]
    returned a nil error for a certificate issued later than those stored
    under other identifiers, a certificate that [Get] returns carries the
    saved identifier, domains, chain and key, and its times are the saved
    ones, formatted and parsed back. *)
Theorem saved_certificate_is_returned (cert : AcmeCert G) (d d1 d2 : database)
    (c : AcmeCert G) :
  Save G TS cert d = (d1, Returns None) ->
  (forall r, In r (acme_certificates d) ->
     AcmeTable.identifier r <> Identifier cert ->
     (AcmeTable.issued_at r <? TimeFormat G (IssuedAt cert))%string = true) ->
  Get G d1 = (d2, Returns (Some c, None)) ->
  Identifier c = Identifier cert /\ Domains c = Domains cert
  /\ CertificateChain c = CertificateChain cert /\ PrivateKey c = PrivateKey cert
  /\ TimeParse G (TimeFormat G (IssuedAt cert)) = inr (IssuedAt c)
  /\ TimeParse G (TimeFormat G (ExpiresAt cert)) = inr (ExpiresAt c).
Proof.
  intros HS Hlate HG.
  destruct (Get_after_Save cert d d1 d2 c HS Hlate HG)
    as (r & S & [(-> & _)|(r0 & _ & Hid & ->)]);
    apply scan_cert_fields in S as (S1 & S2 & S3 & S4 & S5 & S6 & S7 & _);
    cbn in *; repeat split; congruence.
Qed.

(** X25. A renewal keeps the record: when [Save] returned a nil error for
    an identifier that a row of a table with distinct identifiers carries,
    no row is added, and a certificate that [Get] returns then has the id,
    the creation time and the time of the last renewal attempt of that
    row. *)
Theorem renewal_keeps_the_record (cert : AcmeCert G) (d d1 d2 : database)
    (c : AcmeCert G) (r0 : AcmeTable.row) :
  AcmeTable.identifiers_distinct (acme_certificates d) = true ->
  In r0 (acme_certificates d) -> AcmeTable.identifier r0 = Identifier cert ->
  Save G TS cert d = (d1, Returns None) ->
  (forall r, In r (acme_certificates d) ->
     AcmeTable.identifier r <> Identifier cert ->
     (AcmeTable.issued_at r <? TimeFormat G (IssuedAt cert))%string = true) ->
  Get G d1 = (d2, Returns (Some c, None)) ->
  List.length (acme_certificates d1) = List.length (acme_certificates d)
  /\ CertID c = AcmeTable.id r0
  /\ TimeParse G (AcmeTable.created_at r0) = inr (CertCreatedAt c)
  /\ TimeParse G (AcmeTable.last_renewal_attempt_at r0) = inr (LastRenewalAttemptAt c).
Proof.
  intros Hd Hr0 Hid HS Hlate HG.
  destruct (Get_after_Save cert d d1 d2 c HS Hlate HG)
    as (r & S & [(_ & Hfree)|(r0' & Hr0' & Hid' & ->)]).
  - elim (Hfree r0 Hr0 Hid).
  - assert (r0' = r0).
    { apply (distinct_inj AcmeTable.identifier (acme_certificates d)); try assumption.
      congruence. }
    subst r0'. apply Save_returns in HS as (_ & Ht).
    apply scan_cert_fields in S as (S1 & _ & _ & _ & _ & _ & _ & S8 & S9).
    cbn in *. split; [|repeat split; assumption].
    rewrite Ht. unfold AcmeTable.upsert.
    replace (existsb (AcmeTable.has_identifier (AcmeTable.identifier (cert_row G TS d cert)))
               (acme_certificates d)) with true; [apply length_map|].
    symmetry. apply existsb_exists. exists r0. split; [assumption|].
    unfold AcmeTable.has_identifier. cbn. now apply String.eqb_eq.
Qed.

(** X26. The identifiers of [acme_certificates] stay distinct, and no row
    is lost: whatever [Save] is given and however it ends, a table with
    pairwise distinct identifiers is left with pairwise distinct
    identifiers and with at least as many rows. *)
Theorem identifiers_stay_distinct (cert : AcmeCert G) (d : database) :
  AcmeTable.identifiers_distinct (acme_certificates d) = true ->
  AcmeTable.identifiers_distinct (acme_certificates (fst (Save G TS cert d))) = true
  /\ (List.length (acme_certificates d)
      <= List.length (acme_certificates (fst (Save G TS cert d))))%nat.
Proof.
  intros Hd. unfold Save, returning_error, exec_only, perform.
  destruct (live d); [|split; [assumption|cbn; lia]].
  destruct (fault (seen (upcoming d))); [split; [assumption|cbn; lia]|].
  destruct (certs_check TS (acme_certificates d) (cert_row G TS d cert));
    [split; [assumption|cbn; lia]|].
  cbn. unfold AcmeTable.upsert, AcmeTable.identifiers_distinct in *.
  destruct (existsb (AcmeTable.has_identifier (AcmeTable.identifier (cert_row G TS d cert)))
              (acme_certificates d)) eqn:E.
  - split; [|rewrite length_map; lia].
    rewrite map_map. erewrite map_ext; [exact Hd|]. intros r. cbn.
    now destruct (AcmeTable.has_identifier (Identifier cert) r).
  - split; [|rewrite length_app; cbn; lia].
    rewrite map_app. apply distinct_app_one; [assumption|].
    intros Hin. apply in_map_iff in Hin as (r & Er & Hr).
    pose proof (existsb_false_forall _ _ E r Hr) as K.
    unfold AcmeTable.has_identifier in K. apply String.eqb_neq in K. contradiction.
Qed.

End Certificates.

Lemma latest_content_top (s : string) (t : ConfigTable.table) :
  latest_content s t
  = match top_desc ConfigTable.created_at (filter (ConfigTable.has_scope s) t) with
    | Some r => ConfigTable.content r
    | None => None
    end.
Proof.
  unfold latest_content, ConfigTable.select_latest.
  now destruct (top_desc ConfigTable.created_at (filter (ConfigTable.has_scope s) t)).
Qed.

Section Configuration.

Variable TS : tables_schema.
Variable D : driver.

(** What [LatestConfig] does when the statement goes through. *)
Lemma LatestConfig_runs (s : string) (d : database) :
  live d = true -> fault (seen (upcoming d)) = None ->
  LatestConfig s d = (ticked d, (latest_content s (app_config d), None)).
Proof.
  intros Hl Hf.
  unfold LatestConfig, exec_rows, perform, latest_content, ConfigTable.select_latest.
  rewrite Hl, Hf. cbn [negb].
  destruct (top_desc ConfigTable.created_at
              (filter (ConfigTable.has_scope s) (app_config d))) as [r|]; [|reflexivity].
  cbn. unfold content_resultFn. destruct (ConfigTable.content r); reflexivity.
Qed.

(** What a call of [InsertConfig] that returned a nil error did. *)
Lemma InsertConfig_returns (s c f desc : string) (d d1 : database) :
  InsertConfig TS D s c f desc d = (d1, None) ->
  live d = true /\ live d1 = true
  /\ app_config d1 = (app_config d ++ [config_row D d s c f desc])%list.
Proof.
  unfold InsertConfig, exec_only, perform. intros H.
  destruct (live d) eqn:Hl; cbn [negb] in H; [|discriminate].
  destruct (fault (seen (upcoming d))); [discriminate|].
  destruct (config_check TS (app_config d) (config_row D d s c f desc)); [discriminate|].
  inversion H; subst. split; [reflexivity|]. split; [exact Hl|reflexivity].
Qed.

Lemma filter_scope_added (s s' : string) (t : ConfigTable.table) (r : ConfigTable.row) :
  ConfigTable.scope r = s ->
  filter (ConfigTable.has_scope s') (t ++ [r])
  = if (s =? s')%string then (filter (ConfigTable.has_scope s') t ++ [r])%list
    else filter (ConfigTable.has_scope s') t.
Proof.
  intros <-. rewrite filter_app. cbn. unfold ConfigTable.has_scope at 2.
  destruct (ConfigTable.scope r =? s')%string; [reflexivity|apply app_nil_r].
Qed.

Lemma filter_scope_added_content (s s' : string) (t : ConfigTable.table)
    (r : ConfigTable.row) :
  ConfigTable.scope r = s -> s' <> s ->
  latest_content s' (t ++ [r])%list = latest_content s' t.
Proof.
  intros Hs Hne. rewrite !latest_content_top, (filter_scope_added s s' t r Hs).
  replace (s =? s')%string with false; [reflexivity|].
  symmetry. apply String.eqb_neq. congruence.
Qed.

(** X27. A scope without configuration is no error: with the statement
    going through, [LatestConfig] for a scope no row carries returns a nil
    slice and a nil error. *)
Theorem missing_scope_is_nil_not_an_error (s : string) (d : database) :
  live d = true ->
  fault (seen (upcoming d)) = None ->
  (forall r, In r (app_config d) -> ConfigTable.scope r <> s) ->
  snd (LatestConfig s d) = (None, None).
Proof.
  intros Hl Hf Hm. rewrite (LatestConfig_runs s d Hl Hf). cbn [snd].
  rewrite latest_content_top, filter_none; [reflexivity|].
  intros r Hr. apply String.eqb_neq. now apply Hm.
Qed.

(** X28. An inserted configuration is the latest of its scope: after
    [InsertConfig] returned a nil error at a time later, as text, than the
    [created_at] of every stored row of the scope, [LatestConfig] for the
    scope, the statement going through, returns what the binding stored
    for the given content. *)
Theorem inserted_config_is_the_latest (s c f desc : string) (d d1 : database) :
  InsertConfig TS D s c f desc d = (d1, None) ->
  (forall r, In r (app_config d) -> ConfigTable.scope r = s ->
     (ConfigTable.created_at r <? time_Now (upcoming d))%string = true) ->
  fault (seen (upcoming d1)) = None ->
  snd (LatestConfig s d1) = (BindBytes D c, None).
Proof.
  intros H Hlate Hf1. apply InsertConfig_returns in H as (_ & Hl1 & Ht).
  rewrite (LatestConfig_runs s d1 Hl1 Hf1). cbn [snd]. rewrite !latest_content_top.
  rewrite Ht, (filter_scope_added s s (app_config d) (config_row D d s c f desc) eq_refl), String.eqb_refl, top_desc_app.
  destruct (top_desc ConfigTable.created_at
              (filter (ConfigTable.has_scope s) (app_config d))) as [m|] eqn:T;
    [|reflexivity].
  apply top_desc_in, filter_In in T as (Hm & Hs).
  unfold ConfigTable.has_scope in Hs. apply String.eqb_eq in Hs.
  cbn [ConfigTable.created_at config_row]. now rewrite (Hlate m Hm Hs).
Qed.

(** What a call of [LatestConfig] that returned a nil error did. *)
Lemma LatestConfig_returns (s : string) (d : database) :
  snd (snd (LatestConfig s d)) = None ->
  live d = true
  /\ LatestConfig s d = (ticked d, (latest_content s (app_config d), None)).
Proof.
  intros H. destruct (live d) eqn:Hl.
  - destruct (fault (seen (upcoming d))) as [e|] eqn:Hf.
    + exfalso. revert H. unfold LatestConfig, exec_rows, perform.
      rewrite Hl, Hf. cbn. discriminate.
    + split; [reflexivity|]. now apply LatestConfig_runs.
  - exfalso. revert H. unfold LatestConfig. rewrite Hl. cbn. discriminate.
Qed.

(** X29. The other scopes are not touched: a lookup of one scope, an
    [InsertConfig] for another scope, however it ends (no connection, a
    failure of the engine, a constraint, success), and a second lookup of
    the first scope: when both lookups return a nil error they return the
    same content. *)
Theorem other_scopes_are_untouched (s s' c f desc : string) (d : database) :
  let before := LatestConfig s' d in
  let inserted := InsertConfig TS D s c f desc (fst before) in
  let after := LatestConfig s' (fst inserted) in
  s' <> s ->
  snd (snd before) = None ->
  snd (snd after) = None ->
  fst (snd after) = fst (snd before).
Proof.
  intros before inserted after Hne Hb Ha.
  destruct (LatestConfig_returns s' d Hb) as (Hl & Eb).
  destruct (LatestConfig_returns s' (fst inserted) Ha) as (_ & Ea).
  unfold after, before. rewrite Ea. unfold inserted, before. rewrite Eb.
  cbn [fst snd].
  unfold InsertConfig, exec_only, perform.
  replace (live (ticked d)) with true by (symmetry; exact Hl). cbn [negb].
  destruct (fault (seen (upcoming (ticked d)))); [reflexivity|].
  destruct (config_check TS (app_config (ticked d))
              (config_row D (ticked d) s c f desc)); [reflexivity|].
  cbn [fst app_config ticked with_config].
  rewrite (filter_scope_added_content s s' (app_config d)
             (config_row D (ticked d) s c f desc) eq_refl Hne).
  reflexivity.
Qed.

(** X30. The latest configuration is the one with the greatest
    [created_at], not the one inserted last: after [InsertConfig] returned
    a nil error at a time earlier, as text, than the [created_at] of a
    stored row of the scope, [LatestConfig] for the scope returns what it
    returned before, the statements going through. *)
Theorem stale_config_is_not_the_latest (s c f desc : string) (d d1 : database)
    (r : ConfigTable.row) :
  InsertConfig TS D s c f desc d = (d1, None) ->
  In r (app_config d) -> ConfigTable.scope r = s ->
  (time_Now (upcoming d) <? ConfigTable.created_at r)%string = true ->
  fault (seen (upcoming d)) = None ->
  fault (seen (upcoming d1)) = None ->
  snd (LatestConfig s d1) = snd (LatestConfig s d).
Proof.
  intros H Hr Hs Hstale Hf Hf1. apply InsertConfig_returns in H as (Hl & Hl1 & Ht).
  rewrite (LatestConfig_runs s d1 Hl1 Hf1), (LatestConfig_runs s d Hl Hf).
  cbn [snd]. rewrite !latest_content_top.
  rewrite Ht, (filter_scope_added s s (app_config d) (config_row D d s c f desc) eq_refl), String.eqb_refl, top_desc_app.
  destruct (top_desc ConfigTable.created_at
              (filter (ConfigTable.has_scope s) (app_config d))) as [m|] eqn:T.
  - assert (Hin : In r (filter (ConfigTable.has_scope s) (app_config d))).
    { apply filter_In. split; [assumption|]. unfold ConfigTable.has_scope.
      now apply String.eqb_eq. }
    pose proof (top_desc_max _ _ _ T r Hin) as Hle.
    pose proof (ltb_leb_trans _ _ _ Hstale Hle) as Hlt.
    cbn [ConfigTable.created_at config_row].
    now rewrite (leb_not_ltb _ _ (ltb_leb _ _ Hlt)).
  - exfalso. apply top_desc_none in T.
    assert (Hin : In r (filter (ConfigTable.has_scope s) (app_config d))).
    { apply filter_In. split; [assumption|]. unfold ConfigTable.has_scope.
      now apply String.eqb_eq. }
    rewrite T in Hin. contradiction.
Qed.

End Configuration.

(** * The further properties at work *)

(** No row of a small table has the value: the rows are gone through one by
    one. *)
Ltac none_of_the_rows :=
  let r := fresh "r" in
  let H := fresh "H" in
  intros r H; simpl in H;
  repeat (destruct H as [<-|H]; [first [discriminate | vm_compute; discriminate]|]);
  contradiction.

(** ** The queue *)

(** X1 at work: a loop that inserts, claims, fails, completes with a
    successor and inserts again leaves the ids 1, 2 and 3. *)
Lemma ids_stay_ascending_witness :
  let os := [OpInsertJob Demo.deps Demo.email; OpClaim Demo.deps 1;
             OpMarkFailed Demo.deps 1 "smtp down";
             OpMarkRecurrentCompleted Demo.deps 1 Demo.email;
             OpInsertJob Demo.deps Demo.email] in
  let w := run_ops Demo.deps Demo.plain os (Demo.world_of [] Demo.quiet) in
  wf_table (tbl w) /\ map id (tbl w) = [1; 2; 3].
Proof.
  intros os w. split; [|reflexivity].
  exact (ids_stay_ascending Demo.deps Demo.plain os (Demo.world_of [] Demo.quiet) eq_refl).
Defined.

(** X2 at work: no job 9 among five. *)
Lemma marking_a_missing_job_is_a_no_op_witness :
  let w := Demo.world_of Demo.five_pending Demo.quiet in
  snd (MarkCompleted Demo.plain 9 w) = Returns None
  /\ tbl (fst (MarkCompleted Demo.plain 9 w)) = Demo.five_pending
  /\ snd (MarkFailed Demo.plain 9 "smtp down" w) = Returns None
  /\ tbl (fst (MarkFailed Demo.plain 9 "smtp down" w)) = Demo.five_pending.
Proof.
  intros w.
  apply (marking_a_missing_job_is_a_no_op Demo.plain 9 "smtp down" w eq_refl eq_refl).
  none_of_the_rows.
Defined.


(** X4 at work: job 2 fails and is then completed. *)
Lemma completion_overrides_earlier_marks_witness :
  let w := Demo.world_of Demo.five_pending Demo.quiet in
  let w1 := fst (MarkFailed Demo.plain 2 "smtp down" w) in
  let w2 := fst (MarkCompleted Demo.plain 2 w1) in
  tbl w2 = update_where_id (set_completed (now_text w1)) 2 Demo.five_pending.
Proof.
  intros w w1 w2.
  exact (completion_overrides_earlier_marks Demo.plain 2 "smtp down" w w1 w2
           (or_introl eq_refl) eq_refl).
Defined.

(** X5 at work: the job of the scenario, claimed, failed and claimed
    again, comes back with its second attempt. *)
Lemma failed_job_is_claimed_again_witness :
  let w := Demo.inserted in
  let j := nth 0 (Demo.claimed Demo.first_claim) Demo.email in
  exists j', In j' (Demo.claimed (Claim Demo.deps Demo.plain (-1) Demo.failed_once))
             /\ ID j' = 1 /\ Attempts j' = 2 /\ MaxAttempts j' = 3
             /\ LastError j' = "smtp down" /\ Status j' = StatusProcessing.
Proof.
  intros w j.
  exact (failed_job_is_claimed_again Demo.deps Demo.plain 1 (-1) "smtp down"
           w (fst Demo.first_claim) Demo.failed_once
           (fst (Claim Demo.deps Demo.plain (-1) Demo.failed_once))
           (Demo.claimed Demo.first_claim)
           (Demo.claimed (Claim Demo.deps Demo.plain (-1) Demo.failed_once)) j
           eq_refl eq_refl (or_introl eq_refl) (conj eq_refl eq_refl)
           eq_refl eq_refl eq_refl eq_refl).
Defined.

(** X6 at work: job 2 of five is completed; a claim of all takes the other
    four. *)
Lemma completed_job_is_not_claimed_witness :
  let w := Demo.world_of Demo.five_pending Demo.quiet in
  let w1 := fst (MarkCompleted Demo.plain 2 w) in
  let c := Claim Demo.deps Demo.plain (-1) w1 in
  ~ In 2 (map ID (Demo.claimed c)) /\ List.length (Demo.claimed c) = 4%nat.
Proof.
  intros w w1 c. split; [|reflexivity].
  exact (completed_job_is_not_claimed Demo.deps Demo.plain 2 (-1) w w1 (fst c)
           (Demo.claimed c) eq_refl eq_refl eq_refl).
Defined.

(** X7 at work: a claim of none among five pending jobs. *)
Lemma claim_of_nothing_witness :
  let w := Demo.world_of Demo.five_pending Demo.quiet in
  snd (Claim Demo.deps Demo.plain 0 w) = Returns (Some [], None)
  /\ tbl (fst (Claim Demo.deps Demo.plain 0 w)) = Demo.five_pending.
Proof.
  intros w. exact (claim_of_nothing Demo.deps Demo.plain w eq_refl eq_refl).
Defined.

(** X8 at work: the engine is busy when job 1 is to be completed. *)
Lemma failed_call_changes_nothing_witness :
  let busy := (SQLITE_BUSY, "database is locked") in
  let w := Demo.world_of Demo.five_pending (Demo.failing_at 0 busy) in
  (exists e, snd (MarkCompleted Demo.plain 1 w) = Returns (Some e))
  /\ tbl (fst (MarkCompleted Demo.plain 1 w)) = Demo.five_pending.
Proof.
  intros busy w.
  assert (H : exists e, snd (MarkCompleted Demo.plain 1 w) = Returns (Some e))
    by (eexists; reflexivity).
  split; [exact H|]. destruct H as (e & He).
  exact (proj1 (proj2 (failed_call_changes_nothing Demo.deps Demo.plain w e)) 1 He).
Defined.

(** X9 at work: a sixth job is inserted and claimed with the other
    five. *)
Lemma inserted_job_is_claimed_witness :
  let w := Demo.world_of Demo.five_pending Demo.quiet in
  let w1 := fst (InsertJob Demo.deps Demo.plain Demo.email w) in
  let c := Claim Demo.deps Demo.plain (-1) w1 in
  exists j, In j (Demo.claimed c)
    /\ ID j = 6
    /\ JobType j = "email" /\ Payload j = "{to:x}" /\ PayloadExtra j = ""
    /\ MaxAttempts j = 3 /\ Recurrent j = false
    /\ Status j = StatusProcessing /\ Attempts j = 1.
Proof.
  intros w w1 c.
  assert (Ha : go_int (Attempts Demo.email))
    by (unfold go_int, int64_min, int64_max; simpl; lia).
  assert (Hm : go_int (MaxAttempts Demo.email))
    by (unfold go_int, int64_min, int64_max; simpl; lia).
  exact (inserted_job_is_claimed Demo.deps Demo.plain Demo.email (-1) w w1 (fst c)
           (Demo.claimed c) eq_refl eq_refl eq_refl Ha eq_refl Hm
           eq_refl eq_refl eq_refl).
Defined.

(** ** The users *)

(** X10 at work: nobody of that email or id among Alice and Bob. *)
Lemma missing_user_is_nil_not_an_error_witness :
  let d := DemoTables.db_of DemoTables.two_users [] [] in
  snd (GetUserByEmail Demo.deps "nobody" d) = Returns (None, None)
  /\ snd (GetUserById Demo.deps "nobody" d) = Returns (None, None).
Proof.
  intros d.
  destruct (missing_user_is_nil_not_an_error Demo.deps "nobody" d eq_refl eq_refl)
    as (H1 & H2).
  split; [apply H1|apply H2]; none_of_the_rows.
Defined.

(** X11 at work: Carol registers with a password and is found. *)
Lemma created_user_is_found_witness :
  let d := DemoTables.db_of DemoTables.two_users [] [] in
  let r := CreateUserWithPassword Demo.deps DemoTables.open_schema DemoTables.carol d in
  snd (GetUserByEmail Demo.deps "carol@example.org" (fst r))
  = Returns (Some (DemoTables.returned_user r), None).
Proof.
  intros d r.
  exact (created_user_is_found Demo.deps DemoTables.open_schema DemoTables.carol d (fst r)
           (DemoTables.returned_user r) eq_refl (or_introl eq_refl) eq_refl).
Defined.

(** X12 at work: registering Alice's email with another password returns
    Alice with the password she had. *)
Lemma stored_password_is_kept_witness :
  let d := DemoTables.db_of DemoTables.two_users [] [] in
  let r := CreateUserWithPassword Demo.deps DemoTables.open_schema
             DemoTables.alice_again d in
  let u := DemoTables.returned_user r in
  List.length (users (fst r)) = 2%nat
  /\ Password u = "hash-a" /\ UserID u = "u-a" /\ Name u = "Alice".
Proof.
  intros d r u.
  destruct (stored_password_is_kept Demo.deps DemoTables.open_schema
              DemoTables.alice_again d (fst r) u DemoTables.alice
              eq_refl (or_introl eq_refl) eq_refl eq_refl)
    as (H1 & H2 & H3 & H4 & _).
  repeat split; assumption.
Defined.

(** X13 at work: Alice signs in through OAuth2 and keeps her password. *)
Lemma oauth2_is_added_to_stored_user_witness :
  let d := DemoTables.db_of DemoTables.two_users [] [] in
  let r := CreateUserWithOauth2 Demo.deps DemoTables.open_schema
             DemoTables.alice_again d in
  let u := DemoTables.returned_user r in
  List.length (users (fst r)) = 2%nat
  /\ Oauth2 u = true /\ Password u = "hash-a" /\ UserID u = "u-a".
Proof.
  intros d r u.
  destruct (oauth2_is_added_to_stored_user Demo.deps DemoTables.open_schema
              DemoTables.alice_again d (fst r) u DemoTables.alice
              eq_refl (or_introl eq_refl) eq_refl eq_refl)
    as (H1 & H2 & H3 & H4 & _).
  repeat split; assumption.
Defined.

(** X14 at work: Carol, whose email is free, registers with a password. *)
Lemma new_user_credentials_witness :
  let d := DemoTables.db_of DemoTables.two_users [] [] in
  let r := CreateUserWithPassword Demo.deps DemoTables.open_schema DemoTables.carol d in
  let u := DemoTables.returned_user r in
  Password u = "hash-c" /\ Oauth2 u = false /\ Name u = "Carol"
  /\ List.length (users (fst r)) = 3%nat.
Proof.
  intros d r u.
  assert (Hfree : forall x, In x (users d) ->
                    UsersTable.email x <> Email DemoTables.carol)
    by none_of_the_rows.
  destruct (proj1 (new_user_credentials Demo.deps DemoTables.open_schema
                     DemoTables.carol d (fst r) u eq_refl Hfree) eq_refl)
    as (H1 & H2 & H3 & _ & _ & _ & H7).
  repeat split; assumption.
Defined.

(** X15 at work: the emails of Alice and Bob stay distinct when Alice asks
    for Bob's. *)
Lemma emails_stay_distinct_witness :
  let d := DemoTables.db_of DemoTables.two_users [] [] in
  UsersTable.emails_distinct
    (users (fst (UpdateEmail DemoTables.open_schema "u-a" "bob@example.org" d))) = true.
Proof.
  intros d.
  exact (proj2 (proj2 (proj2 (proj2
           (emails_stay_distinct Demo.deps DemoTables.open_schema d eq_refl))))
           "u-a" "bob@example.org").
Defined.

(** X16 at work: Alice verifies her email. *)
Lemma verified_user_is_seen_witness :
  let d := DemoTables.db_of DemoTables.two_users [] [] in
  let d1 := fst (VerifyEmail "u-a" d) in
  let r := GetUserById Demo.deps "u-a" d1 in
  Verified (DemoTables.returned_user r) = true.
Proof.
  intros d d1 r.
  exact (proj1 (verified_user_is_seen Demo.deps "u-a" d d1 (fst r)
                  (DemoTables.returned_user r) eq_refl eq_refl)).
Defined.

(** X17 at work: Alice changes her password. *)
Lemma new_password_is_seen_witness :
  let d := DemoTables.db_of DemoTables.two_users [] [] in
  let d1 := fst (UpdatePassword DemoTables.open_schema "u-a" "hash-new" d) in
  let r := GetUserById Demo.deps "u-a" d1 in
  Password (DemoTables.returned_user r) = "hash-new".
Proof.
  intros d d1 r.
  exact (proj1 (new_password_is_seen Demo.deps DemoTables.open_schema "u-a" "hash-new"
                  d d1 (fst r) (DemoTables.returned_user r) eq_refl eq_refl)).
Defined.

(** X18 at work: Alice asks for Bob's email. *)
Lemma taken_email_is_refused_witness :
  let d := DemoTables.db_of DemoTables.two_users [] [] in
  let r := UpdateEmail DemoTables.open_schema "u-a" "bob@example.org" d in
  snd r = Returns (Some (Wrapped "failed to update email"
                           (SqliteError SQLITE_CONSTRAINT_UNIQUE
                              "UNIQUE constraint failed: users.email")))
  /\ users (fst r) = DemoTables.two_users.
Proof.
  intros d r.
  apply (taken_email_is_refused DemoTables.open_schema "u-a" "bob@example.org" d
           DemoTables.alice DemoTables.bob eq_refl eq_refl (or_introl eq_refl) eq_refl
           (or_intror (or_introl eq_refl))); [discriminate|reflexivity].
Defined.

(** X19 at work: changes for an id that neither Alice nor Bob has. *)
Lemma change_of_a_missing_user_is_silent_witness :
  let d := DemoTables.db_of DemoTables.two_users [] [] in
  snd (VerifyEmail "u-z" d) = Returns None
  /\ users (fst (VerifyEmail "u-z" d)) = DemoTables.two_users
  /\ snd (UpdateEmail DemoTables.open_schema "u-z" "zed@example.org" d) = Returns None
  /\ users (fst (UpdateEmail DemoTables.open_schema "u-z" "zed@example.org" d))
     = DemoTables.two_users.
Proof.
  intros d.
  destruct (change_of_a_missing_user_is_silent DemoTables.open_schema "u-z" d
              eq_refl eq_refl) as ((H1 & H2) & _ & H3).
  - none_of_the_rows.
  - destruct (H3 "zed@example.org") as (H4 & H5). repeat split; assumption.
Defined.

(** X20 at work: Carol registers with a password and through OAuth2, in
    both orders. *)
Lemma registering_both_ways_in_either_order_witness :
  let d := DemoTables.db_of DemoTables.two_users [] [] in
  let TS := DemoTables.open_schema in
  let a1 := CreateUserWithPassword Demo.deps TS DemoTables.carol d in
  let a2 := CreateUserWithOauth2 Demo.deps TS DemoTables.carol_oauth2 (fst a1) in
  let b1 := CreateUserWithOauth2 Demo.deps TS DemoTables.carol_oauth2 d in
  let b2 := CreateUserWithPassword Demo.deps TS DemoTables.carol (fst b1) in
  (Password (DemoTables.returned_user a2) = "hash-c"
   /\ Oauth2 (DemoTables.returned_user a2) = true
   /\ Name (DemoTables.returned_user a2) = "Carol")
  /\ (Password (DemoTables.returned_user b2) = "hash-c"
      /\ Oauth2 (DemoTables.returned_user b2) = true
      /\ Name (DemoTables.returned_user b2) = "Carol O.").
Proof.
  intros d TS a1 a2 b1 b2.
  assert (Hfree : forall x, In x (users d) ->
                    UsersTable.email x <> Email DemoTables.carol)
    by none_of_the_rows.
  destruct (registering_both_ways_in_either_order Demo.deps TS
              DemoTables.carol DemoTables.carol_oauth2
              d (fst a1) (fst a2) (fst b1) (fst b2)
              (DemoTables.returned_user a1) (DemoTables.returned_user a2)
              (DemoTables.returned_user b1) (DemoTables.returned_user b2)
              eq_refl Hfree eq_refl eq_refl eq_refl eq_refl eq_refl)
    as ((A1 & A2 & A3 & _) & (B1 & B2 & B3 & _)).
  repeat split; assumption.
Defined.

(** X21 at work: Alice moves to a new email. *)
Lemma user_moves_to_the_new_email_witness :
  let d := DemoTables.db_of DemoTables.two_users [] [] in
  let d1 := fst (UpdateEmail DemoTables.open_schema "u-a" "alice@example.net" d) in
  snd (GetUserByEmail Demo.deps "alice@example.net" d1)
  = snd (GetUserById Demo.deps "u-a" d1)
  /\ snd (GetUserByEmail Demo.deps "alice@example.org" d1) = Returns (None, None)
  /\ Email (DemoTables.returned_user (GetUserById Demo.deps "u-a" d1))
     = "alice@example.net".
Proof.
  intros d d1.
  destruct (user_moves_to_the_new_email Demo.deps DemoTables.open_schema
              "u-a" "alice@example.net" d d1 DemoTables.alice
              eq_refl (or_introl eq_refl) eq_refl eq_refl eq_refl)
    as (H1 & H2 & H3).
  split; [exact H1|]. split; [apply H2; discriminate|].
  exact (proj1 (H3 (fst (GetUserById Demo.deps "u-a" d1))
                   (DemoTables.returned_user (GetUserById Demo.deps "u-a" d1))
                   eq_refl)).
Defined.

(** ** The certificates *)

(** X22 at work: a store without certificates. *)
Lemma no_certificate_is_an_error_witness :
  let d := DemoTables.db_of [] [] [] in
  snd (Get Demo.deps d) = Returns (None, Some (ErrorString "acme: no certificate found")).
Proof.
  intros d.
  exact (proj2 (no_certificate_is_an_error Demo.deps d eq_refl eq_refl) eq_refl).
Defined.

(** X23 at work: of the two certificates the one of the mail host was
    issued later. *)
Lemma Get_returns_a_latest_certificate_witness :
  let d := DemoTables.db_of [] DemoTables.two_certs [] in
  let r := Get Demo.deps d in
  acme_certificates (fst r) = DemoTables.two_certs
  /\ Identifier (DemoTables.returned_cert r) = "mail.example.org".
Proof.
  intros d r.
  destruct (Get_returns_a_latest_certificate Demo.deps d (fst r)
              (DemoTables.returned_cert r) eq_refl) as (H1 & _).
  split; [exact H1|reflexivity].
Defined.

(** X24 at work: the renewed certificate of the site is saved and
    returned. *)
Lemma saved_certificate_is_returned_witness :
  let d := DemoTables.db_of [] DemoTables.two_certs [] in
  let d1 := fst (Save Demo.deps DemoTables.open_schema DemoTables.renewed d) in
  let c := DemoTables.returned_cert (Get Demo.deps d1) in
  Identifier c = "example.org" /\ Domains c = "example.org"
  /\ CertificateChain c = "chain-2" /\ PrivateKey c = "key-2"
  /\ IssuedAt c = "2025-04-09T00:00:00Z"%string.
Proof.
  intros d d1 c.
  destruct (saved_certificate_is_returned Demo.deps DemoTables.open_schema
              DemoTables.renewed d d1 (fst (Get Demo.deps d1)) c eq_refl)
    as (H1 & H2 & H3 & H4 & H5 & _).
  - intros r H; simpl in H.
    repeat (destruct H as [<-|H]; [first [reflexivity | intros E; now elim E]|]).
    contradiction.
  - reflexivity.
  - repeat split; assumption.
Defined.

(** X25 at work: the renewal keeps the id and the times of the record of
    the site. *)
Lemma renewal_keeps_the_record_witness :
  let d := DemoTables.db_of [] DemoTables.two_certs [] in
  let d1 := fst (Save Demo.deps DemoTables.open_schema DemoTables.renewed d) in
  let c := DemoTables.returned_cert (Get Demo.deps d1) in
  List.length (acme_certificates d1) = 2%nat
  /\ CertID c = 1
  /\ CertCreatedAt c = "2025-01-10T00:00:01Z"%string
  /\ LastRenewalAttemptAt c = "2025-04-08T00:00:00Z"%string.
Proof.
  intros d d1 c.
  destruct (renewal_keeps_the_record Demo.deps DemoTables.open_schema
              DemoTables.renewed d d1 (fst (Get Demo.deps d1)) c DemoTables.site
              eq_refl (or_introl eq_refl) eq_refl eq_refl)
    as (H1 & H2 & H3 & H4).
  - intros r H; simpl in H.
    repeat (destruct H as [<-|H]; [first [reflexivity | intros E; now elim E]|]).
    contradiction.
  - reflexivity.
  - split; [exact H1|]. split; [exact H2|].
    split; reflexivity.
Defined.

(** X26 at work: the identifiers of the two certificates after the
    renewal. *)
Lemma identifiers_stay_distinct_witness :
  let d := DemoTables.db_of [] DemoTables.two_certs [] in
  let d1 := fst (Save Demo.deps DemoTables.open_schema DemoTables.renewed d) in
  AcmeTable.identifiers_distinct (acme_certificates d1) = true
  /\ (2 <= List.length (acme_certificates d1))%nat.
Proof.
  intros d d1.
  exact (identifiers_stay_distinct Demo.deps DemoTables.open_schema DemoTables.renewed
           d eq_refl).
Defined.

(** ** The configuration *)

(** X27 at work: no configuration of the mailer. *)
Lemma missing_scope_is_nil_not_an_error_witness :
  let d := DemoTables.db_of [] [] DemoTables.configs in
  snd (LatestConfig "mailer" d) = (None, None).
Proof.
  intros d. apply (missing_scope_is_nil_not_an_error "mailer" d eq_refl eq_refl).
  none_of_the_rows.
Defined.

(** X28 at work: a third version of the application's configuration. *)
Lemma inserted_config_is_the_latest_witness :
  let d := DemoTables.db_of [] [] DemoTables.configs in
  let r := InsertConfig DemoTables.open_schema DemoTables.blobs
             "application" "a = 3" "toml" "third" d in
  snd (LatestConfig "application" (fst r)) = (Some "a = 3", None).
Proof.
  intros d r.
  apply (inserted_config_is_the_latest DemoTables.open_schema DemoTables.blobs
           "application" "a = 3" "toml" "third" d (fst r) eq_refl); [|reflexivity].
  intros x H; simpl in H.
  repeat (destruct H as [<-|H]; [intros _; reflexivity|]). contradiction.
Defined.

(** X29 at work: the engine fails the insert of a third version of the
    application's configuration, between two lookups of the logging's. *)
Lemma other_scopes_are_untouched_witness :
  let busy := (SQLITE_BUSY, "database is locked") in
  let d := DemoTables.under (DemoTables.failing_at 1 busy)
             (DemoTables.db_of [] [] DemoTables.configs) in
  let before := LatestConfig "logging" d in
  let r := InsertConfig DemoTables.open_schema DemoTables.blobs
             "application" "a = 3" "toml" "third" (fst before) in
  snd before = (Some "level = info", None)
  /\ snd r = Some (Wrapped "failed to insert config for scope 'application'"
                     (sqlite_error busy))
  /\ fst (snd (LatestConfig "logging" (fst r))) = Some "level = info".
Proof.
  intros busy d before r.
  assert (H : "logging"%string <> "application"%string) by discriminate.
  split; [reflexivity|]. split; [reflexivity|].
  exact (other_scopes_are_untouched DemoTables.open_schema DemoTables.blobs
           "application" "logging" "a = 3" "toml" "third" d H eq_refl eq_refl).
Defined.

(** X30 at work: beside a row dated in 2099 the version inserted today is
    not the latest. *)
Lemma stale_config_is_not_the_latest_witness :
  let d := DemoTables.db_of [] [] [DemoTables.app_v1; DemoTables.far_off] in
  let r := InsertConfig DemoTables.open_schema DemoTables.blobs
             "application" "a = 3" "toml" "third" d in
  snd (LatestConfig "application" (fst r)) = (Some "a = 9", None).
Proof.
  intros d r.
  exact (stale_config_is_not_the_latest DemoTables.open_schema DemoTables.blobs
           "application" "a = 3" "toml" "third" d (fst r) DemoTables.far_off
           eq_refl (or_intror (or_introl eq_refl)) eq_refl eq_refl eq_refl eq_refl).
Defined.
